(** * recursiveModuleCompile.js: the asynchronous module-compilation pipeline

    A shallow embedding of [src/node/recursiveModuleCompile.js].  The file
    chains promises; the embedding therefore contains a small promise machine
    (a store of promise cells, a queue of reaction jobs, the loads that the
    external loader has in flight) and the three functions of the file written
    as state transformers over it. *)

From stdpp Require Import base option list strings gmap.
From Stdlib Require Import Ascii Lia.

Local Open Scope string_scope.
Local Open Scope list_scope.
Local Open Scope nat_scope.

(** ** Node's [path.resolve] (POSIX flavour) *)

Module Path.

Definition slash : Ascii.ascii := "/"%char.

Definition is_slash (c : Ascii.ascii) : bool := bool_decide (c = slash).

(** [s.split('/')] *)
Fixpoint split (s : string) : list string :=
  match s with
  | EmptyString => [EmptyString]
  | String c rest =>
      if is_slash c then EmptyString :: split rest
      else match split rest with
           | [] => [String c EmptyString]
           | seg :: segs => String c seg :: segs
           end
  end.

(** [parts.join('/')] *)
Fixpoint join (parts : list string) : string :=
  match parts with
  | [] => EmptyString
  | [p] => p
  | p :: ps => p +:+ String slash (join ps)
  end.

(** [!!p] on a string *)
Definition nonempty (p : string) : bool :=
  match p with EmptyString => false | _ => true end.

Definition is_dot (p : string) : bool := bool_decide (p = ".").
Definition is_dotdot (p : string) : bool := bool_decide (p = "..").

(** The loop of [normalizeArray] runs from the last part to the first: a
    part is handled after every part to its right, with the counter [up]
    of the [..] that are still to consume a parent. *)
Fixpoint normalizeLoop (parts : list string) : list string * nat :=
  match parts with
  | [] => ([], 0)
  | last :: before_rev =>
      let '(kept, up) := normalizeLoop before_rev in
      if is_dot last then (kept, up)
      else if is_dotdot last then (kept, S up)
      else match up with
           | 0 => (last :: kept, 0)
           | S up' => (kept, up')
           end
  end.

Definition normalizeArray (parts : list string) (allowAboveRoot : bool)
  : list string :=
  let '(kept, up) := normalizeLoop parts in
  if allowAboveRoot then replicate up ".." ++ kept else kept.

(** [path.charAt(0) === '/'] *)
Definition isAbsolute (p : string) : bool :=
  match p with
  | String c _ => is_slash c
  | EmptyString => false
  end.

(** [path.resolve(p)] with one argument, [cwd] being [process.cwd()].  The
    loop of the original visits [p] and then, unless [p] is absolute, the
    working directory; empty strings are skipped. *)
Definition resolve (cwd p : string) : string :=
  let '(resolvedPath, resolvedAbsolute) :=
    let '(rp, ra) :=
      if nonempty p then (p +:+ "/" +:+ "", isAbsolute p) else ("", false) in
    if ra then (rp, ra)
    else if nonempty cwd then (cwd +:+ "/" +:+ rp, isAbsolute cwd)
    else (rp, ra) in
  let parts :=
    normalizeArray (filter (λ q, nonempty q = true) (split resolvedPath))
                   (negb resolvedAbsolute) in
  let r := (if resolvedAbsolute then "/" else "") +:+ join parts in
  if nonempty r then r else ".".

End Path.

(** ** Data *)

(** An entry of [includes] / [fileNamesAndTypes]: [{name, type}]. *)
Record Entry := { name : string; type : string }.

Definition set_name (n : string) (e : Entry) : Entry :=
  {| name := n; type := type e |}.

(** The options object: the fields this file reads or writes, and the
    remaining ones, which it only passes on. *)
Record Options := {
  bundle : option bool;
  depTarget : option string;
  referrer : option string;
  modules : option string;
  passThrough : list (string * string)
}.

Definition set_bundle (b : bool) (o : Options) : Options :=
  {| bundle := Some b; depTarget := depTarget o; referrer := referrer o;
     modules := modules o; passThrough := passThrough o |}.

(** An element of the [elements] array of a compile: what the loader's
    compiler appends, or the statement built by
    [createModuleEvaluationStatement(normalizedName)]. *)
Inductive Element :=
| Compiled (code : string)
| EvaluateModule (normalizedName : string).

(** JavaScript values that travel through the promises of this file. *)
Inductive Value :=
| VUndefined
| VNull
| VError (message : string)
| VTree (elements : list Element)
| VArray (items : list Value).

(** [if (x)] on an optional string: [undefined] and [''] are falsy. *)
Definition truthy (x : option string) : bool :=
  match x with
  | Some v => Path.nonempty v
  | None => false
  end.

(** Modelled from the spec: [NodeCompiler] (NodeCompiler.js is not part of
    the sources at hand) is "constructed once per top-level request with
    the full option set"; the value keeps the option set it was given
    ([None] for [undefined]). *)
Record NodeCompiler := { compilerOptions : option Options }.

Inductive LoadFunction := Import | LoadAsScript.

(** What one call [loadFunction.call(loader, name, loadOptions)] hands to the
    loader: the operation, the name, [loadOptions.referrerName], the value of
    [loadOptions.metadata.traceurOptions] at the call, and the [basePath] the
    loader of the compile was built with. *)
Record LoadRequest := {
  loadFunction : LoadFunction;
  loadName : string;
  referrerName : option string;
  traceurOptions : Options;
  loaderBasePath : string
}.

(** What the loader does with a request before its promise settles: how it
    leaves the options object it was handed, the elements its compiler
    appends, and how the promise settles ([inl] fulfilled, [inr] rejected). *)
Record LoadReply := {
  replyOptions : Options;
  replyElements : list Element;
  replyOutcome : Value + Value
}.

(** The collaborators that are not defined in this file. *)
Record Externals := {
  dirname : string → string;                     (* path.dirname *)
  relative : string → string → string → string;  (* path.relative, by cwd *)
  pathJoin : string → string → string;           (* path.join *)
  normalizePath : string → string;               (* file-util.js *)
  normalizeModuleName : string → option string → string;
                                                 (* traceur.ModuleStore.normalize *)
  defaultOptions : Options;                      (* new Options(undefined) *)
  load : LoadRequest → LoadReply;                (* TraceurLoader over nodeLoader *)
  writeFailure : NodeCompiler → Value → string → option Value
                                                 (* what writeTreeToFile throws *)
}.

(** ** The promise machine *)

(** The closures of the file, one constructor per function expression, with
    the variables each one captures. *)
Record Session := {
  sessElements : nat;             (* the [elements] array of the compile *)
  sessOptions : option nat;       (* [options]: a reference, or undefined *)
  sessReferrerName : option string;
  sessBasePath : string
}.

Inductive Cont :=
| KCallF (sess : Session) (item : Entry)
    (* sequencePromises: function() { return f(item); }, f = loadInput *)
| KAfterLoad (sess : Session) (doEvaluateModule : bool) (name : string)
    (* loadInput: function() { if (doEvaluateModule) ... } *)
| KToTree (sess : Session) (depTarget : option string)
    (* recursiveModuleCompile: function() { if (depTarget) ... } *)
| KWriteSingle (compiler : NodeCompiler) (resolvedOutputFile : string)
| KWriteEach (compiler : NodeCompiler) (outputDir : string) (input : Entry)
| KRevertCwd
| KRevertThrow.

Inductive Outcome := Fulfilled (v : Value) | Rejected (reason : Value).

Inductive Reaction :=
| RThen (onFulfilled onRejected : option Cont) (child : nat)
| RAdopt (child : nat)
| RAll (index : nat) (aggregate : nat).

Record Cell := { outcome : option Outcome; reactions : list Reaction }.

Record Flight := {
  flightPromise : nat;
  flightRequest : LoadRequest;
  flightElements : nat;
  flightOptions : nat
}.

Inductive Event :=
| EvNewCompiler (opts : option Options)
| EvMkdir (dir : string)
| EvChdir (dir : string)
| EvLoadStart (req : LoadRequest)
| EvLoadSettle (req : LoadRequest) (reply : LoadReply)
| EvWriteTree (compiler : NodeCompiler) (tree : Value) (file : string)
| EvSettle (promise : nat) (o : Outcome).

Record State := {
  cwd : string;                          (* process.cwd() *)
  moduleCwd : string;                    (* the module's [var cwd] *)
  objects : gmap nat Options;            (* the option objects, by reference *)
  nextObject : nat;
  arrays : gmap nat (list Element);      (* the [elements] arrays *)
  nextArray : nat;
  promises : gmap nat Cell;
  nextPromise : nat;
  aggregates : gmap nat (nat * list Value);  (* Promise.all: remaining, result *)
  jobs : list (Reaction * Outcome);      (* reaction jobs, oldest first *)
  inflight : list Flight;                (* loads the loader has not settled *)
  trace : list Event                     (* what happened, oldest first *)
}.

Definition with_cwd (d : string) (s : State) : State :=
  {| cwd := d; moduleCwd := moduleCwd s; objects := objects s;
     nextObject := nextObject s; arrays := arrays s; nextArray := nextArray s;
     promises := promises s; nextPromise := nextPromise s;
     aggregates := aggregates s; jobs := jobs s; inflight := inflight s;
     trace := trace s |}.

Definition with_moduleCwd (d : string) (s : State) : State :=
  {| cwd := cwd s; moduleCwd := d; objects := objects s;
     nextObject := nextObject s; arrays := arrays s; nextArray := nextArray s;
     promises := promises s; nextPromise := nextPromise s;
     aggregates := aggregates s; jobs := jobs s; inflight := inflight s;
     trace := trace s |}.

Definition with_objects (m : gmap nat Options) (n : nat) (s : State) : State :=
  {| cwd := cwd s; moduleCwd := moduleCwd s; objects := m;
     nextObject := n; arrays := arrays s; nextArray := nextArray s;
     promises := promises s; nextPromise := nextPromise s;
     aggregates := aggregates s; jobs := jobs s; inflight := inflight s;
     trace := trace s |}.

Definition with_arrays (m : gmap nat (list Element)) (n : nat) (s : State)
  : State :=
  {| cwd := cwd s; moduleCwd := moduleCwd s; objects := objects s;
     nextObject := nextObject s; arrays := m; nextArray := n;
     promises := promises s; nextPromise := nextPromise s;
     aggregates := aggregates s; jobs := jobs s; inflight := inflight s;
     trace := trace s |}.

Definition with_promises (m : gmap nat Cell) (n : nat) (s : State) : State :=
  {| cwd := cwd s; moduleCwd := moduleCwd s; objects := objects s;
     nextObject := nextObject s; arrays := arrays s; nextArray := nextArray s;
     promises := m; nextPromise := n;
     aggregates := aggregates s; jobs := jobs s; inflight := inflight s;
     trace := trace s |}.

Definition with_aggregates (m : gmap nat (nat * list Value)) (s : State)
  : State :=
  {| cwd := cwd s; moduleCwd := moduleCwd s; objects := objects s;
     nextObject := nextObject s; arrays := arrays s; nextArray := nextArray s;
     promises := promises s; nextPromise := nextPromise s;
     aggregates := m; jobs := jobs s; inflight := inflight s;
     trace := trace s |}.

Definition with_jobs (js : list (Reaction * Outcome)) (s : State) : State :=
  {| cwd := cwd s; moduleCwd := moduleCwd s; objects := objects s;
     nextObject := nextObject s; arrays := arrays s; nextArray := nextArray s;
     promises := promises s; nextPromise := nextPromise s;
     aggregates := aggregates s; jobs := js; inflight := inflight s;
     trace := trace s |}.

Definition with_inflight (fs : list Flight) (s : State) : State :=
  {| cwd := cwd s; moduleCwd := moduleCwd s; objects := objects s;
     nextObject := nextObject s; arrays := arrays s; nextArray := nextArray s;
     promises := promises s; nextPromise := nextPromise s;
     aggregates := aggregates s; jobs := jobs s; inflight := fs;
     trace := trace s |}.

Definition log (e : Event) (s : State) : State :=
  {| cwd := cwd s; moduleCwd := moduleCwd s; objects := objects s;
     nextObject := nextObject s; arrays := arrays s; nextArray := nextArray s;
     promises := promises s; nextPromise := nextPromise s;
     aggregates := aggregates s; jobs := jobs s; inflight := inflight s;
     trace := trace s ++ [e] |}.

(** *** Promises *)

(** [new Promise] in a given state. *)
Definition newPromise (o : option Outcome) (s : State) : nat * State :=
  let p := nextPromise s in
  (p, with_promises (<[p := {| outcome := o; reactions := [] |}]> (promises s))
                    (S p) s).

(** Settling a pending promise queues one job per registered reaction;
    settling a settled promise does nothing. *)
Definition settle (p : nat) (o : Outcome) (s : State) : State :=
  match promises s !! p with
  | Some {| outcome := None; reactions := rs |} =>
      log (EvSettle p o)
        (with_jobs (jobs s ++ map (λ r, (r, o)) rs)
           (with_promises
              (<[p := {| outcome := Some o; reactions := [] |}]> (promises s))
              (nextPromise s) s))
  | _ => s
  end.

(** A reaction on a pending promise waits in its cell; on a settled promise
    it is queued at once (and still runs later, as a job). *)
Definition subscribe (p : nat) (r : Reaction) (s : State) : State :=
  match promises s !! p with
  | Some {| outcome := None; reactions := rs |} =>
      with_promises
        (<[p := {| outcome := None; reactions := rs ++ [r] |}]> (promises s))
        (nextPromise s) s
  | Some {| outcome := Some o |} => with_jobs (jobs s ++ [(r, o)]) s
  | None => s
  end.

(** [p.then(onFulfilled, onRejected)] *)
Definition then_ (p : nat) (onFulfilled onRejected : option Cont) (s : State)
  : nat * State :=
  let '(q, s1) := newPromise None s in
  (q, subscribe p (RThen onFulfilled onRejected q) s1).

(** [Promise.resolve()] *)
Definition promiseResolve (v : Value) (s : State) : nat * State :=
  newPromise (Some (Fulfilled v)) s.

(** How a handler ends. *)
Inductive Completion :=
| Return (v : Value)
| ReturnPromise (p : nat)
| Throw (reason : Value).

(** The promise made by [then] is resolved with what the handler returned:
    a value fulfils it, a throw rejects it, a promise is followed. *)
Definition resolvePromise (q : nat) (c : Completion) (s : State) : State :=
  match c with
  | Return v => settle q (Fulfilled v) s
  | Throw r => settle q (Rejected r) s
  | ReturnPromise y =>
      match promises s !! y with
      | Some {| outcome := Some o |} => settle q o s
      | Some {| outcome := None |} => subscribe y (RAdopt q) s
      | None => s
      end
  end.

(** One input of [Promise.all] has settled. *)
Definition settledAt (index agg : nat) (o : Outcome) (s : State) : State :=
  match o with
  | Rejected r => settle agg (Rejected r) s
  | Fulfilled v =>
      match aggregates s !! agg with
      | Some (remaining, result) =>
          let result' := <[index := v]> result in
          let s1 :=
            with_aggregates (<[agg := (pred remaining, result')]> (aggregates s))
                            s in
          if decide (pred remaining = 0)
          then settle agg (Fulfilled (VArray result')) s1
          else s1
      | None => s
      end
  end.

(** [Promise.all(ps)] *)
Definition promiseAll (ps : list nat) (s : State) : nat * State :=
  let '(agg, s1) := newPromise None s in
  let n := length ps in
  let s2 :=
    with_aggregates (<[agg := (n, replicate n VUndefined)]> (aggregates s1)) s1 in
  let s3 :=
    if decide (n = 0) then settle agg (Fulfilled (VArray [])) s2 else s2 in
  (agg,
   foldl (λ st ip,
            match promises st !! ip.2 with
            | Some {| outcome := Some o |} => settledAt ip.1 agg o st
            | _ => subscribe ip.2 (RAll ip.1 agg) st
            end)
         s3 (imap (λ i p, (i, p)) ps)).

(** ** The functions of recursiveModuleCompile.js *)

Section Program.

Variable E : Externals.

(** [function revertCwd() { process.chdir(cwd); }] *)
Definition revertCwd (s : State) : State :=
  log (EvChdir (moduleCwd s)) (with_cwd (moduleCwd s) s).

(** Loading the module runs [var cwd = process.cwd();]. *)
Definition loadModule (s : State) : State := with_moduleCwd (cwd s) s.

(** [basePath.replace(/\\/g, '/')] *)
Fixpoint replaceBackslashes (p : string) : string :=
  match p with
  | EmptyString => EmptyString
  | String c rest =>
      String (if bool_decide (c = "\"%char) then "/"%char else c)
             (replaceBackslashes rest)
  end.

(** Modelled from the spec: [new Options(options)] (Options is not part of
    the sources at hand) gives "a fresh clone of options": a new object
    with the fields of the given one, or with the defaults when [options]
    is undefined. *)
Definition clonedValue (options : option nat) (s : State) : Options :=
  match options with
  | Some o => default (defaultOptions E) (objects s !! o)
  | None => defaultOptions E
  end.

Definition newOptions (options : option nat) (s : State) : nat * State :=
  let c := nextObject s in
  (c, with_objects (<[c := clonedValue options s]> (objects s)) (S c) s).

(** The object behind [options], when [options] is one. *)
Definition optionsValue (options : option nat) (s : State) : option Options :=
  match options with
  | Some o => objects s !! o
  | None => None
  end.

(** [loadFunction.call(loader, name, loadOptions)]: the loader takes the
    request and returns a pending promise, which it settles later. *)
Definition callLoader (f : LoadFunction) (name : string) (sess : Session)
    (optionsCopy : nat) (s : State) : nat * State :=
  let req :=
    {| loadFunction := f; loadName := name;
       referrerName := sessReferrerName sess;
       traceurOptions := default (defaultOptions E) (objects s !! optionsCopy);
       loaderBasePath := sessBasePath sess |} in
  let '(x, s1) := newPromise None s in
  (x,
   log (EvLoadStart req)
     (with_inflight
        (inflight s1 ++
           [{| flightPromise := x; flightRequest := req;
               flightElements := sessElements sess;
               flightOptions := optionsCopy |}])
        s1)).

(** [appendEvaluateModule(name)] *)
Definition appendEvaluateModule (sess : Session) (name : string) (s : State)
  : State :=
  let normalizedName := normalizeModuleName E name (sessReferrerName sess) in
  let tree := EvaluateModule normalizedName in
  with_arrays
    (<[sessElements sess :=
         default [] (arrays s !! sessElements sess) ++ [tree]]> (arrays s))
    (nextArray s) s.

(** [loadInput(input)] *)
Definition loadInput (sess : Session) (input : Entry) (s : State)
  : Completion * State :=
  let name := name input in
  let '(optionsCopy, s1) := newOptions (sessOptions sess) s in
  let '(loadFunction, doEvaluateModule) :=
    if bool_decide (type input = "script") then (LoadAsScript, false)
    else if bool_decide
              (optionsValue (Some optionsCopy) s1 ≫= modules
               = Some "register")
         then (Import, true)
         else (Import, false) in
  let '(x, s2) := callLoader loadFunction name sess optionsCopy s1 in
  let '(y, s3) :=
    then_ x (Some (KAfterLoad sess doEvaluateModule name)) None s2 in
  (ReturnPromise y, s3).

(** [sequencePromises(list, f)], with [f(item)] the closure [k item]. *)
Definition sequencePromises (list : list Entry) (k : Entry → Cont)
    (s : State) : nat * State :=
  foldl (λ '(result, st) item, then_ result (Some (k item)) None st)
        (promiseResolve VUndefined s) list.

(** Modelled from the spec: [loaderCompiler.toTree()]
    (InlineLoaderCompiler is not part of the sources at hand) "returns the
    accumulated elements as a single ordered tree structure". *)
Definition toTree (sess : Session) (s : State) : Value :=
  VTree (default [] (arrays s !! sessElements sess)).

(** [recursiveModuleCompile(fileNamesAndTypes, options)] *)
Definition recursiveModuleCompile (fileNamesAndTypes : list Entry)
    (options : option nat) (s : State) : nat * State :=
  let referrerName := optionsValue options s ≫= referrer in
  let depTarget := optionsValue options s ≫= depTarget in
  let basePath := replaceBackslashes (Path.resolve (cwd s) "./" +:+ "/") in
  let elements := nextArray s in
  let s1 := with_arrays (<[elements := []]> (arrays s)) (S elements) s in
  let sess :=
    {| sessElements := elements; sessOptions := options;
       sessReferrerName := referrerName; sessBasePath := basePath |} in
  let '(p, s2) := sequencePromises fileNamesAndTypes (KCallF sess) s1 in
  then_ p (Some (KToTree sess depTarget)) None s2.

(** [compiler.writeTreeToFile(tree, file)]: the write is logged; what the
    compiler throws, if anything, is the collaborator's choice. *)
Definition writeTreeToFile (compiler : NodeCompiler) (tree : Value)
    (file : string) (s : State) : Completion * State :=
  let s1 := log (EvWriteTree compiler tree file) s in
  match writeFailure E compiler tree file with
  | Some err => (Throw err, s1)
  | None => (Return VUndefined, s1)
  end.

(** [new NodeCompiler(options)] *)
Definition newNodeCompiler (options : option nat) (s : State)
  : NodeCompiler * State :=
  let v := optionsValue options s in
  ({| compilerOptions := v |}, log (EvNewCompiler v) s).

(** The body of each closure, applied to the value or the reason the
    promise it was registered on settled with. *)
Definition invoke (k : Cont) (arg : Value) (s : State) : Completion * State :=
  match k with
  | KCallF sess item => loadInput sess item s
  | KAfterLoad sess doEvaluateModule name =>
      (Return VUndefined,
       if doEvaluateModule then appendEvaluateModule sess name s else s)
  | KToTree sess depTarget =>
      if truthy depTarget then (Return VNull, s)
      else (Return (toTree sess s), s)
  | KWriteSingle compiler resolvedOutputFile =>
      match writeTreeToFile compiler arg resolvedOutputFile s with
      | (Return _, s1) => (Return VUndefined, s1)
      | r => r
      end
  | KWriteEach compiler outputDir input =>
      let outputFileName := pathJoin E outputDir (name input) in
      match writeTreeToFile compiler arg outputFileName s with
      | (Return _, s1) => (Return VUndefined, s1)
      | r => r
      end
  | KRevertCwd => (Return VUndefined, revertCwd s)
  | KRevertThrow => (Throw arg, revertCwd s)
  end.

(** What a call of an exported function gives back. *)
Inductive CallResult :=
| Threw (reason : Value)
| Returned (promise : nat).

(** [includes.map(function(include) { include.name =
    path.resolve(include.name); return include; })]: the step reads the
    working directory and rewrites the names; the state is given back as
    it was. *)
Definition resolveIncludes (includes : list Entry) (s : State)
  : list Entry * State :=
  (map (λ include, set_name (Path.resolve (cwd s) (name include)) include)
       includes,
   s).

(** [recursiveModuleCompileToSingleFile(outputFile, includes, options)];
    the entries are objects of the caller that the function rewrites, so
    they are given back next to the result. *)
Definition recursiveModuleCompileToSingleFile (outputFile : string)
    (includes : list Entry) (options : option nat) (s : State)
  : CallResult * list Entry * State :=
  let resolvedOutputFile := Path.resolve (cwd s) outputFile in
  let outputDir := dirname E resolvedOutputFile in
  let '(resolvedIncludes, s) := resolveIncludes includes s in
  match options, optionsValue options s with
  | Some o, Some v =>
      let s1 :=
        with_objects
          (<[o := set_bundle (bool_decide (1 < length includes)) v]>
             (objects s))
          (nextObject s) s in
      let '(compiler, s2) := newNodeCompiler options s1 in
      let s3 := log (EvMkdir outputDir) s2 in
      let s4 := log (EvChdir outputDir) (with_cwd outputDir s3) in
      let resolvedIncludes' :=
        map (λ include,
               set_name
                 (normalizePath E (relative E (cwd s4) outputDir (name include)))
                 include)
            resolvedIncludes in
      let '(p, s5) := recursiveModuleCompile resolvedIncludes' options s4 in
      let '(q, s6) :=
        then_ p (Some (KWriteSingle compiler resolvedOutputFile)) None s5 in
      let '(r, s7) := then_ q (Some KRevertCwd) (Some KRevertThrow) s6 in
      (Returned r, resolvedIncludes', s7)
  | _, _ =>
      (* options.bundle = ... on undefined *)
      (Threw (VError "TypeError"), resolvedIncludes, s)
  end.

(** [function getPromise (input)] of [forEachRecursiveModuleCompile], with
    the variables it captures. *)
Definition getPromise (compiler : NodeCompiler) (outputDir : string)
    (options : option nat) (input : Entry) (s : State) : nat * State :=
  let '(p, s1) := recursiveModuleCompile [input] options s in
  then_ p (Some (KWriteEach compiler outputDir input)) None s1.

(** [includes.map(getPromise)] *)
Definition mapGetPromise (compiler : NodeCompiler) (outputDir : string)
    (options : option nat) (includes : list Entry) (s : State)
  : list nat * State :=
  foldl (λ '(acc, st) input,
           let '(p, st') := getPromise compiler outputDir options input st in
           (acc ++ [p], st'))
        ([], s) includes.

(** [forEachRecursiveModuleCompile(outputDir, includes, options)] *)
Definition forEachRecursiveModuleCompile (outputDir : string)
    (includes : list Entry) (options : option nat) (s : State)
  : nat * State :=
  let outputDir := Path.resolve (cwd s) outputDir in
  let '(compiler, s1) := newNodeCompiler options s in
  let '(ps, s2) := mapGetPromise compiler outputDir options includes s1 in
  promiseAll ps s2.

(** *** Running the machine *)

(** One reaction job. *)
Definition runJob (j : Reaction * Outcome) (s : State) : State :=
  match j with
  | (RThen onFulfilled _ q, Fulfilled v) =>
      match onFulfilled with
      | Some k => let '(c, s1) := invoke k v s in resolvePromise q c s1
      | None => settle q (Fulfilled v) s
      end
  | (RThen _ onRejected q, Rejected r) =>
      match onRejected with
      | Some k => let '(c, s1) := invoke k r s in resolvePromise q c s1
      | None => settle q (Rejected r) s
      end
  | (RAdopt q, o) => settle q o s
  | (RAll index agg, o) => settledAt index agg o s
  end.

(** Run queued jobs, oldest first, until the queue is empty. *)
Fixpoint drain (fuel : nat) (s : State) : State :=
  match fuel with
  | 0 => s
  | S fuel' =>
      match jobs s with
      | [] => s
      | j :: js => drain fuel' (runJob j (with_jobs js s))
      end
  end.

(** The loader settles the [i]-th load in flight: it has changed the
    options object it was handed and appended its elements by then. *)
Definition complete (i : nat) (s : State) : State :=
  match inflight s !! i with
  | None => s
  | Some fl =>
      let reply := load E (flightRequest fl) in
      let s1 := with_inflight (delete i (inflight s)) s in
      let s2 :=
        with_objects (<[flightOptions fl := replyOptions reply]> (objects s1))
                     (nextObject s1) s1 in
      let s3 :=
        with_arrays
          (<[flightElements fl :=
               default [] (arrays s2 !! flightElements fl)
               ++ replyElements reply]> (arrays s2))
          (nextArray s2) s2 in
      settle (flightPromise fl)
             (match replyOutcome reply with
              | inl v => Fulfilled v
              | inr r => Rejected r
              end)
             (log (EvLoadSettle (flightRequest fl) reply) s3)
  end.

(** The event loop: drain the jobs, then let the loader settle the loads
    in flight one at a time, in the order [schedule] picks them, draining
    after each. *)
Fixpoint run (fuel : nat) (schedule : list nat) (s : State) : State :=
  match schedule with
  | [] => drain fuel s
  | i :: rest =>
      let s1 := drain fuel s in
      run fuel rest (complete (i `mod` length (inflight s1)) s1)
  end.

End Program.

(** ** Executions *)

Section Executions.

Variable E : Externals.

Lemma drain_idle fuel s : jobs s = [] → drain E fuel s = s.
Proof. intros H. destruct fuel as [|fuel]; simpl; [done|]. by rewrite H. Qed.

Lemma drain_job fuel s j js :
  jobs s = j :: js →
  drain E (S fuel) s = drain E fuel (runJob E j (with_jobs js s)).
Proof. intros H. simpl. by rewrite H. Qed.

Lemma drain_more n s s' :
  drain E n s = s' → jobs s' = [] → ∀ m, n ≤ m → drain E m s = s'.
Proof.
  revert s. induction n as [|n IH]; intros s Hd Hq m Hm.
  - simpl in Hd. subst s'. by apply drain_idle.
  - destruct m as [|m]; [lia|]. simpl in *.
    destruct (jobs s) as [|j js] eqn:Hj; [done|].
    apply IH; [done|done|lia].
Qed.

(** [drains s s']: running the queued jobs of [s] ends, in [s']. *)
Definition drains (s s' : State) : Prop :=
  ∃ n, drain E n s = s' ∧ jobs s' = [].

(** [runs schedule s s']: the event loop, started in [s] and following
    [schedule], ends in [s']. *)
Fixpoint runs (schedule : list nat) (s s' : State) : Prop :=
  match schedule with
  | [] => drains s s'
  | i :: rest =>
      ∃ s1, drains s s1 ∧
            runs rest (complete E (i `mod` length (inflight s1)) s1) s'
  end.

Lemma drains_idle s : jobs s = [] → drains s s.
Proof. intros H. by exists 0. Qed.

Lemma drains_job s s' j js :
  jobs s = j :: js → drains (runJob E j (with_jobs js s)) s' → drains s s'.
Proof.
  intros Hj (n & Hd & Hq). exists (S n). split; [|done].
  by rewrite (drain_job _ _ _ _ Hj).
Qed.

Lemma runs_job schedule s s' j js :
  jobs s = j :: js →
  runs schedule (runJob E j (with_jobs js s)) s' → runs schedule s s'.
Proof.
  intros Hj. destruct schedule as [|i rest]; simpl.
  - by apply drains_job.
  - intros (s1 & Hd & Hr). exists s1. split; [|done].
    by eapply drains_job.
Qed.

Lemma runs_complete i rest s s' :
  jobs s = [] →
  runs rest (complete E (i `mod` length (inflight s)) s) s' →
  runs (i :: rest) s s'.
Proof. intros Hj Hr. exists s. split; [by apply drains_idle|done]. Qed.

Lemma runs_quiescent schedule s :
  jobs s = [] → inflight s = [] → runs schedule s s.
Proof.
  intros Hj Hf. induction schedule as [|i rest IH]; simpl.
  - by apply drains_idle.
  - exists s. split; [by apply drains_idle|].
    replace (complete E _ s) with s; [done|].
    unfold complete. by rewrite Hf.
Qed.

(** The relation describes the executable loop: with enough fuel, [run]
    computes the state [runs] relates. *)
Lemma runs_run schedule s s' :
  runs schedule s s' → ∃ n, ∀ fuel, n ≤ fuel → run E fuel schedule s = s'.
Proof.
  revert s. induction schedule as [|i rest IH]; intros s; simpl.
  - intros (n & Hd & Hq). exists n. intros fuel Hf.
    by eapply drain_more.
  - intros (s1 & (n & Hd & Hq) & Hr).
    destruct (IH _ Hr) as (m & Hm).
    exists (n `max` m). intros fuel Hf.
    rewrite (drain_more _ _ _ Hd Hq fuel) by lia.
    apply Hm. lia.
Qed.

Lemma runs_quiescent_end schedule s s' :
  runs schedule s s' → jobs s' = [].
Proof.
  revert s. induction schedule as [|i rest IH]; intros s; simpl.
  - by intros (n & _ & Hq).
  - intros (s1 & _ & Hr). eauto.
Qed.

(** [leads schedule s schedule' s1]: every execution from [s] along
    [schedule] passes through [s1], with [schedule'] left to follow. *)
Definition leads (schedule : list nat) (s : State)
    (schedule' : list nat) (s1 : State) : Prop :=
  ∀ s', runs schedule' s1 s' → runs schedule s s'.

Lemma leads_refl schedule s : leads schedule s schedule s.
Proof. by intros s'. Qed.

Lemma leads_trans sc1 s1 sc2 s2 sc3 s3 :
  leads sc1 s1 sc2 s2 → leads sc2 s2 sc3 s3 → leads sc1 s1 sc3 s3.
Proof. intros H1 H2 s' H. by apply H1, H2. Qed.

Lemma leads_job schedule s j js :
  jobs s = j :: js →
  leads schedule s schedule (runJob E j (with_jobs js s)).
Proof. intros Hj s'. by apply runs_job. Qed.

Lemma leads_complete i rest s :
  jobs s = [] →
  leads (i :: rest) s rest (complete E (i `mod` length (inflight s)) s).
Proof. intros Hj s'. by apply runs_complete. Qed.

End Executions.

(** ** One step at a time *)

Arguments clonedValue : simpl never.

Section Steps.

Variable E : Externals.

Lemma clonedValue_ext options s s' :
  (∀ o, options = Some o → objects s' !! o = objects s !! o) →
  clonedValue E options s' = clonedValue E options s.
Proof.
  intros H. unfold clonedValue. destruct options as [o|]; [|done].
  by rewrite H.
Qed.

(** The state after a pending promise [p], with reactions [rs], settles. *)
Definition settled (p : nat) (o : Outcome) (rs : list Reaction) (s : State)
  : State :=
  log (EvSettle p o)
    (with_jobs (jobs s ++ map (λ r, (r, o)) rs)
       (with_promises
          (<[p := {| outcome := Some o; reactions := [] |}]> (promises s))
          (nextPromise s) s)).

Lemma settle_pending p o rs s :
  promises s !! p = Some {| outcome := None; reactions := rs |} →
  settle p o s = settled p o rs s.
Proof. intros H. unfold settle. by rewrite H. Qed.

(** The request [loadInput] makes for an entry, when the clone of the
    options has value [v]. *)
Definition requestFor (sess : Session) (v : Options) (item : Entry)
  : LoadRequest :=
  {| loadFunction :=
       if bool_decide (type item = "script") then LoadAsScript else Import;
     loadName := name item;
     referrerName := sessReferrerName sess;
     traceurOptions := v;
     loaderBasePath := sessBasePath sess |}.

(** [doEvaluateModule] after the branches of [loadInput]. *)
Definition evaluates (v : Options) (item : Entry) : bool :=
  if bool_decide (type item = "script") then false
  else bool_decide (modules v = Some "register").

(** The state after the job that calls [loadInput]. *)
Definition loading (sess : Session) (v : Options) (item : Entry) (p : nat)
    (s : State) : State :=
  let x := nextPromise s in
  let y := S x in
  let req := requestFor sess v item in
  log (EvLoadStart req)
    (with_inflight
       (inflight s ++
          [{| flightPromise := x; flightRequest := req;
              flightElements := sessElements sess;
              flightOptions := nextObject s |}])
       (with_promises
          (<[y := {| outcome := None; reactions := [RAdopt p] |}]>
             (<[x := {| outcome := None;
                        reactions :=
                          [RThen (Some (KAfterLoad sess (evaluates v item)
                                          (name item))) None y] |}]>
                (promises s)))
          (S y)
          (with_objects (<[nextObject s := v]> (objects s))
                        (S (nextObject s)) s))).

Lemma state_eq (s1 s2 : State) :
  cwd s1 = cwd s2 → moduleCwd s1 = moduleCwd s2 →
  objects s1 = objects s2 → nextObject s1 = nextObject s2 →
  arrays s1 = arrays s2 → nextArray s1 = nextArray s2 →
  promises s1 = promises s2 → nextPromise s1 = nextPromise s2 →
  aggregates s1 = aggregates s2 → jobs s1 = jobs s2 →
  inflight s1 = inflight s2 → trace s1 = trace s2 → s1 = s2.
Proof. destruct s1, s2; simpl; intros; by subst. Qed.

Lemma runJob_load sess item p v0 s :
  runJob E (RThen (Some (KCallF sess item)) None p, Fulfilled v0) s
  = loading sess (clonedValue E (sessOptions sess) s) item p s.
Proof.
  unfold runJob, invoke, loadInput, newOptions, callLoader, then_, newPromise,
    loading, requestFor, evaluates, optionsValue.
  cbn. rewrite !lookup_insert_eq. cbn.
  destruct (bool_decide (type item = "script"));
    [|destruct (bool_decide (modules _ = Some "register"))];
    unfold subscribe; cbn;
    rewrite (lookup_insert_ne _ (S (nextPromise s))) by lia;
    rewrite lookup_insert_eq; cbn;
    unfold subscribe; cbn; rewrite lookup_insert_ne by lia;
    rewrite lookup_insert_eq; cbn;
    apply state_eq; cbn; try done;
    apply map_eq; intros k; rewrite !lookup_insert;
    repeat case_decide; subst; try lia; done.
Qed.

Definition replyToOutcome (reply : LoadReply) : Outcome :=
  match replyOutcome reply with
  | inl v => Fulfilled v
  | inr r => Rejected r
  end.

(** The state after the loader settles the [i]-th load in flight, [fl],
    whose promise has the reactions [rs]. *)
Definition completed (fl : Flight) (i : nat) (rs : list Reaction) (s : State)
  : State :=
  let reply := load E (flightRequest fl) in
  settled (flightPromise fl) (replyToOutcome reply) rs
    (log (EvLoadSettle (flightRequest fl) reply)
       (with_arrays
          (<[flightElements fl :=
               default [] (arrays s !! flightElements fl)
               ++ replyElements reply]> (arrays s))
          (nextArray s)
          (with_objects
             (<[flightOptions fl := replyOptions reply]> (objects s))
             (nextObject s)
             (with_inflight (delete i (inflight s)) s)))).

Lemma complete_flight fl i rs s :
  inflight s !! i = Some fl →
  promises s !! flightPromise fl = Some {| outcome := None; reactions := rs |} →
  complete E i s = completed fl i rs s.
Proof.
  intros Hi Hp. unfold complete, completed. rewrite Hi. cbn.
  by apply settle_pending.
Qed.

Lemma runJob_pass_fulfilled r q v rs s :
  promises s !! q = Some {| outcome := None; reactions := rs |} →
  runJob E (RThen None r q, Fulfilled v) s = settled q (Fulfilled v) rs s.
Proof. intros H. cbn. by apply settle_pending. Qed.

Lemma runJob_pass_rejected f q reason rs s :
  promises s !! q = Some {| outcome := None; reactions := rs |} →
  runJob E (RThen f None q, Rejected reason) s
  = settled q (Rejected reason) rs s.
Proof. intros H. cbn. by apply settle_pending. Qed.

Lemma runJob_adopt q o rs s :
  promises s !! q = Some {| outcome := None; reactions := rs |} →
  runJob E (RAdopt q, o) s = settled q o rs s.
Proof. intros H. cbn. by apply settle_pending. Qed.

(** [appendEvaluateModule] when the array holds [acc]. *)
Lemma runJob_afterLoad sess b name r y v rs s :
  promises s !! y = Some {| outcome := None; reactions := rs |} →
  runJob E (RThen (Some (KAfterLoad sess b name)) r y, Fulfilled v) s
  = settled y (Fulfilled VUndefined) rs
      (if b then appendEvaluateModule E sess name s else s).
Proof.
  intros H. cbn. apply settle_pending. by destruct b.
Qed.

End Steps.

(** ** The loads of one compile *)

Section Loads.
Variable E : Externals.
Variable sess : Session.   (* the compile *)
Variable v : Options.      (* the value every clone of its options gets *)

Definition replyFor (item : Entry) : LoadReply := load E (requestFor sess v item).

(** How the promise [loadInput] returns for the entry settles. *)
Definition loadOutcome (item : Entry) : Outcome :=
  match replyOutcome (replyFor item) with
  | inl _ => Fulfilled VUndefined
  | inr r => Rejected r
  end.

Definition marker (item : Entry) : Element :=
  EvaluateModule (normalizeModuleName E (name item) (sessReferrerName sess)).

(** What the load of the entry appends to [elements]. *)
Definition contribution (item : Entry) : list Element :=
  replyElements (replyFor item) ++
  match replyOutcome (replyFor item) with
  | inl _ => if evaluates v item then [marker item] else []
  | inr _ => []
  end.

(** What the load of the entry logs: [x] is the loader's promise, [S x]
    the one [loadInput] returns, [p] the link of the chain. *)
Definition loadTrace (p x : nat) (item : Entry) : list Event :=
  [EvLoadStart (requestFor sess v item);
   EvLoadSettle (requestFor sess v item) (replyFor item);
   EvSettle x (replyToOutcome (replyFor item));
   EvSettle (S x) (loadOutcome item);
   EvSettle p (loadOutcome item)].

(** From the job that calls [loadInput] to the job of the next link. *)
Lemma load_one item p k r acc s i sched :
  jobs s = [(RThen (Some (KCallF sess item)) None p, Fulfilled VUndefined)] →
  inflight s = [] →
  promises s !! p = Some {| outcome := None; reactions := [RThen k r (S p)] |} →
  p < nextPromise s →
  clonedValue E (sessOptions sess) s = v →
  arrays s !! sessElements sess = Some acc →
  ∃ s3, leads E (i :: sched) s sched s3 ∧
    jobs s3 = [(RThen k r (S p), loadOutcome item)] ∧
    inflight s3 = [] ∧
    (∀ q, q ≠ p → q < nextPromise s → promises s3 !! q = promises s !! q) ∧
    nextPromise s3 = S (S (nextPromise s)) ∧
    (∀ o, o < nextObject s → objects s3 !! o = objects s !! o) ∧
    nextObject s3 = S (nextObject s) ∧
    arrays s3 !! sessElements sess = Some (acc ++ contribution item) ∧
    (∀ a, a ≠ sessElements sess → arrays s3 !! a = arrays s !! a) ∧
    nextArray s3 = nextArray s ∧
    trace s3 = trace s ++ loadTrace p (nextPromise s) item ∧
    cwd s3 = cwd s ∧ moduleCwd s3 = moduleCwd s ∧
    aggregates s3 = aggregates s.
Proof.
  intros Hj Hf Hp Hlt Hv Ha.
  assert (Hstart : leads E (i :: sched) s sched
            (completed E
               {| flightPromise := nextPromise s;
                  flightRequest := requestFor sess v item;
                  flightElements := sessElements sess;
                  flightOptions := nextObject s |} 0
               [RThen (Some (KAfterLoad sess (evaluates v item) (name item)))
                      None (S (nextPromise s))]
               (loading sess v item p (with_jobs [] s)))).
  { eapply leads_trans; [by apply leads_job|]. rewrite runJob_load.
    rewrite (clonedValue_ext E _ s (with_jobs [] s)) by done. rewrite Hv.
    eapply leads_trans; [by apply leads_complete|].
    replace (inflight (loading sess v item p (with_jobs [] s)))
      with ([{| flightPromise := nextPromise s;
                flightRequest := requestFor sess v item;
                flightElements := sessElements sess;
                flightOptions := nextObject s |}])
      by (cbn; by rewrite Hf).
    cbn [length]. rewrite Nat.mod_1_r.
    erewrite complete_flight; [apply leads_refl| |].
    - cbn. by rewrite Hf.
    - cbn. rewrite lookup_insert_ne by lia. by rewrite lookup_insert_eq. }
  unfold loadTrace, contribution, loadOutcome, replyFor.
  destruct (replyOutcome (load E (requestFor sess v item)))
    as [val|reason] eqn:Hr.
  - eexists. split.
    { eapply leads_trans; [exact Hstart|].
      eapply leads_trans; [apply leads_job; cbn; reflexivity|].
      unfold replyToOutcome. rewrite Hr.
      erewrite runJob_afterLoad.
      2:{ cbn. rewrite lookup_insert_ne by lia. by rewrite lookup_insert_eq. }
      eapply leads_trans.
      { apply leads_job. destruct (evaluates v item); cbn; reflexivity. }
      erewrite runJob_adopt; [apply leads_refl|].
      destruct (evaluates v item); cbn;
        repeat (rewrite lookup_insert_ne by lia); exact Hp. }
    unfold replyToOutcome. rewrite Hr.
    destruct (evaluates v item); cbn; rewrite Hf; cbn;
      unfold replyToOutcome; rewrite ?Hr;
      (repeat split; try done;
       try (intros; repeat (rewrite lookup_insert_ne by first [lia|done]);
            done);
       try (repeat rewrite lookup_insert_eq; rewrite Ha; cbn;
            by rewrite <- ?app_assoc, ?app_nil_r);
       try (by rewrite <- !app_assoc)).
  - eexists. split.
    { eapply leads_trans; [exact Hstart|].
      eapply leads_trans; [apply leads_job; cbn; reflexivity|].
      unfold replyToOutcome. rewrite Hr.
      erewrite runJob_pass_rejected.
      2:{ cbn. rewrite lookup_insert_ne by lia. by rewrite lookup_insert_eq. }
      eapply leads_trans; [apply leads_job; cbn; reflexivity|].
      erewrite runJob_adopt; [apply leads_refl|].
      cbn. repeat (rewrite lookup_insert_ne by lia). exact Hp. }
    unfold replyToOutcome. rewrite Hr.
    cbn; rewrite Hf; cbn; unfold replyToOutcome; rewrite ?Hr;
      (repeat split; try done;
       try (intros; repeat (rewrite lookup_insert_ne by first [lia|done]);
            done);
       try (repeat rewrite lookup_insert_eq; rewrite Ha; cbn;
            by rewrite <- ?app_assoc, ?app_nil_r);
       try (by rewrite <- !app_assoc)).
Qed.

(** *** The chain *)

(** [pipeline m p ks]: the promises from [p] on are pending and linked by
    [then]: [p] carries the handlers [ks !! 0] for its child [S p], which
    carries [ks !! 1], and so on; the last one carries nothing yet. *)
Fixpoint pipeline (m : gmap nat Cell) (p : nat)
    (ks : list (option Cont * option Cont)) : Prop :=
  match ks with
  | [] => m !! p = Some {| outcome := None; reactions := [] |}
  | (f, r) :: ks' =>
      m !! p = Some {| outcome := None; reactions := [RThen f r (S p)] |}
      ∧ pipeline m (S p) ks'
  end.

Lemma pipeline_ext m m' p ks :
  (∀ q, p ≤ q ≤ p + length ks → m' !! q = m !! q) →
  pipeline m p ks → pipeline m' p ks.
Proof.
  revert p. induction ks as [|[f r] ks IH]; intros p Hq; simpl.
  - intros H. rewrite Hq; [done|simpl; lia].
  - intros [H1 H2]. split.
    + rewrite Hq; [done|lia].
    + apply IH; [|done]. intros q ?. apply Hq. simpl. lia.
Qed.

(** [waiting s p ks out]: the only queued job delivers [out] to the first
    handlers of [ks], for the promise [p], and the rest of [ks] hangs
    below [p]. *)
Definition waiting (s : State) (p : nat)
    (ks : list (option Cont * option Cont)) (out : Outcome) : Prop :=
  match ks with
  | [] => False
  | (f, r) :: ks' =>
      jobs s = [(RThen f r p, out)] ∧ pipeline (promises s) p ks'
  end.

(** What the loads leave alone. *)
Record preserved (s s' : State) : Prop := {
  pres_cwd : cwd s' = cwd s;
  pres_moduleCwd : moduleCwd s' = moduleCwd s;
  pres_aggregates : aggregates s' = aggregates s;
  pres_nextArray : nextArray s' = nextArray s;
  pres_arrays :
    ∀ a, a ≠ sessElements sess → arrays s' !! a = arrays s !! a;
  pres_objects : ∀ o, o < nextObject s → objects s' !! o = objects s !! o;
  pres_nextObject : nextObject s ≤ nextObject s';
  pres_promises :
    ∀ q, q < nextPromise s →
         is_Some (promises s !! q ≫= outcome) →
         promises s' !! q = promises s !! q;
  pres_nextPromise : nextPromise s ≤ nextPromise s'
}.

Lemma preserved_refl s : preserved s s.
Proof. by split. Qed.

Lemma preserved_trans s1 s2 s3 :
  preserved s1 s2 → preserved s2 s3 → preserved s1 s3.
Proof.
  intros [] []. split; try congruence; try lia.
  - intros a Ha. rewrite pres_arrays1, pres_arrays0; done.
  - intros o Ho. rewrite pres_objects1, pres_objects0; [done|lia..].
  - intros q Hq Hs. rewrite pres_promises1; [by apply pres_promises0|lia|].
    by rewrite pres_promises0.
Qed.

Definition callF (item : Entry) : option Cont * option Cont :=
  (Some (KCallF sess item), None).

(** A rejection runs down the links of the entries that were not loaded:
    none of them has a handler for it. *)
Lemma rejection_passes reason rest : ∀ p tail s sched,
  waiting s p (map callF rest ++ tail) (Rejected reason) →
  tail ≠ [] →
  ∃ s', leads E sched s sched s' ∧
    waiting s' (p + length rest) tail (Rejected reason) ∧
    inflight s' = inflight s ∧
    arrays s' = arrays s ∧ objects s' = objects s ∧
    nextObject s' = nextObject s ∧ nextPromise s' = nextPromise s ∧
    trace s' =
      trace s ++ map (λ q, EvSettle q (Rejected reason)) (seq p (length rest)) ∧
    preserved s s'.
Proof.
  induction rest as [|item rest IH]; intros p tail s sched Hw Ht.
  - exists s. rewrite Nat.add_0_r. simpl in *.
    repeat split; try done; [apply leads_refl|by rewrite app_nil_r].
  - simpl in Hw. destruct Hw as [Hj Hp].
    destruct (map callF rest ++ tail) as [|[k r] ks] eqn:Hks.
    { by destruct rest, tail. }
    simpl in Hp. destruct Hp as [Hp Hpipe].
    destruct (IH (S p) tail
                (settled p (Rejected reason) [RThen k r (S p)] (with_jobs [] s))
                sched) as (s' & Hl & Hw' & Hf & Ha & Ho & Hno & Hnp & Htr & Hpres).
    { rewrite Hks. simpl. split; [done|].
      eapply pipeline_ext; [|exact Hpipe].
      intros q ?. by rewrite lookup_insert_ne by lia. }
    { done. }
    exists s'. split.
    { eapply leads_trans; [by apply leads_job|].
      erewrite runJob_pass_rejected; [exact Hl|done]. }
    replace (p + length (item :: rest)) with (S p + length rest)
      by (simpl; lia).
    repeat split; try done.
    + rewrite Htr. simpl. by rewrite <- app_assoc.
    + by rewrite (pres_cwd _ _ Hpres).
    + by rewrite (pres_moduleCwd _ _ Hpres).
    + by rewrite (pres_aggregates _ _ Hpres).
    + by rewrite (pres_nextArray _ _ Hpres).
    + intros a Hne. by rewrite (pres_arrays _ _ Hpres).
    + intros o Hlt. by rewrite (pres_objects _ _ Hpres).
    + by rewrite Hno.
    + intros q Hq Hs. rewrite (pres_promises _ _ Hpres); simpl.
      * rewrite lookup_insert_ne; [done|]. intros ->.
        rewrite Hp in Hs. simpl in Hs. by destruct Hs.
      * done.
      * rewrite lookup_insert_ne; [done|]. intros ->.
        rewrite Hp in Hs. simpl in Hs. by destruct Hs.
    + by rewrite Hnp.
Qed.

(** *** All the entries *)

(** How the chain of [sequencePromises] ends: fulfilled, or rejected with
    the reason of the first load that fails. *)
Fixpoint loadsOutcome (items : list Entry) : Outcome :=
  match items with
  | [] => Fulfilled VUndefined
  | item :: rest =>
      match loadOutcome item with
      | Fulfilled _ => loadsOutcome rest
      | Rejected reason => Rejected reason
      end
  end.

(** The entries whose load is started. *)
Fixpoint started (items : list Entry) : list Entry :=
  match items with
  | [] => []
  | item :: rest =>
      item :: match loadOutcome item with
              | Fulfilled _ => started rest
              | Rejected _ => []
              end
  end.

(** What the compile appends to [elements]. *)
Definition loadsElements (items : list Entry) : list Element :=
  flat_map contribution (started items).

(** What the compile logs while the chain runs; [p] is the first link and
    [x] the next fresh promise. *)
Fixpoint loadsTrace (p x : nat) (items : list Entry) : list Event :=
  match items with
  | [] => []
  | item :: rest =>
      loadTrace p x item ++
      match loadOutcome item with
      | Fulfilled _ => loadsTrace (S p) (S (S x)) rest
      | Rejected reason =>
          map (λ q, EvSettle q (Rejected reason)) (seq (S p) (length rest))
      end
  end.

Lemma loadOutcome_fulfilled item w :
  loadOutcome item = Fulfilled w → w = VUndefined.
Proof.
  unfold loadOutcome. destruct (replyOutcome _); naive_solver.
Qed.

Lemma loads items : ∀ p tail s acc sched,
  waiting s p (map callF items ++ tail) (Fulfilled VUndefined) →
  tail ≠ [] →
  inflight s = [] →
  p + length items + length tail ≤ nextPromise s →
  clonedValue E (sessOptions sess) s = v →
  (∀ o, sessOptions sess = Some o → o < nextObject s) →
  arrays s !! sessElements sess = Some acc →
  length items ≤ length sched →
  ∃ s' sched', leads E sched s sched' s' ∧
    waiting s' (p + length items) tail (loadsOutcome items) ∧
    inflight s' = [] ∧
    arrays s' !! sessElements sess = Some (acc ++ loadsElements items) ∧
    trace s' = trace s ++ loadsTrace p (nextPromise s) items ∧
    preserved s s'.
Proof.
  induction items as [|item rest IH];
    intros p tail s acc sched Hw Ht Hf Hn Hv Ho Ha Hs.
  - exists s, sched. rewrite Nat.add_0_r. simpl in *.
    rewrite !app_nil_r.
    split_and!; try done; first [apply leads_refl|apply preserved_refl].
  - destruct sched as [|i sched]; [simpl in Hs; lia|].
    simpl in Hw. destruct Hw as [Hj Hp].
    destruct (map callF rest ++ tail) as [|[k r] ks] eqn:Hks.
    { by destruct rest, tail. }
    assert (Hlen : length rest + length tail = S (length ks)).
    { rewrite <- (length_map callF rest), <- length_app, Hks. done. }
    simpl in Hp. destruct Hp as [Hp Hpipe]. simpl in Hn.
    destruct (load_one item p k r acc s i sched)
      as (s3 & Hl & Hj3 & Hf3 & Hp3 & Hnp3 & Ho3 & Hno3 & Ha3 & Hao3 & Hna3
          & Htr3 & Hc3 & Hm3 & Hg3).
    1-6: first [done|lia].
    assert (Hpres3 : preserved s s3).
    { split; try done; rewrite ?Hno3, ?Hnp3; try lia.
      intros q Hq Hsome. apply Hp3; [|done]. intros ->.
      rewrite Hp in Hsome. simpl in Hsome. by destruct Hsome. }
    assert (Hpipe3 : pipeline (promises s3) (S p) ks).
    { eapply pipeline_ext; [|exact Hpipe].
      intros q ?. apply Hp3; lia. }
    replace (p + length (item :: rest)) with (S p + length rest)
      by (simpl; lia).
    simpl. unfold loadsElements. simpl.
    destruct (loadOutcome item) as [w|reason] eqn:Hout.
    + apply loadOutcome_fulfilled in Hout as Hw. subst w.
      destruct (IH (S p) tail s3 (acc ++ contribution item) sched)
        as (s' & sched' & Hl' & Hw' & Hf' & Ha' & Htr' & Hpres');
        try done.
      { rewrite Hks. simpl. by rewrite Hj3. }
      { lia. }
      { rewrite <- Hv. apply clonedValue_ext. intros o Hso.
        apply Ho3. by apply Ho. }
      { intros o Hso. rewrite Hno3. specialize (Ho o Hso). lia. }
      { simpl in Hs. lia. }
      exists s', sched'. split_and!; try done.
      * eapply leads_trans; [exact Hl|exact Hl'].
      * by rewrite Ha', <- app_assoc.
      * rewrite Htr', Htr3, Hnp3, <- app_assoc. unfold loadTrace.
        by rewrite Hout.
      * by eapply preserved_trans.
    + destruct (rejection_passes reason rest (S p) tail s3 sched)
        as (s' & Hl' & Hw' & Hf' & Ha' & Hob' & Hno' & Hnp' & Htr' & Hpres');
        [|done|].
      { rewrite Hks. simpl. by rewrite Hj3. }
      exists s', sched. split_and!; try done.
      * eapply leads_trans; [exact Hl|exact Hl'].
      * congruence.
      * by rewrite Ha', Ha3, app_nil_r.
      * rewrite Htr', Htr3, <- app_assoc. unfold loadTrace.
        by rewrite Hout.
      * by eapply preserved_trans.
Qed.

End Loads.

(** ** Building the chains *)

Section Chains.

(** [p.then(f1, r1).then(f2, r2)...] *)
Definition chainThen (hs : list (option Cont * option Cont))
    (start : nat * State) : nat * State :=
  foldl (λ '(result, st) '(f, r), then_ result f r st) start hs.

Lemma sequencePromises_chain list k s :
  sequencePromises list k s
  = chainThen (map (λ item, (Some (k item), None)) list)
              (promiseResolve VUndefined s).
Proof.
  unfold sequencePromises, chainThen.
  generalize (promiseResolve VUndefined s).
  induction list as [|item list IH]; intros [result st]; simpl; [done|].
  apply IH.
Qed.

Lemma chainThen_app hs1 hs2 start :
  chainThen (hs1 ++ hs2) start = chainThen hs2 (chainThen hs1 start).
Proof. unfold chainThen. by rewrite foldl_app. Qed.

(** Every field but the promises and the jobs. *)
Definition world (s : State) : State :=
  with_promises ∅ 0 (with_jobs [] s).

(** [built s0 s hs]: [s] is [s0] after [Promise.resolve()] and one [then]
    per pair of handlers in [hs]. *)
Definition built (s0 s : State) (hs : list (option Cont * option Cont))
  : Prop :=
  match hs with
  | [] => False
  | (f, r) :: ks =>
      let a := nextPromise s0 in
      jobs s = jobs s0 ++ [(RThen f r (S a), Fulfilled VUndefined)] ∧
      pipeline (promises s) (S a) ks ∧
      nextPromise s = S (S (a + length ks)) ∧
      promises s !! a
        = Some {| outcome := Some (Fulfilled VUndefined); reactions := [] |} ∧
      (∀ q, q < a → promises s !! q = promises s0 !! q) ∧
      world s = world s0
  end.

Lemma pipeline_snoc m p ks f r :
  pipeline m p ks →
  pipeline
    (<[p + length ks :=
         {| outcome := None;
            reactions := [RThen f r (S (p + length ks))] |}]>
       (<[S (p + length ks) := {| outcome := None; reactions := [] |}]> m))
    p (ks ++ [(f, r)]).
Proof.
  revert p. induction ks as [|[f' r'] ks IH]; intros p; simpl.
  - intros _. rewrite Nat.add_0_r. split.
    + by rewrite lookup_insert_eq.
    + rewrite lookup_insert_ne by lia. by rewrite lookup_insert_eq.
  - intros [H1 H2]. split.
    + by rewrite !lookup_insert_ne by lia.
    + replace (p + S (length ks)) with (S p + length ks) by lia.
      by apply IH.
Qed.

Lemma pipeline_last m p ks :
  pipeline m p ks →
  m !! (p + length ks) = Some {| outcome := None; reactions := [] |}.
Proof.
  revert p. induction ks as [|[f r] ks IH]; intros p; simpl.
  - by rewrite Nat.add_0_r.
  - intros [_ H]. replace (p + S (length ks)) with (S p + length ks) by lia.
    by apply IH.
Qed.

Lemma chainThen_built hs : ∀ s0,
  hs ≠ [] →
  ∃ s, chainThen hs (promiseResolve VUndefined s0)
       = (nextPromise s0 + length hs, s) ∧ built s0 s hs.
Proof.
  induction hs as [|[f r] hs IH] using rev_ind; intros s0 Hne; [done|].
  rewrite chainThen_app. destruct hs as [|[f0 r0] ks].
  - clear IH. simpl. unfold then_, newPromise, subscribe. cbn.
    rewrite lookup_insert_ne by lia. rewrite lookup_insert_eq. cbn.
    eexists. split; [by rewrite Nat.add_1_r|].
    cbn. split_and!; try done.
    + by rewrite lookup_insert_eq.
    + rewrite lookup_insert_ne by lia. by rewrite lookup_insert_eq.
    + intros q ?. by rewrite !lookup_insert_ne by lia.
  - destruct (IH s0) as (s & Hc & Hb); [done|]. rewrite Hc. clear IH Hc.
    simpl in Hb. destruct Hb as (Hj & Hp & Hn & Ha & Hq & Hw).
    simpl. unfold then_, newPromise, subscribe. cbn.
    rewrite lookup_insert_ne by lia.
    replace (nextPromise s0 + S (length ks))
      with (S (nextPromise s0) + length ks) by lia.
    rewrite (pipeline_last _ _ _ Hp). cbn.
    eexists. split.
    { f_equal. rewrite Hn, length_app. simpl. lia. }
    cbn. split_and!; try done.
    + rewrite Hn.
      replace (S (S (nextPromise s0 + length ks)))
        with (S (S (nextPromise s0) + length ks)) by lia.
      by apply pipeline_snoc.
    + rewrite Hn, length_app. simpl. lia.
    + rewrite !lookup_insert_ne by lia. done.
    + intros q ?. rewrite !lookup_insert_ne by lia. by apply Hq.
Qed.

End Chains.

(** ** A whole compile *)

Section Compile.

Variable E : Externals.

(** The variables the closures of one call of [recursiveModuleCompile]
    share. *)
Definition sessionOf (options : option nat) (s : State) : Session :=
  {| sessElements := nextArray s;
     sessOptions := options;
     sessReferrerName := optionsValue options s ≫= referrer;
     sessBasePath := replaceBackslashes (Path.resolve (cwd s) "./" +:+ "/") |}.

Definition depTargetOf (options : option nat) (s : State) : option string :=
  optionsValue options s ≫= depTarget.

(** The handlers [recursiveModuleCompile] chains: one call of [loadInput]
    per entry, then the function that returns [null] or the tree. *)
Definition compileHandlers (items : list Entry) (options : option nat)
    (s : State) : list (option Cont * option Cont) :=
  map (callF (sessionOf options s)) items
  ++ [(Some (KToTree (sessionOf options s) (depTargetOf options s)), None)].

(** The state in which the chain is built: [var elements = [];] is done. *)
Definition withElements (s : State) : State :=
  with_arrays (<[nextArray s := []]> (arrays s)) (S (nextArray s)) s.

Lemma recursiveModuleCompile_chain items options s :
  recursiveModuleCompile items options s
  = chainThen (compileHandlers items options s)
              (promiseResolve VUndefined (withElements s)).
Proof.
  unfold recursiveModuleCompile, compileHandlers.
  rewrite chainThen_app, sequencePromises_chain.
  fold (withElements s). unfold callF, sessionOf, depTargetOf.
  by destruct (chainThen _ _) as [p s2].
Qed.

(** From the end of the call to the moment the loads are over and the
    first handler of [tail] is about to run. *)
Lemma chain_runs sess items tail s0 s acc schedule :
  built s0 s (map (callF sess) items ++ tail) →
  tail ≠ [] →
  jobs s0 = [] →
  inflight s0 = [] →
  (∀ o, sessOptions sess = Some o → o < nextObject s0) →
  arrays s0 !! sessElements sess = Some acc →
  length items ≤ length schedule →
  let v := clonedValue E (sessOptions sess) s0 in
  let a := nextPromise s0 in
  ∃ s' schedule', leads E schedule s schedule' s' ∧
    waiting s' (S a + length items) tail (loadsOutcome E sess v items) ∧
    inflight s' = [] ∧
    arrays s' !! sessElements sess
      = Some (acc ++ loadsElements E sess v items) ∧
    trace s' =
      trace s0
      ++ loadsTrace E sess v (S a) (S a + length items + length tail) items ∧
    preserved sess s0 s'.
Proof.
  intros Hb Ht Hj Hf Ho Ha Hs v a.
  destruct (map (callF sess) items ++ tail) as [|[f r] ks] eqn:Hks.
  { by destruct items, tail. }
  simpl in Hb. destruct Hb as (Hjs & Hp & Hn & Hpa & Hq & Hw).
  assert (Hlen : length items + length tail = S (length ks)).
  { rewrite <- (length_map (callF sess) items), <- length_app, Hks. done. }
  assert (Hcwd : cwd s = cwd s0) by (by injection Hw).
  assert (Hmod : moduleCwd s = moduleCwd s0) by (by injection Hw).
  assert (Hobj : objects s = objects s0) by (by injection Hw).
  assert (Hnob : nextObject s = nextObject s0) by (by injection Hw).
  assert (Harr : arrays s = arrays s0) by (by injection Hw).
  assert (Hnar : nextArray s = nextArray s0) by (by injection Hw).
  assert (Hagg : aggregates s = aggregates s0) by (by injection Hw).
  assert (Hinf : inflight s = inflight s0) by (by injection Hw).
  assert (Htra : trace s = trace s0) by (by injection Hw).
  destruct (loads E sess v items (S a) tail s acc schedule)
    as (s' & schedule' & Hl & Hw' & Hf' & Ha' & Htr' & Hpres'); try done.
  - rewrite Hks. simpl. rewrite Hjs, Hj. done.
  - congruence.
  - rewrite Hn. fold a. lia.
  - apply clonedValue_ext. intros o _. by rewrite Hobj.
  - intros o Hso. rewrite Hnob. by apply Ho.
  - by rewrite Harr.
  - exists s', schedule'. split_and!; try done.
    + rewrite Htr', Hn, Htra. do 2 f_equal. fold a. lia.
    + destruct Hpres'. split; try congruence.
      * intros b Hb. rewrite pres_arrays0; [by rewrite Harr|done].
      * intros o Hlt. rewrite pres_objects0; [by rewrite Hobj|lia].
      * intros q Hlt Hsome. rewrite pres_promises0.
        -- apply Hq. done.
        -- lia.
        -- rewrite Hq; done.
      * lia.
Qed.

(** *** After the loads *)

(** What [function() { if (depTarget) return null; else return
    loaderCompiler.toTree(); }] returns when the array holds [elems]. *)
Definition treeResult (dep : option string) (elems : list Element) : Value :=
  if truthy dep then VNull else VTree elems.

(** How the promise of [recursiveModuleCompile] settles. *)
Definition compileOutcome (dep : option string) (elems : list Element)
    (out : Outcome) : Outcome :=
  match out with
  | Fulfilled _ => Fulfilled (treeResult dep elems)
  | Rejected reason => Rejected reason
  end.

Lemma runJob_toTree sess dep r p w rs elems s :
  promises s !! p = Some {| outcome := None; reactions := rs |} →
  arrays s !! sessElements sess = Some elems →
  runJob E (RThen (Some (KToTree sess dep)) r p, Fulfilled w) s
  = settled p (Fulfilled (treeResult dep elems)) rs s.
Proof.
  intros Hp Ha. cbn. unfold treeResult, toTree. rewrite Ha.
  destruct (truthy dep); cbn; by apply settle_pending.
Qed.

(** The call alone: the last handler of the chain runs and the promise
    of the call settles. *)
Lemma compile_tail sess dep p out elems s schedule :
  waiting s p [(Some (KToTree sess dep), None)] out →
  inflight s = [] →
  arrays s !! sessElements sess = Some elems →
  ∃ s', runs E schedule s s' ∧
    jobs s' = [] ∧ inflight s' = [] ∧
    trace s' = trace s ++ [EvSettle p (compileOutcome dep elems out)] ∧
    promises s'
      = <[p := {| outcome := Some (compileOutcome dep elems out);
                  reactions := [] |}]> (promises s) ∧
    cwd s' = cwd s ∧ moduleCwd s' = moduleCwd s ∧
    objects s' = objects s ∧ arrays s' = arrays s.
Proof.
  intros [Hj Hp] Hf Ha. simpl in Hp.
  exists (settled p (compileOutcome dep elems out) [] (with_jobs [] s)).
  split.
  { eapply runs_job; [exact Hj|]. destruct out as [w|reason].
    - erewrite runJob_toTree by done. by apply runs_quiescent.
    - erewrite runJob_pass_rejected by done. by apply runs_quiescent. }
  cbn. by split_and!.
Qed.

(** How [compiler.writeTreeToFile(tree, file)] ends in the handler of the
    single-file path. *)
Definition writeOutcome (compiler : NodeCompiler) (tree : Value)
    (file : string) : Outcome :=
  match writeFailure E compiler tree file with
  | Some err => Rejected err
  | None => Fulfilled VUndefined
  end.

Lemma runJob_writeSingle compiler file r p tree rs s :
  promises s !! p = Some {| outcome := None; reactions := rs |} →
  runJob E (RThen (Some (KWriteSingle compiler file)) r p, Fulfilled tree) s
  = settled p (writeOutcome compiler tree file) rs
      (log (EvWriteTree compiler tree file) s).
Proof.
  intros Hp. cbn. unfold writeTreeToFile, writeOutcome.
  destruct (writeFailure E compiler tree file); cbn; by apply settle_pending.
Qed.

Lemma runJob_writeEach compiler dir input r p tree rs s :
  promises s !! p = Some {| outcome := None; reactions := rs |} →
  runJob E (RThen (Some (KWriteEach compiler dir input)) r p, Fulfilled tree) s
  = settled p (writeOutcome compiler tree (pathJoin E dir (name input))) rs
      (log (EvWriteTree compiler tree (pathJoin E dir (name input))) s).
Proof.
  intros Hp. cbn. unfold writeTreeToFile, writeOutcome.
  destruct (writeFailure E compiler tree _); cbn; by apply settle_pending.
Qed.

Lemma runJob_revert p out rs s :
  promises s !! p = Some {| outcome := None; reactions := rs |} →
  runJob E (RThen (Some KRevertCwd) (Some KRevertThrow) p, out) s
  = settled p
      (match out with
       | Fulfilled _ => Fulfilled VUndefined
       | Rejected reason => Rejected reason
       end) rs (revertCwd s).
Proof. intros Hp. destruct out; cbn; by apply settle_pending. Qed.

(** What the single-file path logs after the loads, and how its promise
    settles: [p] is the promise of [recursiveModuleCompile]. *)
Definition singleFileEnd (dep : option string) (compiler : NodeCompiler)
    (file home : string) (p : nat) (elems : list Element) (out : Outcome)
  : list Event * Outcome :=
  match out with
  | Fulfilled _ =>
      let tree := treeResult dep elems in
      let written := writeOutcome compiler tree file in
      ([EvSettle p (Fulfilled tree);
        EvWriteTree compiler tree file;
        EvSettle (S p) written;
        EvChdir home;
        EvSettle (S (S p)) written],
       written)
  | Rejected reason =>
      ([EvSettle p (Rejected reason);
        EvSettle (S p) (Rejected reason);
        EvChdir home;
        EvSettle (S (S p)) (Rejected reason)],
       Rejected reason)
  end.

Lemma single_tail sess dep compiler file p out elems s schedule :
  waiting s p [(Some (KToTree sess dep), None);
               (Some (KWriteSingle compiler file), None);
               (Some KRevertCwd, Some KRevertThrow)] out →
  inflight s = [] →
  arrays s !! sessElements sess = Some elems →
  let fin := singleFileEnd dep compiler file (moduleCwd s) p elems out in
  ∃ s', runs E schedule s s' ∧
    jobs s' = [] ∧ inflight s' = [] ∧
    trace s' = trace s ++ fin.1 ∧
    promises s' !! S (S p)
      = Some {| outcome := Some fin.2; reactions := [] |} ∧
    cwd s' = moduleCwd s ∧ moduleCwd s' = moduleCwd s ∧
    objects s' = objects s ∧ arrays s' = arrays s.
Proof.
  intros [Hj Hp] Hf Ha. simpl in Hp. destruct Hp as (Hp1 & Hp2 & Hp3).
  destruct out as [w|reason]; simpl.
  - set (tree := treeResult dep elems).
    eexists. split.
    { eapply runs_job; [exact Hj|].
      erewrite runJob_toTree by done.
      eapply runs_job; [cbn; reflexivity|].
      erewrite runJob_writeSingle
        by (cbn; by rewrite lookup_insert_ne by lia).
      eapply runs_job; [cbn; reflexivity|].
      erewrite runJob_revert
        by (cbn; by rewrite !lookup_insert_ne by lia).
      apply runs_quiescent; by cbn. }
    cbn. fold tree. unfold writeOutcome.
    destruct (writeFailure E compiler tree file); split_and!; try done;
      first [by rewrite <- !app_assoc | by rewrite lookup_insert_eq].
  - eexists. split.
    { eapply runs_job; [exact Hj|].
      erewrite runJob_pass_rejected by done.
      eapply runs_job; [cbn; reflexivity|].
      erewrite runJob_pass_rejected
        by (cbn; by rewrite lookup_insert_ne by lia).
      eapply runs_job; [cbn; reflexivity|].
      erewrite runJob_revert
        by (cbn; by rewrite !lookup_insert_ne by lia).
      apply runs_quiescent; by cbn. }
    cbn. split_and!; try done.
    + by rewrite <- !app_assoc.
    + by rewrite lookup_insert_eq.
Qed.

(** *** [recursiveModuleCompile], from the call to the settled promise *)

Lemma compile_run items options s schedule :
  jobs s = [] →
  inflight s = [] →
  (∀ o, options = Some o → o < nextObject s) →
  length items ≤ length schedule →
  let sess := sessionOf options s in
  let v := clonedValue E options s in
  let a := nextPromise s in
  let n := length items in
  let elems := loadsElements E sess v items in
  let out :=
    compileOutcome (depTargetOf options s) elems (loadsOutcome E sess v items) in
  ∃ s1 s',
    recursiveModuleCompile items options s = (S a + n, s1) ∧
    runs E schedule s1 s' ∧
    jobs s' = [] ∧ inflight s' = [] ∧
    trace s' =
      trace s ++ loadsTrace E sess v (S a) (S (S a) + n) items
      ++ [EvSettle (S a + n) out] ∧
    promises s' !! (S a + n)
      = Some {| outcome := Some out; reactions := [] |} ∧
    arrays s' !! nextArray s = Some elems ∧
    cwd s' = cwd s ∧ moduleCwd s' = moduleCwd s ∧
    (∀ o, o < nextObject s → objects s' !! o = objects s !! o).
Proof.
  intros Hj Hf Ho Hs sess v a n elems out.
  destruct (chainThen_built (compileHandlers items options s) (withElements s))
    as (s1 & Hc & Hb).
  { unfold compileHandlers. by destruct items. }
  rewrite <- recursiveModuleCompile_chain in Hc.
  unfold compileHandlers in Hb, Hc. fold sess in Hb.
  destruct (chain_runs sess items _ _ s1 [] schedule Hb)
    as (s2 & schedule2 & Hl & Hw & Hf2 & Ha2 & Htr2 & Hpres); try done.
  { cbn. by rewrite lookup_insert_eq. }
  destruct (compile_tail sess (depTargetOf options s) _ _ _ _ schedule2 Hw Hf2 Ha2)
    as (s' & Hr & Hj' & Hf' & Htr' & Hp' & Hc' & Hm' & Ho' & Ha').
  assert (Hv : clonedValue E (sessOptions sess) (withElements s) = v).
  { by apply clonedValue_ext. }
  rewrite Hv in *. cbn in Htr2, Htr', Hp', Ha2. fold a n in Htr2, Htr', Hp'.
  exists s1, s'. split_and!; try done.
  - rewrite Hc. cbn. rewrite length_app, length_map. cbn.
    f_equal. fold a n. lia.
  - by apply Hl.
  - rewrite Htr', Htr2, <- app_assoc.
    replace (S (a + n + 1)) with (S (S (a + n))) by lia. done.
  - rewrite Hp'. by rewrite lookup_insert_eq.
  - by rewrite Ha'.
  - rewrite Hc'. apply (pres_cwd _ _ _ Hpres).
  - rewrite Hm'. apply (pres_moduleCwd _ _ _ Hpres).
  - intros o Hlt. rewrite Ho'. by apply (pres_objects _ _ _ Hpres).
Qed.

(** *** [recursiveModuleCompileToSingleFile], from the call to the settled
    promise *)

(** The entries as the function leaves them: resolved against the working
    directory of the call, then made relative to the output directory. *)
Definition rewrittenIncludes (dir : string) (includes : list Entry) (s : State)
  : list Entry :=
  map (λ include,
         set_name (normalizePath E (relative E dir dir (name include))) include)
      (resolveIncludes includes s).1.

(** The state in which the function calls [recursiveModuleCompile]. *)
Definition prepared (dir : string) (o : nat) (v : Options) (s : State)
  : State :=
  log (EvChdir dir)
    (with_cwd dir
       (log (EvMkdir dir)
          (log (EvNewCompiler (Some v))
             (with_objects (<[o := v]> (objects s)) (nextObject s) s)))).

Definition singleFileHandlers (items : list Entry) (o : nat) (v : Options)
    (file : string) (s4 : State) : list (option Cont * option Cont) :=
  map (callF (sessionOf (Some o) s4)) items
  ++ [(Some (KToTree (sessionOf (Some o) s4) (depTarget v)), None);
      (Some (KWriteSingle {| compilerOptions := Some v |} file), None);
      (Some KRevertCwd, Some KRevertThrow)].

Lemma singleFile_chain outputFile includes o v0 s :
  objects s !! o = Some v0 →
  let file := Path.resolve (cwd s) outputFile in
  let dir := dirname E file in
  let v := set_bundle (bool_decide (1 < length includes)) v0 in
  let items := rewrittenIncludes dir includes s in
  let s4 := prepared dir o v s in
  recursiveModuleCompileToSingleFile E outputFile includes (Some o) s
  = (Returned
       (chainThen (singleFileHandlers items o v file s4)
                  (promiseResolve VUndefined (withElements s4))).1,
     items,
     (chainThen (singleFileHandlers items o v file s4)
                (promiseResolve VUndefined (withElements s4))).2).
Proof.
  intros Ho file dir v items s4.
  assert (Hhs : singleFileHandlers items o v file s4
                = compileHandlers items (Some o) s4 ++
                  [(Some (KWriteSingle {| compilerOptions := Some v |} file),
                    None);
                   (Some KRevertCwd, Some KRevertThrow)]).
  { unfold singleFileHandlers, compileHandlers. rewrite <- app_assoc. simpl.
    do 4 f_equal. unfold depTargetOf. cbn. by rewrite lookup_insert_eq. }
  rewrite Hhs, chainThen_app.
  remember (chainThen (compileHandlers items (Some o) s4)
              (promiseResolve VUndefined (withElements s4))) as c eqn:Hc.
  unfold recursiveModuleCompileToSingleFile. cbn. rewrite Ho.
  unfold newNodeCompiler. cbn. rewrite lookup_insert_eq.
  rewrite recursiveModuleCompile_chain.
  change (chainThen (compileHandlers _ _ _) _) with
    (chainThen (compileHandlers items (Some o) s4)
       (promiseResolve VUndefined (withElements s4))).
  rewrite <- Hc. by destruct c as [p s5].
Qed.

Lemma singleFile_run outputFile includes o v0 s schedule :
  objects s !! o = Some v0 →
  o < nextObject s →
  jobs s = [] →
  inflight s = [] →
  length includes ≤ length schedule →
  let file := Path.resolve (cwd s) outputFile in
  let dir := dirname E file in
  let v := set_bundle (bool_decide (1 < length includes)) v0 in
  let items := rewrittenIncludes dir includes s in
  let sess := sessionOf (Some o) (prepared dir o v s) in
  let a := nextPromise s in
  let n := length includes in
  let compiler := {| compilerOptions := Some v |} in
  let elems := loadsElements E sess v items in
  let fin :=
    singleFileEnd (depTarget v) compiler file (moduleCwd s) (S a + n) elems
                  (loadsOutcome E sess v items) in
  ∃ s7 s',
    recursiveModuleCompileToSingleFile E outputFile includes (Some o) s
      = (Returned (S (S (S a)) + n), items, s7) ∧
    runs E schedule s7 s' ∧
    jobs s' = [] ∧ inflight s' = [] ∧
    trace s' =
      trace s ++ [EvNewCompiler (Some v); EvMkdir dir; EvChdir dir]
      ++ loadsTrace E sess v (S a) (S (S (S (S a))) + n) items ++ fin.1 ∧
    promises s' !! (S (S (S a)) + n)
      = Some {| outcome := Some fin.2; reactions := [] |} ∧
    cwd s' = moduleCwd s ∧ moduleCwd s' = moduleCwd s ∧
    objects s' !! o = Some v ∧
    (∀ o', o' < nextObject s → o' ≠ o → objects s' !! o' = objects s !! o') ∧
    arrays s' !! nextArray s = Some elems.
Proof.
  intros Hobj Hlt Hj Hf Hs file dir v items sess a n compiler elems fin.
  pose proof (singleFile_chain outputFile includes o v0 s Hobj) as Heq.
  cbv zeta in Heq. fold file dir v items in Heq.
  set (s4 := prepared dir o v s) in *.
  destruct (chainThen_built (singleFileHandlers items o v file s4)
              (withElements s4)) as (s7 & Hc & Hb).
  { unfold singleFileHandlers. by destruct items. }
  rewrite Hc in Heq. cbn [fst snd] in Heq.
  unfold singleFileHandlers in Hb, Hc. fold sess compiler in Hb.
  assert (Hn : length items = n).
  { unfold items, rewrittenIncludes, resolveIncludes. cbn.
    by rewrite !length_map. }
  clearbody items.
  destruct (chain_runs sess items _ _ s7 [] schedule Hb)
    as (s2 & schedule2 & Hl & Hw & Hf2 & Ha2 & Htr2 & Hpres); try done.
  { intros ? [= <-]. done. }
  { cbn. by rewrite lookup_insert_eq. }
  { by rewrite Hn. }
  assert (Hv : clonedValue E (sessOptions sess) (withElements s4) = v).
  { unfold clonedValue. cbn. by rewrite lookup_insert_eq. }
  rewrite Hv in *.
  destruct (single_tail sess (depTarget v) compiler file _ _ _ _ schedule2
              Hw Hf2 Ha2)
    as (s' & Hr & Hj' & Hf' & Htr' & Hp' & Hc' & Hm' & Ho' & Ha').
  rewrite (pres_moduleCwd _ _ _ Hpres) in Htr', Hp', Hc', Hm'.
  cbn in Htr2, Htr', Hp', Ha2, Hc', Hm'. rewrite Hn in *.
  fold a in Htr2, Htr', Hp'. fold elems in Ha2, Htr', Hp'.
  exists s7, s'. split_and!; try done.
  - rewrite Heq. do 2 f_equal. unfold singleFileHandlers.
    rewrite length_app, length_map, Hn. cbn. fold a. f_equal. lia.
  - by apply Hl.
  - rewrite Htr', Htr2. rewrite <- !app_assoc. cbn.
    replace (S (a + n + 3)) with (S (S (S (S (a + n))))) by lia.
    done.
  - rewrite Ho'. rewrite (pres_objects _ _ _ Hpres) by done.
    cbn. by rewrite lookup_insert_eq.
  - intros o' Hlt' Hne. rewrite Ho'.
    rewrite (pres_objects _ _ _ Hpres) by done.
    cbn. by rewrite lookup_insert_ne.
  - by rewrite Ha'.
Qed.

End Compile.

(** ** Reading the log *)

(** The option sets given to [new NodeCompiler], oldest first. *)
Definition compilersBuilt (t : list Event) : list (option Options) :=
  omap (λ e, match e with EvNewCompiler v => Some v | _ => None end) t.

(** The requests the loader received, oldest first. *)
Definition loadRequests (t : list Event) : list LoadRequest :=
  omap (λ e, match e with EvLoadStart req => Some req | _ => None end) t.

(** The calls and the settlements of the loader, oldest first. *)
Definition isLoadEvent (e : Event) : bool :=
  match e with
  | EvLoadStart _ | EvLoadSettle _ _ => true
  | _ => false
  end.

Definition loadEvents (t : list Event) : list Event :=
  filter (λ e, isLoadEvent e = true) t.

(** The trees handed to [writeTreeToFile], with the file, oldest first. *)
Definition writesAttempted (t : list Event) : list (Value * string) :=
  omap (λ e, match e with
             | EvWriteTree _ tree file => Some (tree, file)
             | _ => None
             end) t.

(** The promises that settled, oldest first. *)
Definition settledPromises (t : list Event) : list nat :=
  omap (λ e, match e with EvSettle p _ => Some p | _ => None end) t.

Section Log.

Variable E : Externals.
Variable sess : Session.
Variable v : Options.

Lemma omap_none {A B} (f : A → option B) (l : list A) :
  Forall (λ x, f x = None) l → omap f l = [].
Proof.
  induction 1 as [|x l Hx _ IH]; [done|].
  change (omap f (x :: l)) with
    (match f x with Some y => y :: omap f l | None => omap f l end).
  by rewrite Hx.
Qed.

Lemma loadsTrace_requests p x items :
  loadRequests (loadsTrace E sess v p x items)
  = map (requestFor sess v) (started E sess v items).
Proof.
  revert p x. induction items as [|item rest IH]; intros p x; [done|].
  simpl. unfold loadRequests in *. simpl. f_equal.
  destruct (loadOutcome E sess v item); [apply IH|].
  simpl. apply omap_none. by apply Forall_map, Forall_true.
Qed.

Lemma loadsTrace_loadEvents p x items :
  loadEvents (loadsTrace E sess v p x items)
  = flat_map (λ item, [EvLoadStart (requestFor sess v item);
                       EvLoadSettle (requestFor sess v item)
                                    (replyFor E sess v item)])
             (started E sess v items).
Proof.
  revert p x. induction items as [|item rest IH]; intros p x; [done|].
  simpl. unfold loadEvents in *.
  rewrite !filter_cons_True by done. do 2 f_equal.
  rewrite !filter_cons_False by done.
  destruct (loadOutcome E sess v item); [apply IH|].
  simpl. induction (seq (S p) (length rest)) as [|q l IHl]; [done|].
  simpl. by rewrite filter_cons_False by done.
Qed.

Lemma loadsTrace_no_compiler p x items :
  compilersBuilt (loadsTrace E sess v p x items) = [].
Proof.
  revert p x. induction items as [|item rest IH]; intros p x; [done|].
  simpl. unfold compilersBuilt in *. simpl.
  destruct (loadOutcome E sess v item); [apply IH|].
  apply omap_none. by apply Forall_map, Forall_true.
Qed.

Lemma loadsTrace_no_write p x items :
  writesAttempted (loadsTrace E sess v p x items) = [].
Proof.
  revert p x. induction items as [|item rest IH]; intros p x; [done|].
  simpl. unfold writesAttempted in *. simpl.
  destruct (loadOutcome E sess v item); [apply IH|].
  apply omap_none. by apply Forall_map, Forall_true.
Qed.

Lemma settledPromises_map o (l : list nat) :
  settledPromises (map (λ q, EvSettle q o) l) = l.
Proof. induction l as [|q l IH]; [done|]. cbn. by f_equal. Qed.

(** The promises that settle while the chain runs are links of the chain
    or promises made by [loadInput]. *)
Lemma loadsTrace_settled p x items q :
  q ∈ settledPromises (loadsTrace E sess v p x items) →
  p ≤ q < p + length items ∨ x ≤ q < x + 2 * length items.
Proof.
  revert p x. induction items as [|item rest IH]; intros p x.
  - simpl. by intros ?%elem_of_nil.
  - simpl. unfold settledPromises at 1. simpl.
    fold (settledPromises
            (match loadOutcome E sess v item with
             | Fulfilled _ => loadsTrace E sess v (S p) (S (S x)) rest
             | Rejected reason =>
                 map (λ q, EvSettle q (Rejected reason))
                     (seq (S p) (length rest))
             end)).
    rewrite !elem_of_cons. intros [->|[->|[->|Hq]]]; [lia..|].
    destruct (loadOutcome E sess v item).
    + destruct (IH _ _ Hq); lia.
    + left. rewrite settledPromises_map in Hq.
      apply elem_of_seq in Hq. lia.
Qed.

Lemma started_prefix items : started E sess v items `prefix_of` items.
Proof.
  induction items as [|item rest IH]; simpl; [done|].
  apply prefix_cons. destruct (loadOutcome E sess v item); [done|].
  apply prefix_nil.
Qed.

(** When the first load to fail is that of the entry at position [i]. *)
Definition firstFailure (items : list Entry) (i : nat) (reason : Value)
  : Prop :=
  (∃ item, items !! i = Some item ∧
           replyOutcome (replyFor E sess v item) = inr reason) ∧
  ∀ j item, j < i → items !! j = Some item →
            ∃ w, replyOutcome (replyFor E sess v item) = inl w.

Lemma firstFailure_outcome items i reason :
  firstFailure items i reason →
  loadsOutcome E sess v items = Rejected reason ∧
  started E sess v items = take (S i) items.
Proof.
  revert i. induction items as [|item rest IH]; intros i [(it & Hi & Hr) Hb].
  - by rewrite lookup_nil in Hi.
  - destruct i as [|i]; simpl in *.
    + injection Hi as ->.
      assert (Hout : loadOutcome E sess v it = Rejected reason).
      { unfold loadOutcome. by rewrite Hr. }
      rewrite Hout. by rewrite take_0.
    + destruct (Hb 0 item) as [w Hw]; [lia|done|].
      assert (Hout : loadOutcome E sess v item = Fulfilled VUndefined).
      { unfold loadOutcome. by rewrite Hw. }
      rewrite Hout.
      destruct (IH i) as [H1 H2].
      { split; [by exists it|]. intros j it' Hj Hl.
        apply (Hb (S j) it'); [lia|done]. }
      by rewrite H1, H2.
Qed.

Lemma all_loaded items :
  Forall (λ item, ∃ w, replyOutcome (replyFor E sess v item) = inl w) items →
  loadsOutcome E sess v items = Fulfilled VUndefined ∧
  started E sess v items = items.
Proof.
  induction 1 as [|item rest [w Hw] _ [IH1 IH2]]; simpl; [done|].
  assert (Hout : loadOutcome E sess v item = Fulfilled VUndefined).
  { unfold loadOutcome. by rewrite Hw. }
  rewrite Hout. by rewrite IH1, IH2.
Qed.

End Log.

(** ** Resolving names *)

(** No character of the string is a slash. *)
Fixpoint noSlash (s : string) : bool :=
  match s with
  | EmptyString => true
  | String c rest => negb (Path.is_slash c) && noSlash rest
  end.

(** A part of a path that [normalizeArray] keeps as it is. *)
Definition plain (part : string) : Prop :=
  Path.nonempty part = true ∧ Path.is_dot part = false ∧
  Path.is_dotdot part = false ∧ noSlash part = true.

(** A path as [path.resolve] writes it: a slash, then plain parts with one
    slash between two of them. *)
Definition resolvedPath (p : string) : Prop :=
  ∃ parts, p = String Path.slash (Path.join parts) ∧ Forall plain parts.

Lemma split_not_nil s : Path.split s ≠ [].
Proof.
  destruct s as [|c s]; simpl; [done|].
  destruct (Path.is_slash c); [done|]. by destruct (Path.split s).
Qed.

Lemma split_noSlash s : Forall (λ part, noSlash part = true) (Path.split s).
Proof.
  induction s as [|c s IH]; simpl.
  - by repeat constructor.
  - destruct (Path.is_slash c) eqn:Hc.
    + by constructor.
    + destruct (Path.split s) as [|seg segs].
      { constructor; [simpl; by rewrite Hc|constructor]. }
      inversion IH; subst. constructor; [|done]. simpl. by rewrite Hc.
Qed.

Lemma split_plain_part part :
  noSlash part = true → Path.split part = [part].
Proof.
  induction part as [|c part IH]; simpl; [done|].
  intros [Hc Hp]%andb_prop. apply negb_true_iff in Hc. rewrite Hc.
  by rewrite (IH Hp).
Qed.

Lemma split_part_slash part rest :
  noSlash part = true →
  Path.split (part +:+ String Path.slash rest) = part :: Path.split rest.
Proof.
  induction part as [|c part IH]; simpl; [done|].
  intros [Hc Hp]%andb_prop. apply negb_true_iff in Hc. rewrite Hc.
  by rewrite (IH Hp).
Qed.

Lemma split_snoc_slash s :
  Path.split (s +:+ "/") = Path.split s ++ [EmptyString].
Proof.
  induction s as [|c s IH]; simpl; [done|].
  destruct (Path.is_slash c); [by rewrite IH|].
  rewrite IH. pose proof (split_not_nil s).
  by destruct (Path.split s).
Qed.

Lemma split_join parts :
  Forall (λ part, noSlash part = true) parts → parts ≠ [] →
  Path.split (Path.join parts) = parts.
Proof.
  induction 1 as [|part parts Hp Hps IH]; [done|]. intros _.
  destruct parts as [|part' parts].
  - simpl. by apply split_plain_part.
  - change (Path.join (part :: part' :: parts))
      with (part +:+ String Path.slash (Path.join (part' :: parts))).
    rewrite split_part_slash by done. by rewrite IH.
Qed.

Lemma normalizeLoop_plain parts :
  Forall plain parts → Path.normalizeLoop parts = (parts, 0).
Proof.
  induction 1 as [|part parts (_ & Hd & Hdd & _) _ IH]; simpl; [done|].
  by rewrite IH, Hd, Hdd.
Qed.

Lemma normalizeLoop_kept parts :
  Forall (λ part, Path.nonempty part = true ∧ noSlash part = true) parts →
  Forall plain (Path.normalizeLoop parts).1.
Proof.
  induction 1 as [|part parts [Hn Hs] _ IH]; simpl; [done|].
  destruct (Path.normalizeLoop parts) as [kept up]. simpl in IH.
  destruct (Path.is_dot part) eqn:Hd; [done|].
  destruct (Path.is_dotdot part) eqn:Hdd; [done|].
  destruct up; [|done]. simpl. by constructor.
Qed.

Lemma filter_plain parts :
  Forall plain parts →
  filter (λ q, Path.nonempty q = true) parts = parts.
Proof.
  induction 1 as [|part parts [Hn _] _ IH]; [done|].
  by rewrite filter_cons_True, IH.
Qed.

(** An already resolved path resolves to itself, whatever the working
    directory. *)
Lemma resolve_resolvedPath cwd p :
  resolvedPath p → Path.resolve cwd p = p.
Proof.
  intros (parts & -> & Hparts). unfold Path.resolve.
  change (Path.nonempty (String Path.slash (Path.join parts))) with true.
  change (Path.isAbsolute (String Path.slash (Path.join parts))) with true.
  cbv iota beta.
  assert (Hsplit :
    filter (λ q, Path.nonempty q = true)
           (Path.split (String Path.slash (Path.join parts) +:+ "/" +:+ ""))
    = parts).
  { change (String Path.slash (Path.join parts) +:+ "/" +:+ "")
      with (String Path.slash (Path.join parts +:+ "/")).
    change (Path.split (String Path.slash (Path.join parts +:+ "/")))
      with (EmptyString :: Path.split (Path.join parts +:+ "/")).
    rewrite filter_cons_False by done.
    rewrite split_snoc_slash, filter_app.
    rewrite filter_cons_False, filter_nil, app_nil_r by done.
    destruct parts as [|part parts]; [done|].
    rewrite split_join; [by apply filter_plain| |done].
    eapply Forall_impl; [exact Hparts|]. by intros ? (_ & _ & _ & ?). }
  rewrite Hsplit. unfold Path.normalizeArray.
  rewrite normalizeLoop_plain by done. done.
Qed.

(** From an absolute working directory, [path.resolve] gives a resolved
    path. *)
Lemma resolve_gives_resolvedPath cwd p :
  Path.isAbsolute cwd = true → resolvedPath (Path.resolve cwd p).
Proof.
  intros Hcwd. unfold Path.resolve.
  assert (Hne : Path.nonempty cwd = true) by (by destruct cwd).
  set (first := if Path.nonempty p then (p +:+ "/" +:+ "", Path.isAbsolute p)
                else ("", false)).
  assert (∃ rp,
    (let '(rp0, ra0) := first in
     if ra0 then (rp0, ra0)
     else if Path.nonempty cwd then (cwd +:+ "/" +:+ rp0, Path.isAbsolute cwd)
          else (rp0, ra0)) = (rp, true)) as [rp ->].
  { destruct first as [rp0 [|]]; [by eexists|].
    rewrite Hne, Hcwd. by eexists. }
  cbv iota beta. unfold Path.normalizeArray.
  pose proof (normalizeLoop_kept
                (filter (λ q, Path.nonempty q = true) (Path.split rp))) as Hk.
  destruct (Path.normalizeLoop _) as [kept up]. simpl in *.
  exists kept. split; [done|]. apply Hk.
  apply Forall_forall. intros part [Hn Hin]%list_elem_of_filter.
  split; [done|].
  by apply (proj1 (Forall_forall _ _) (split_noSlash rp)).
Qed.

(** ** Examples: concrete collaborators *)

(** [path.dirname] of a resolved path. *)
Definition exampleDirname (p : string) : string :=
  String Path.slash
    (Path.join
       (removelast (filter (λ q, Path.nonempty q = true) (Path.split p)))).

(** [path.relative(from, to)] when [to] lies under [from]. *)
Definition exampleRelative (cwd from to : string) : string :=
  if String.prefix (from +:+ "/") to
  then String.substring (String.length from + 1)
                        (String.length to - (String.length from + 1)) to
  else to.

(** A loader that compiles one element per entry, clears [bundle] in the
    options object it is handed, and cannot find [lost.js] and [gone.js]. *)
Definition exampleLoad (req : LoadRequest) : LoadReply :=
  {| replyOptions := set_bundle false (traceurOptions req);
     replyElements := [Compiled (loadName req)];
     replyOutcome :=
       if bool_decide (loadName req = "lost.js")
       then inr (VError "lost.js: not found")
       else if bool_decide (loadName req = "gone.js")
            then inr (VError "gone.js: not found")
            else inl VUndefined |}.

Definition exampleOptions : Options :=
  {| bundle := None; depTarget := None; referrer := None;
     modules := Some "register"; passThrough := [] |}.

Definition exampleExternals : Externals :=
  {| dirname := exampleDirname;
     relative := exampleRelative;
     pathJoin := λ a b, a +:+ "/" +:+ b;
     normalizePath := replaceBackslashes;
     normalizeModuleName := λ n _, n;
     defaultOptions := exampleOptions;
     load := exampleLoad;
     writeFailure := λ _ _ _, None |}.

(** A process in the directory [now] whose module was loaded in [home],
    with one options object, at reference 0. *)
Definition exampleState (now home : string) (o : Options) : State :=
  {| cwd := now; moduleCwd := home; objects := {[0 := o]}; nextObject := 1;
     arrays := ∅; nextArray := 0; promises := ∅; nextPromise := 0;
     aggregates := ∅; jobs := []; inflight := []; trace := [] |}.

Definition exampleIncludes : list Entry :=
  [{| name := "x.js"; type := "module" |};
   {| name := "y.js"; type := "script" |}].

(** ** The single-file path *)

Section SingleFile.

Variable E : Externals.

Lemma built_world s0 s hs :
  built s0 s hs →
  cwd s = cwd s0 ∧ moduleCwd s = moduleCwd s0 ∧ objects s = objects s0 ∧
  arrays s = arrays s0 ∧ inflight s = inflight s0 ∧ trace s = trace s0.
Proof.
  destruct hs as [|[f r] ks]; [done|]. intros (_ & _ & _ & _ & _ & Hw).
  by injection Hw.
Qed.

(** The end of the call: the chain is built, nothing has run yet. *)
Lemma singleFile_called outputFile includes o v0 s :
  objects s !! o = Some v0 →
  let dir := dirname E (Path.resolve (cwd s) outputFile) in
  let v := set_bundle (bool_decide (1 < length includes)) v0 in
  ∃ r s7,
    recursiveModuleCompileToSingleFile E outputFile includes (Some o) s
      = (Returned r, rewrittenIncludes E dir includes s, s7) ∧
    cwd s7 = dir ∧ moduleCwd s7 = moduleCwd s ∧
    objects s7 = <[o := v]> (objects s) ∧
    trace s7 = trace s ++ [EvNewCompiler (Some v); EvMkdir dir; EvChdir dir].
Proof.
  intros Ho dir v.
  rewrite (singleFile_chain E outputFile includes o v0 s Ho).
  destruct (chainThen_built
              (singleFileHandlers (rewrittenIncludes E dir includes s) o v
                 (Path.resolve (cwd s) outputFile) (prepared dir o v s))
              (withElements (prepared dir o v s))) as (s7 & Hc & Hb).
  { unfold singleFileHandlers. by destruct (rewrittenIncludes _ _ _ _). }
  fold dir v. rewrite Hc. eexists _, s7. split; [done|].
  apply built_world in Hb as (Hcwd & Hm & Hobj & _ & _ & Htr).
  rewrite Hcwd, Hm, Hobj, Htr. cbn. by rewrite <- !app_assoc.
Qed.

(** C8. In the single-file strategy the option set handed to the compiler
    has [bundle] true if and only if more than one entry is supplied, and
    false when exactly one entry is supplied. *)
Theorem bundle_flag_derivation outputFile includes o v0 s :
  objects s !! o = Some v0 →
  let s7 := (recursiveModuleCompileToSingleFile E outputFile includes
               (Some o) s).2 in
  ∃ v, compilersBuilt (trace s7) = compilersBuilt (trace s) ++ [Some v] ∧
       (bundle v = Some true ↔ 1 < length includes) ∧
       (length includes = 1 → bundle v = Some false).
Proof.
  intros Ho s7.
  destruct (singleFile_called outputFile includes o v0 s Ho)
    as (r & s7' & Heq & _ & _ & _ & Htr).
  subst s7. rewrite Heq. cbn [snd].
  exists (set_bundle (bool_decide (1 < length includes)) v0).
  split_and!.
  - rewrite Htr. unfold compilersBuilt. by rewrite omap_app.
  - cbn. split.
    + intros [= H]. by apply bool_decide_eq_true in H.
    + intros H. by rewrite bool_decide_eq_true_2.
  - intros H. cbn. rewrite bool_decide_eq_false_2; [done|lia].
Qed.

End SingleFile.

Lemma bundle_flag_derivation_witness :
  objects (exampleState "/w" "/w" exampleOptions) !! 0 = Some exampleOptions ∧
  let s7 := (recursiveModuleCompileToSingleFile exampleExternals
               "out/bundle.js" exampleIncludes (Some 0)
               (exampleState "/w" "/w" exampleOptions)).2 in
  ∃ v, compilersBuilt (trace s7)
       = compilersBuilt (trace (exampleState "/w" "/w" exampleOptions))
         ++ [Some v] ∧
       (bundle v = Some true ↔ 1 < length exampleIncludes) ∧
       (length exampleIncludes = 1 → bundle v = Some false).
Proof.
  split; [reflexivity|].
  apply (bundle_flag_derivation exampleExternals "out/bundle.js"
           exampleIncludes 0 exampleOptions
           (exampleState "/w" "/w" exampleOptions)).
  reflexivity.
Defined.

Section SingleFileRuns.

Variable E : Externals.

Lemma singleFileEnd_shape dep compiler file home p elems out :
  ∃ pre,
    (singleFileEnd E dep compiler file home p elems out).1
    = pre ++ [EvChdir home;
              EvSettle (S (S p))
                (singleFileEnd E dep compiler file home p elems out).2] ∧
    settledPromises pre = [p; S p] ∧
    loadRequests pre = [] ∧
    writesAttempted pre
    = match out with
      | Fulfilled _ => [(treeResult dep elems, file)]
      | Rejected _ => []
      end ∧
    (EvSettle p (compileOutcome dep elems out)) ∈ pre.
Proof.
  destruct out as [w|reason]; cbn.
  - exists [EvSettle p (Fulfilled (treeResult dep elems));
            EvWriteTree compiler (treeResult dep elems) file;
            EvSettle (S p) (writeOutcome E compiler (treeResult dep elems) file)].
    split_and!; try done. apply elem_of_cons. by left.
  - exists [EvSettle p (Rejected reason); EvSettle (S p) (Rejected reason)].
    split_and!; try done. apply elem_of_cons. by left.
Qed.

(** The whole of a single-file compile, as the claims below read it: what
    the call returns, where the run ends, and the log split into the part
    before the working directory is restored and the two last events. *)
Lemma singleFile_summary outputFile includes o v0 s schedule :
  objects s !! o = Some v0 →
  o < nextObject s →
  jobs s = [] →
  inflight s = [] →
  length includes ≤ length schedule →
  let file := Path.resolve (cwd s) outputFile in
  let dir := dirname E file in
  let v := set_bundle (bool_decide (1 < length includes)) v0 in
  let items := rewrittenIncludes E dir includes s in
  let sess := sessionOf (Some o) (prepared dir o v s) in
  let r := S (S (S (nextPromise s))) + length includes in
  let p := S (nextPromise s) + length includes in
  let out := loadsOutcome E sess v items in
  let elems := loadsElements E sess v items in
  ∃ s7 s' t fin,
    recursiveModuleCompileToSingleFile E outputFile includes (Some o) s
      = (Returned r, items, s7) ∧
    runs E schedule s7 s' ∧
    jobs s' = [] ∧ inflight s' = [] ∧
    promises s' !! r = Some {| outcome := Some fin; reactions := [] |} ∧
    trace s' = trace s ++ t ++ [EvChdir (moduleCwd s); EvSettle r fin] ∧
    (r ∉ settledPromises t) ∧
    loadRequests t = map (requestFor sess v) (started E sess v items) ∧
    writesAttempted t
    = match out with
      | Fulfilled _ => [(treeResult (depTarget v) elems, file)]
      | Rejected _ => []
      end ∧
    EvSettle p (compileOutcome (depTarget v) elems out) ∈ t ∧
    cwd s' = moduleCwd s ∧ moduleCwd s' = moduleCwd s ∧
    objects s' !! o = Some v.
Proof.
  intros Ho Hlt Hj Hf Hs file dir v items sess r p out elems.
  destruct (singleFile_run E outputFile includes o v0 s schedule)
    as (s7 & s' & Heq & Hr & Hj' & Hf' & Htr & Hp & Hc & Hm & Hov & _ & _);
    try done.
  fold file dir v items sess out elems in Htr, Hp. fold r in Heq, Hp.
  set (a := nextPromise s) in *. set (n := length includes) in *.
  fold p in Htr, Hp.
  destruct (singleFileEnd_shape (depTarget v) {| compilerOptions := Some v |}
              file (moduleCwd s) p elems out)
    as (pre & Hfin & Hset & Hreq & Hwr & Hin).
  set (fin := singleFileEnd E (depTarget v) {| compilerOptions := Some v |}
                file (moduleCwd s) p elems out) in *.
  exists s7, s',
    ([EvNewCompiler (Some v); EvMkdir dir; EvChdir dir]
     ++ loadsTrace E sess v (S a) (S (S (S (S a))) + n) items ++ pre), fin.2.
  split_and!; try done.
  - rewrite Htr, Hfin. by rewrite <- !app_assoc.
  - unfold settledPromises. rewrite !omap_app.
    fold (settledPromises pre). rewrite Hset.
    fold (settledPromises (loadsTrace E sess v (S a) (S (S (S (S a))) + n) items)).
    rewrite !elem_of_app. intros [Hin'|[Hin'|Hin']].
    + cbn in Hin'. by apply elem_of_nil in Hin'.
    + apply loadsTrace_settled in Hin'.
      assert (length items = n) as Hn.
      { unfold items, rewrittenIncludes, resolveIncludes. cbn.
        by rewrite !length_map. }
      unfold r in Hin'. lia.
    + apply elem_of_cons in Hin' as [Hin'|Hin'%list_elem_of_singleton];
        unfold r, p in *; lia.
  - unfold loadRequests. rewrite !omap_app. fold (loadRequests pre).
    rewrite Hreq, app_nil_r. cbn [omap app].
    apply loadsTrace_requests.
  - unfold writesAttempted. rewrite !omap_app. fold (writesAttempted pre).
    rewrite Hwr. cbn [omap app].
    fold (writesAttempted
            (loadsTrace E sess v (S a) (S (S (S (S a))) + n) items)).
    by rewrite loadsTrace_no_write.
  - rewrite !elem_of_app. right. by right.
Qed.

End SingleFileRuns.

(** [ends E schedule s s']: the event loop, started in [s] and following
    [schedule], stops in [s'] once it has fuel enough, with no job queued
    and no load in flight. *)
Definition ends (E : Externals) (schedule : list nat) (s s' : State) : Prop :=
  (∃ n, ∀ fuel, n ≤ fuel → run E fuel schedule s = s') ∧
  jobs s' = [] ∧ inflight s' = [].

Lemma runs_ends E schedule s s' :
  runs E schedule s s' → inflight s' = [] → ends E schedule s s'.
Proof.
  intros Hr Hf. split_and!; [by apply runs_run| |done].
  by eapply runs_quiescent_end.
Qed.

Definition exampleStart : State := exampleState "/w" "/w" exampleOptions.

Section SingleFileClaims.

Variable E : Externals.

(** C1, as amended. For every call of the single-file compile made when no
    job is queued and no load is in flight, the returned promise settles,
    fulfilled or rejected, and the working directory is then the one the
    module captured when it was loaded ([var cwd = process.cwd()]); it is
    the directory of the caller whenever that one is still the captured
    one. The directory is restored before the returned promise settles:
    the [chdir] back is logged immediately before the settlement, which is
    the only one of that promise. *)
Theorem working_directory_restored outputFile includes o v0 s schedule :
  objects s !! o = Some v0 →
  o < nextObject s →
  jobs s = [] →
  inflight s = [] →
  length includes ≤ length schedule →
  ∃ r items s7 s' out t,
    recursiveModuleCompileToSingleFile E outputFile includes (Some o) s
      = (Returned r, items, s7) ∧
    ends E schedule s7 s' ∧
    promises s' !! r = Some {| outcome := Some out; reactions := [] |} ∧
    trace s' = trace s ++ t ++ [EvChdir (moduleCwd s); EvSettle r out] ∧
    (r ∉ settledPromises t) ∧
    cwd s' = moduleCwd s ∧
    (cwd s = moduleCwd s → cwd s' = cwd s).
Proof.
  intros Ho Hlt Hj Hf Hs.
  destruct (singleFile_summary E outputFile includes o v0 s schedule)
    as (s7 & s' & t & fin & Heq & Hr & Hj' & Hf' & Hp & Htr & Hnot & _ & _ & _
        & Hc & _ & _); try done.
  eexists _, _, s7, s', fin, t. split_and!; try done.
  - by apply runs_ends.
  - intros Heq'. by rewrite Hc.
Qed.

(** C4, as amended. When [depTarget] is set, the promise of
    [recursiveModuleCompile] is fulfilled with [null] whatever the number
    of entries, unless a load rejects, in which case it is rejected with
    the reason of that load. The single-file path does not look at the
    result: when it is [null], [writeTreeToFile] is called once, with
    [null] and the resolved output file; when a load rejects, no write is
    attempted. *)
Theorem dependency_target_result outputFile includes o v0 s schedule :
  objects s !! o = Some v0 →
  o < nextObject s →
  jobs s = [] →
  inflight s = [] →
  length includes ≤ length schedule →
  truthy (depTarget v0) = true →
  let file := Path.resolve (cwd s) outputFile in
  let dir := dirname E file in
  let v := set_bundle (bool_decide (1 < length includes)) v0 in
  let items := rewrittenIncludes E dir includes s in
  let s4 := prepared dir o v s in
  let sess := sessionOf (Some o) s4 in
  let p := (recursiveModuleCompile items (Some o) s4).1 in
  ∃ r s7 s' t,
    recursiveModuleCompileToSingleFile E outputFile includes (Some o) s
      = (Returned r, items, s7) ∧
    ends E schedule s7 s' ∧
    trace s' = trace s ++ t ∧
    match loadsOutcome E sess v items with
    | Fulfilled _ =>
        EvSettle p (Fulfilled VNull) ∈ t ∧ writesAttempted t = [(VNull, file)]
    | Rejected reason =>
        EvSettle p (Rejected reason) ∈ t ∧ writesAttempted t = []
    end.
Proof.
  intros Ho Hlt Hj Hf Hs Hdep file dir v items s4 sess p.
  destruct (singleFile_summary E outputFile includes o v0 s schedule)
    as (s7 & s' & t & fin & Heq & Hr & Hj' & Hf' & Hp & Htr & Hnot & _ & Hwr
        & Hin & _ & _ & _); try done.
  fold file dir v items s4 sess in Heq, Hwr, Hin.
  assert (Hpid : p = S (nextPromise s) + length includes).
  { unfold p. rewrite recursiveModuleCompile_chain.
    destruct (chainThen_built (compileHandlers items (Some o) s4)
                (withElements s4)) as (s5 & -> & _).
    { unfold compileHandlers. by destruct items. }
    cbn. unfold compileHandlers. rewrite length_app, length_map. cbn.
    unfold items, rewrittenIncludes, resolveIncludes. cbn.
    rewrite !length_map. lia. }
  rewrite <- Hpid in Hin.
  assert (Htree : ∀ elems, treeResult (depTarget v) elems = VNull).
  { intros elems. unfold treeResult. cbn. by rewrite Hdep. }
  eexists _, s7, s',
    (t ++ [EvChdir (moduleCwd s); EvSettle _ fin]).
  split_and!; try done.
  - by apply runs_ends.
  - unfold writesAttempted. rewrite omap_app.
    fold (writesAttempted t). rewrite Hwr. clear Hwr. cbn [omap app].
    rewrite app_nil_r.
    destruct (loadsOutcome E sess v items) as [w|reason]; cbn in Hin.
    + rewrite Htree in *. split; [|done]. apply elem_of_app. by left.
    + split; [|done]. apply elem_of_app. by left.
Qed.

(** C10. Every call of the single-file compile writes [bundle] into the
    options object of the caller itself: when the call returns, the object
    behind the reference the caller passed holds the flag; the compiler
    was constructed from the object after the assignment; and every clone
    of the options that a load hands to the loader carries the flag. *)
Theorem options_mutated_in_place outputFile includes o v0 s schedule :
  objects s !! o = Some v0 →
  o < nextObject s →
  jobs s = [] →
  inflight s = [] →
  length includes ≤ length schedule →
  let b := bool_decide (1 < length includes) in
  ∃ r items s7 s' t,
    recursiveModuleCompileToSingleFile E outputFile includes (Some o) s
      = (Returned r, items, s7) ∧
    objects s7 !! o = Some (set_bundle b v0) ∧
    compilersBuilt (trace s7)
    = compilersBuilt (trace s) ++ [Some (set_bundle b v0)] ∧
    ends E schedule s7 s' ∧
    objects s' !! o = Some (set_bundle b v0) ∧
    trace s' = trace s ++ t ∧
    length (loadRequests t) ≤ length includes ∧
    Forall (λ req, traceurOptions req = set_bundle b v0 ∧
                   bundle (traceurOptions req) = Some b)
           (loadRequests t).
Proof.
  intros Ho Hlt Hj Hf Hs b.
  destruct (singleFile_summary E outputFile includes o v0 s schedule)
    as (s7 & s' & t & fin & Heq & Hr & Hj' & Hf' & Hp & Htr & Hnot & Hreq & _
        & _ & _ & _ & Hobj); try done.
  destruct (singleFile_called E outputFile includes o v0 s Ho)
    as (r' & s7' & Heq' & _ & _ & Hobj7 & Htr7).
  rewrite Heq in Heq'. injection Heq' as <- <-.
  eexists _, _, s7, s', (t ++ [EvChdir (moduleCwd s); EvSettle _ fin]).
  split_and!; try done.
  - rewrite Hobj7. by rewrite lookup_insert_eq.
  - rewrite Htr7. unfold compilersBuilt. by rewrite omap_app.
  - by apply runs_ends.
  - unfold loadRequests. rewrite omap_app. fold (loadRequests t).
    rewrite Hreq. cbn [omap]. rewrite app_nil_r, length_map.
    etrans; [apply prefix_length, started_prefix|].
    unfold rewrittenIncludes, resolveIncludes. cbn. by rewrite !length_map.
  - unfold loadRequests. rewrite omap_app. fold (loadRequests t).
    rewrite Hreq. cbn [omap]. rewrite app_nil_r.
    apply Forall_map, Forall_true. by intros item.
Qed.

End SingleFileClaims.

Lemma working_directory_restored_witness :
  (objects exampleStart !! 0 = Some exampleOptions ∧
   0 < nextObject exampleStart ∧
   jobs exampleStart = [] ∧ inflight exampleStart = [] ∧
   length exampleIncludes ≤ length [0; 0]) ∧
  ∃ r items s7 s' out t,
    recursiveModuleCompileToSingleFile exampleExternals "out/bundle.js"
      exampleIncludes (Some 0) exampleStart
      = (Returned r, items, s7) ∧
    ends exampleExternals [0; 0] s7 s' ∧
    promises s' !! r = Some {| outcome := Some out; reactions := [] |} ∧
    trace s' =
      trace exampleStart ++ t
      ++ [EvChdir (moduleCwd exampleStart); EvSettle r out] ∧
    (r ∉ settledPromises t) ∧
    cwd s' = moduleCwd exampleStart ∧
    (cwd exampleStart = moduleCwd exampleStart → cwd s' = cwd exampleStart).
Proof.
  split.
  - split_and!; [reflexivity|simpl; lia|reflexivity|reflexivity|simpl; lia].
  - apply (working_directory_restored exampleExternals "out/bundle.js"
             exampleIncludes 0 exampleOptions exampleStart [0; 0]);
      [reflexivity|simpl; lia|reflexivity|reflexivity|simpl; lia].
Defined.

(** C1 as stated fails when the working directory changed between the
    loading of the module and the call: a process that loaded the module in
    [/home] and calls from [/work] is left in [/home]. *)
Lemma working_directory_not_the_callers :
  let s := exampleState "/work" "/home" exampleOptions in
  let call :=
    recursiveModuleCompileToSingleFile exampleExternals "out/bundle.js"
      exampleIncludes (Some 0) s in
  let s' := run exampleExternals 16 [0; 0] call.2 in
  call.1.1 = Returned 5 ∧
  jobs s' = [] ∧ inflight s' = [] ∧
  promises s' !! 5
    = Some {| outcome := Some (Fulfilled VUndefined); reactions := [] |} ∧
  cwd s = "/work" ∧ cwd s' = "/home" ∧ cwd s' ≠ cwd s.
Proof. vm_compute. by split_and!. Qed.

Definition exampleDepOptions : Options :=
  {| bundle := None; depTarget := Some "deps.mk"; referrer := None;
     modules := Some "register"; passThrough := [] |}.

Lemma dependency_target_result_witness :
  (objects (exampleState "/w" "/w" exampleDepOptions) !! 0
     = Some exampleDepOptions ∧
   0 < nextObject (exampleState "/w" "/w" exampleDepOptions) ∧
   jobs (exampleState "/w" "/w" exampleDepOptions) = [] ∧
   inflight (exampleState "/w" "/w" exampleDepOptions) = [] ∧
   length exampleIncludes ≤ length [0; 0] ∧
   truthy (depTarget exampleDepOptions) = true) ∧
  let s := exampleState "/w" "/w" exampleDepOptions in
  let file := Path.resolve (cwd s) "out/bundle.js" in
  let dir := dirname exampleExternals file in
  let v := set_bundle (bool_decide (1 < length exampleIncludes))
             exampleDepOptions in
  let items := rewrittenIncludes exampleExternals dir exampleIncludes s in
  let s4 := prepared dir 0 v s in
  let sess := sessionOf (Some 0) s4 in
  let p := (recursiveModuleCompile items (Some 0) s4).1 in
  ∃ r s7 s' t,
    recursiveModuleCompileToSingleFile exampleExternals "out/bundle.js"
      exampleIncludes (Some 0) s
      = (Returned r, items, s7) ∧
    ends exampleExternals [0; 0] s7 s' ∧
    trace s' = trace s ++ t ∧
    match loadsOutcome exampleExternals sess v items with
    | Fulfilled _ =>
        EvSettle p (Fulfilled VNull) ∈ t ∧ writesAttempted t = [(VNull, file)]
    | Rejected reason =>
        EvSettle p (Rejected reason) ∈ t ∧ writesAttempted t = []
    end.
Proof.
  split.
  - split_and!;
      [reflexivity|simpl; lia|reflexivity|reflexivity|simpl; lia|reflexivity].
  - apply (dependency_target_result exampleExternals "out/bundle.js"
             exampleIncludes 0 exampleDepOptions
             (exampleState "/w" "/w" exampleDepOptions) [0; 0]);
      [reflexivity|simpl; lia|reflexivity|reflexivity|simpl; lia|reflexivity].
Defined.

(** C4 as stated fails: with [depTarget] set, the single-file path calls
    [writeTreeToFile], handing it [null]. *)
Lemma dependency_target_still_writes :
  let s := exampleState "/w" "/w" exampleDepOptions in
  let call :=
    recursiveModuleCompileToSingleFile exampleExternals "out/bundle.js"
      [{| name := "x.js"; type := "module" |}] (Some 0) s in
  let s' := run exampleExternals 16 [0] call.2 in
  truthy (depTarget exampleDepOptions) = true ∧
  jobs s' = [] ∧ inflight s' = [] ∧
  writesAttempted (trace s') = [(VNull, "/w/out/bundle.js")] ∧
  writesAttempted (trace s') ≠ [].
Proof. vm_compute. by split_and!. Qed.

Lemma options_mutated_in_place_witness :
  (objects exampleStart !! 0 = Some exampleOptions ∧
   0 < nextObject exampleStart ∧
   jobs exampleStart = [] ∧ inflight exampleStart = [] ∧
   length exampleIncludes ≤ length [0; 0]) ∧
  let b := bool_decide (1 < length exampleIncludes) in
  ∃ r items s7 s' t,
    recursiveModuleCompileToSingleFile exampleExternals "out/bundle.js"
      exampleIncludes (Some 0) exampleStart
      = (Returned r, items, s7) ∧
    objects s7 !! 0 = Some (set_bundle b exampleOptions) ∧
    compilersBuilt (trace s7)
    = compilersBuilt (trace exampleStart)
      ++ [Some (set_bundle b exampleOptions)] ∧
    ends exampleExternals [0; 0] s7 s' ∧
    objects s' !! 0 = Some (set_bundle b exampleOptions) ∧
    trace s' = trace exampleStart ++ t ∧
    length (loadRequests t) ≤ length exampleIncludes ∧
    Forall (λ req, traceurOptions req = set_bundle b exampleOptions ∧
                   bundle (traceurOptions req) = Some b)
           (loadRequests t).
Proof.
  split.
  - split_and!; [reflexivity|simpl; lia|reflexivity|reflexivity|simpl; lia].
  - apply (options_mutated_in_place exampleExternals "out/bundle.js"
             exampleIncludes 0 exampleOptions exampleStart [0; 0]);
      [reflexivity|simpl; lia|reflexivity|reflexivity|simpl; lia].
Defined.

(** ** [recursiveModuleCompile] on its own *)

Section CompileFacts.

Variable E : Externals.
Variable sess : Session.
Variable v : Options.

(** The last link of the chain, which is the promise [sequencePromises]
    returns, settles the way the loads went. *)
Lemma loadsTrace_last_link rest : ∀ item p x,
  EvSettle (p + length rest) (loadsOutcome E sess v (item :: rest))
  ∈ loadsTrace E sess v p x (item :: rest).
Proof.
  induction rest as [|item' rest' IH]; intros item p x.
  - cbn [loadsTrace loadsOutcome length]. rewrite Nat.add_0_r.
    unfold loadTrace.
    destruct (loadOutcome E sess v item) as [w|reason] eqn:Hout.
    + apply loadOutcome_fulfilled in Hout as ->.
      rewrite app_nil_r. rewrite !elem_of_cons. by do 4 right; left.
    + cbn. rewrite !elem_of_cons. by do 4 right; left.
  - change (loadsTrace E sess v p x (item :: item' :: rest'))
      with (loadTrace E sess v p x item ++
            match loadOutcome E sess v item with
            | Fulfilled _ => loadsTrace E sess v (S p) (S (S x)) (item' :: rest')
            | Rejected reason =>
                map (λ q, EvSettle q (Rejected reason))
                    (seq (S p) (length (item' :: rest')))
            end).
    change (loadsOutcome E sess v (item :: item' :: rest'))
      with (match loadOutcome E sess v item with
            | Fulfilled _ => loadsOutcome E sess v (item' :: rest')
            | Rejected reason => Rejected reason
            end).
    apply elem_of_app. right.
    destruct (loadOutcome E sess v item) as [w|reason].
    + replace (p + length (item' :: rest')) with (S p + length rest')
        by (simpl; lia).
      apply IH.
    + apply list_elem_of_fmap. exists (p + length (item' :: rest')).
      split; [done|]. apply elem_of_seq. simpl. lia.
Qed.

(** In a concatenation of contributions, what an earlier entry gave comes
    before what a later entry gave. *)
Lemma flat_map_order {A B} (f : A → list B) (l : list A) i j a b x y :
  i < j → l !! i = Some a → l !! j = Some b → x ∈ f a → y ∈ f b →
  ∃ l1 l2 l3, flat_map f l = l1 ++ x :: l2 ++ y :: l3.
Proof.
  intros Hij Hi Hj Hx Hy.
  apply list_elem_of_split in Hx as (xa & xb & Hfa).
  apply list_elem_of_split in Hy as (ya & yb & Hfb).
  rewrite <- (take_drop_middle l i a Hi).
  assert (Hd : drop (S i) l !! (j - S i) = Some b).
  { rewrite lookup_drop. rewrite <- Hj. f_equal. lia. }
  rewrite <- (take_drop_middle _ _ _ Hd).
  rewrite !flat_map_app. simpl. rewrite !flat_map_app. simpl.
  rewrite Hfa, Hfb.
  exists (flat_map f (take i l) ++ xa),
         (xb ++ flat_map f (take (j - S i) (drop (S i) l)) ++ ya),
         (yb ++ flat_map f (drop (S (j - S i)) (drop (S i) l))).
  by rewrite <- !app_assoc.
Qed.

End CompileFacts.

Section CompileClaims.

Variable E : Externals.

Lemma sequencePromises_result items sess s :
  (sequencePromises items (KCallF sess) s).1 = nextPromise s + length items.
Proof.
  rewrite sequencePromises_chain.
  destruct items as [|item rest]; [cbn; lia|].
  destruct (chainThen_built
              (map (λ item, (Some (KCallF sess item), None)) (item :: rest)) s)
    as (s1 & -> & _); [done|].
  cbn [fst]. by rewrite length_map.
Qed.

(** C2. The loads of the entries are strictly sequenced: in the log of a
    compile, the calls of the loader and the settlements of its promises
    alternate, entry by entry in the order of the list, so that the load
    of an entry starts only after the load of the entry before it has
    settled. When the load of entry [i] is the first to reject, the promise
    [sequencePromises] returns and the promise of the compile are rejected
    with the reason of that load, and no entry after [i] is ever loaded. *)
Theorem loads_strictly_sequenced items options s schedule :
  jobs s = [] →
  inflight s = [] →
  (∀ o, options = Some o → o < nextObject s) →
  length items ≤ length schedule →
  let sess := sessionOf options s in
  let v := clonedValue E options s in
  let chain := (sequencePromises items (KCallF sess) (withElements s)).1 in
  ∃ p s1 s' t,
    recursiveModuleCompile items options s = (p, s1) ∧
    ends E schedule s1 s' ∧
    trace s' = trace s ++ t ∧
    loadEvents t
    = flat_map (λ item, [EvLoadStart (requestFor sess v item);
                         EvLoadSettle (requestFor sess v item)
                                      (replyFor E sess v item)])
               (started E sess v items) ∧
    started E sess v items `prefix_of` items ∧
    ∀ i reason,
      firstFailure E sess v items i reason →
      started E sess v items = take (S i) items ∧
      EvSettle chain (Rejected reason) ∈ t ∧
      promises s' !! p
      = Some {| outcome := Some (Rejected reason); reactions := [] |}.
Proof.
  intros Hj Hf Ho Hs sess v chain.
  destruct (compile_run E items options s schedule Hj Hf Ho Hs)
    as (s1 & s' & Heq & Hr & Hj' & Hf' & Htr & Hp & _).
  fold sess v in Htr, Hp.
  eexists _, s1, s', _. split_and!; [exact Heq|by apply runs_ends|exact Htr|..].
  - unfold loadEvents. rewrite filter_app.
    fold (loadEvents (loadsTrace E sess v (S (nextPromise s))
                        (S (S (nextPromise s)) + length items) items)).
    rewrite loadsTrace_loadEvents. cbn. by rewrite app_nil_r.
  - apply started_prefix.
  - intros i reason Hfail.
    destruct (firstFailure_outcome E sess v items i reason Hfail) as [Hout Hst].
    split_and!; [done| |].
    + apply elem_of_app. left.
      destruct items as [|item rest].
      { destruct Hfail as [(it & Hi & _) _]. by rewrite lookup_nil in Hi. }
      unfold chain. rewrite sequencePromises_result. cbn [nextPromise withElements with_arrays length].
      rewrite <- Hout.
      replace (nextPromise s + S (length rest))
        with (S (nextPromise s) + length rest) by lia.
      apply loadsTrace_last_link.
    + rewrite Hp, Hout. done.
Qed.

(** C3. When every load succeeds and no [depTarget] is set, the promise of
    the compile is fulfilled with the tree of the contributions of the
    entries, concatenated in the order of the list: whatever an entry
    contributed comes before whatever a later entry contributed. The
    contribution of an entry depends on that entry alone. *)
Theorem merged_tree_keeps_entry_order items options s schedule :
  jobs s = [] →
  inflight s = [] →
  (∀ o, options = Some o → o < nextObject s) →
  length items ≤ length schedule →
  let sess := sessionOf options s in
  let v := clonedValue E options s in
  truthy (depTargetOf options s) = false →
  Forall (λ item, ∃ w, replyOutcome (replyFor E sess v item) = inl w) items →
  ∃ p s1 s' tree,
    recursiveModuleCompile items options s = (p, s1) ∧
    ends E schedule s1 s' ∧
    promises s' !! p
    = Some {| outcome := Some (Fulfilled (VTree tree)); reactions := [] |} ∧
    tree = flat_map (contribution E sess v) items ∧
    ∀ i j a b x y,
      i < j → items !! i = Some a → items !! j = Some b →
      x ∈ contribution E sess v a → y ∈ contribution E sess v b →
      ∃ l1 l2 l3, tree = l1 ++ x :: l2 ++ y :: l3.
Proof.
  intros Hj Hf Ho Hs sess v Hdep Hall.
  destruct (compile_run E items options s schedule Hj Hf Ho Hs)
    as (s1 & s' & Heq & Hr & Hj' & Hf' & Htr & Hp & _).
  fold sess v in Hp.
  destruct (all_loaded E sess v items Hall) as [Hout Hst].
  rewrite Hout in Hp. unfold loadsElements in Hp. rewrite Hst in Hp.
  cbn in Hp. unfold treeResult in Hp. rewrite Hdep in Hp.
  eexists _, s1, s', _. split_and!; [exact Heq|by apply runs_ends|exact Hp|done|].
  intros i j a b x y. apply flat_map_order.
Qed.

(** C6. For an entry that is not a script the loader's import is called;
    when [modules] is ['register'] in the options and the import settles
    successfully, the statement evaluating the module, named by the name of
    the entry normalized against [options.referrer], is appended to the
    elements of the compile, after what the import itself appended. For a
    script entry the loader's load-as-script is called and nothing is
    appended besides what the loader appended. *)
Theorem evaluation_marker_after_module_import items options s schedule :
  jobs s = [] →
  inflight s = [] →
  (∀ o, options = Some o → o < nextObject s) →
  length items ≤ length schedule →
  let sess := sessionOf options s in
  let v := clonedValue E options s in
  let referrerName := optionsValue options s ≫= referrer in
  ∃ p s1 s' t,
    recursiveModuleCompile items options s = (p, s1) ∧
    ends E schedule s1 s' ∧
    trace s' = trace s ++ t ∧
    loadRequests t = map (requestFor sess v) (started E sess v items) ∧
    arrays s' !! nextArray s
    = Some (flat_map (contribution E sess v) (started E sess v items)) ∧
    ∀ item,
      loadName (requestFor sess v item) = name item ∧
      (type item = "script" →
       loadFunction (requestFor sess v item) = LoadAsScript ∧
       contribution E sess v item = replyElements (replyFor E sess v item)) ∧
      (type item ≠ "script" →
       loadFunction (requestFor sess v item) = Import ∧
       ∀ w, modules v = Some "register" →
            replyOutcome (replyFor E sess v item) = inl w →
            contribution E sess v item
            = replyElements (replyFor E sess v item)
              ++ [EvaluateModule
                    (normalizeModuleName E (name item) referrerName)]).
Proof.
  intros Hj Hf Ho Hs sess v referrerName.
  destruct (compile_run E items options s schedule Hj Hf Ho Hs)
    as (s1 & s' & Heq & Hr & Hj' & Hf' & Htr & Hp & Ha & _).
  fold sess v in Htr, Ha.
  eexists _, s1, s', _. split_and!; [exact Heq|by apply runs_ends|exact Htr|..].
  - unfold loadRequests. rewrite omap_app. cbn [omap]. rewrite app_nil_r.
    apply loadsTrace_requests.
  - exact Ha.
  - intros item. split_and!; [done| |].
    + intros Hty. split.
      { unfold requestFor. cbn. by rewrite bool_decide_eq_true_2. }
      unfold contribution, evaluates. rewrite bool_decide_eq_true_2 by done.
      destruct (replyOutcome _); by rewrite app_nil_r.
    + intros Hty. split.
      { unfold requestFor. cbn. by rewrite bool_decide_eq_false_2. }
      intros w Hreg Hw. unfold contribution, evaluates. rewrite Hw.
      rewrite bool_decide_eq_false_2 by done.
      by rewrite bool_decide_eq_true_2.
Qed.

End CompileClaims.

(** C5. Each load is handed a clone of the options made at that moment from
    the object of the caller, which no load ever holds: every request the
    loader receives carries the value the options had at the call, whatever
    the loader did to the clones it was handed before, and the object of
    the caller stays as it was. Two runs whose loaders differ only in what
    they do to the options they are handed receive the same requests. *)
Theorem option_isolation (E1 E2 : Externals) items options s schedule :
  jobs s = [] →
  inflight s = [] →
  (∀ o, options = Some o → o < nextObject s) →
  length items ≤ length schedule →
  defaultOptions E1 = defaultOptions E2 →
  (∀ req, replyElements (load E1 req) = replyElements (load E2 req) ∧
          replyOutcome (load E1 req) = replyOutcome (load E2 req)) →
  let v := clonedValue E1 options s in
  ∃ p s1 s1' s2' t1 t2,
    recursiveModuleCompile items options s = (p, s1) ∧
    ends E1 schedule s1 s1' ∧ trace s1' = trace s ++ t1 ∧
    ends E2 schedule s1 s2' ∧ trace s2' = trace s ++ t2 ∧
    Forall (λ req, traceurOptions req = v) (loadRequests t1) ∧
    Forall (λ req, traceurOptions req = v) (loadRequests t2) ∧
    loadRequests t1 = loadRequests t2 ∧
    (∀ o, o < nextObject s → objects s1' !! o = objects s !! o) ∧
    (∀ o, o < nextObject s → objects s2' !! o = objects s !! o).
Proof.
  intros Hj Hf Ho Hs Hdef Hagree v.
  destruct (compile_run E1 items options s schedule Hj Hf Ho Hs)
    as (s1 & s1' & Heq1 & Hr1 & _ & Hf1 & Htr1 & _ & _ & _ & _ & Hob1).
  destruct (compile_run E2 items options s schedule Hj Hf Ho Hs)
    as (s2 & s2' & Heq2 & Hr2 & _ & Hf2 & Htr2 & _ & _ & _ & _ & Hob2).
  rewrite Heq1 in Heq2. injection Heq2 as <-.
  assert (Hv : clonedValue E2 options s = v).
  { unfold v, clonedValue. by rewrite Hdef. }
  rewrite Hv in Htr2. fold v in Htr1.
  set (sess := sessionOf options s) in *.
  assert (Hst : started E1 sess v items = started E2 sess v items).
  { clear -Hagree. induction items as [|item rest IH]; [done|]. simpl.
    assert (loadOutcome E1 sess v item = loadOutcome E2 sess v item) as ->.
    { unfold loadOutcome, replyFor.
      by destruct (Hagree (requestFor sess v item)) as [_ ->]. }
    by rewrite IH. }
  assert (Hreq : ∀ E t x,
    loadRequests (loadsTrace E sess v (S (nextPromise s)) x items ++ t)
    = map (requestFor sess v) (started E sess v items) ++ loadRequests t).
  { intros E t x. unfold loadRequests. rewrite omap_app.
    f_equal. apply loadsTrace_requests. }
  eexists _, s1, s1', s2', _, _.
  split_and!;
    [exact Heq1|by apply runs_ends|exact Htr1|by apply runs_ends|exact Htr2|..].
  - rewrite Hreq. cbn. rewrite app_nil_r. by apply Forall_map, Forall_true.
  - rewrite Hreq. cbn. rewrite app_nil_r. by apply Forall_map, Forall_true.
  - rewrite !Hreq. cbn. by rewrite Hst.
  - exact Hob1.
  - exact Hob2.
Qed.

(** A module, a script the loader cannot find, and a script that is never
    reached. *)
Definition exampleFailing : list Entry :=
  [{| name := "x.js"; type := "module" |};
   {| name := "lost.js"; type := "script" |};
   {| name := "z.js"; type := "script" |}].

(** The loader of the examples, leaving the options it is handed alone. *)
Definition exampleQuietExternals : Externals :=
  {| dirname := exampleDirname;
     relative := exampleRelative;
     pathJoin := λ a b, a +:+ "/" +:+ b;
     normalizePath := replaceBackslashes;
     normalizeModuleName := λ n _, n;
     defaultOptions := exampleOptions;
     load := λ req,
       {| replyOptions := traceurOptions req;
          replyElements := replyElements (exampleLoad req);
          replyOutcome := replyOutcome (exampleLoad req) |};
     writeFailure := λ _ _ _, None |}.

Lemma loads_strictly_sequenced_witness :
  (jobs exampleStart = [] ∧ inflight exampleStart = [] ∧
   (∀ o, Some 0 = Some o → o < nextObject exampleStart) ∧
   length exampleFailing ≤ length [0; 0; 0]) ∧
  let sess := sessionOf (Some 0) exampleStart in
  let v := clonedValue exampleExternals (Some 0) exampleStart in
  let chain :=
    (sequencePromises exampleFailing (KCallF sess)
       (withElements exampleStart)).1 in
  ∃ p s1 s' t,
    recursiveModuleCompile exampleFailing (Some 0) exampleStart = (p, s1) ∧
    ends exampleExternals [0; 0; 0] s1 s' ∧
    trace s' = trace exampleStart ++ t ∧
    loadEvents t
    = flat_map (λ item, [EvLoadStart (requestFor sess v item);
                         EvLoadSettle (requestFor sess v item)
                                      (replyFor exampleExternals sess v item)])
               (started exampleExternals sess v exampleFailing) ∧
    started exampleExternals sess v exampleFailing `prefix_of` exampleFailing ∧
    ∀ i reason,
      firstFailure exampleExternals sess v exampleFailing i reason →
      started exampleExternals sess v exampleFailing
      = take (S i) exampleFailing ∧
      EvSettle chain (Rejected reason) ∈ t ∧
      promises s' !! p
      = Some {| outcome := Some (Rejected reason); reactions := [] |}.
Proof.
  split.
  - split_and!; [reflexivity|reflexivity| |simpl; lia].
    intros o [= <-]. simpl. lia.
  - apply (loads_strictly_sequenced exampleExternals exampleFailing (Some 0)
             exampleStart [0; 0; 0]); [reflexivity|reflexivity| |simpl; lia].
    intros o [= <-]. simpl. lia.
Defined.

Lemma merged_tree_keeps_entry_order_witness :
  (jobs exampleStart = [] ∧ inflight exampleStart = [] ∧
   (∀ o, Some 0 = Some o → o < nextObject exampleStart) ∧
   length exampleIncludes ≤ length [0; 0] ∧
   truthy (depTargetOf (Some 0) exampleStart) = false ∧
   Forall (λ item, ∃ w,
             replyOutcome
               (replyFor exampleExternals (sessionOf (Some 0) exampleStart)
                  (clonedValue exampleExternals (Some 0) exampleStart) item)
             = inl w)
          exampleIncludes) ∧
  let sess := sessionOf (Some 0) exampleStart in
  let v := clonedValue exampleExternals (Some 0) exampleStart in
  ∃ p s1 s' tree,
    recursiveModuleCompile exampleIncludes (Some 0) exampleStart = (p, s1) ∧
    ends exampleExternals [0; 0] s1 s' ∧
    promises s' !! p
    = Some {| outcome := Some (Fulfilled (VTree tree)); reactions := [] |} ∧
    tree = flat_map (contribution exampleExternals sess v) exampleIncludes ∧
    ∀ i j a b x y,
      i < j → exampleIncludes !! i = Some a → exampleIncludes !! j = Some b →
      x ∈ contribution exampleExternals sess v a →
      y ∈ contribution exampleExternals sess v b →
      ∃ l1 l2 l3, tree = l1 ++ x :: l2 ++ y :: l3.
Proof.
  assert (Hall :
    Forall (λ item, ∃ w,
              replyOutcome
                (replyFor exampleExternals (sessionOf (Some 0) exampleStart)
                   (clonedValue exampleExternals (Some 0) exampleStart) item)
              = inl w)
           exampleIncludes).
  { repeat constructor; by exists VUndefined. }
  split.
  - split_and!; [reflexivity|reflexivity| |simpl; lia|reflexivity|exact Hall].
    intros o [= <-]. simpl. lia.
  - apply (merged_tree_keeps_entry_order exampleExternals exampleIncludes
             (Some 0) exampleStart [0; 0]);
      [reflexivity|reflexivity| |simpl; lia|reflexivity|exact Hall].
    intros o [= <-]. simpl. lia.
Defined.

Lemma evaluation_marker_after_module_import_witness :
  (jobs exampleStart = [] ∧ inflight exampleStart = [] ∧
   (∀ o, Some 0 = Some o → o < nextObject exampleStart) ∧
   length exampleIncludes ≤ length [0; 0]) ∧
  let sess := sessionOf (Some 0) exampleStart in
  let v := clonedValue exampleExternals (Some 0) exampleStart in
  let referrerName := optionsValue (Some 0) exampleStart ≫= referrer in
  ∃ p s1 s' t,
    recursiveModuleCompile exampleIncludes (Some 0) exampleStart = (p, s1) ∧
    ends exampleExternals [0; 0] s1 s' ∧
    trace s' = trace exampleStart ++ t ∧
    loadRequests t
    = map (requestFor sess v) (started exampleExternals sess v exampleIncludes) ∧
    arrays s' !! nextArray exampleStart
    = Some (flat_map (contribution exampleExternals sess v)
              (started exampleExternals sess v exampleIncludes)) ∧
    ∀ item,
      loadName (requestFor sess v item) = name item ∧
      (type item = "script" →
       loadFunction (requestFor sess v item) = LoadAsScript ∧
       contribution exampleExternals sess v item
       = replyElements (replyFor exampleExternals sess v item)) ∧
      (type item ≠ "script" →
       loadFunction (requestFor sess v item) = Import ∧
       ∀ w, modules v = Some "register" →
            replyOutcome (replyFor exampleExternals sess v item) = inl w →
            contribution exampleExternals sess v item
            = replyElements (replyFor exampleExternals sess v item)
              ++ [EvaluateModule
                    (normalizeModuleName exampleExternals (name item)
                       referrerName)]).
Proof.
  split.
  - split_and!; [reflexivity|reflexivity| |simpl; lia].
    intros o [= <-]. simpl. lia.
  - apply (evaluation_marker_after_module_import exampleExternals
             exampleIncludes (Some 0) exampleStart [0; 0]);
      [reflexivity|reflexivity| |simpl; lia].
    intros o [= <-]. simpl. lia.
Defined.

Lemma option_isolation_witness :
  (jobs exampleStart = [] ∧ inflight exampleStart = [] ∧
   (∀ o, Some 0 = Some o → o < nextObject exampleStart) ∧
   length exampleIncludes ≤ length [0; 0] ∧
   defaultOptions exampleExternals = defaultOptions exampleQuietExternals ∧
   (∀ req,
      replyElements (load exampleExternals req)
      = replyElements (load exampleQuietExternals req) ∧
      replyOutcome (load exampleExternals req)
      = replyOutcome (load exampleQuietExternals req))) ∧
  let v := clonedValue exampleExternals (Some 0) exampleStart in
  ∃ p s1 s1' s2' t1 t2,
    recursiveModuleCompile exampleIncludes (Some 0) exampleStart = (p, s1) ∧
    ends exampleExternals [0; 0] s1 s1' ∧
    trace s1' = trace exampleStart ++ t1 ∧
    ends exampleQuietExternals [0; 0] s1 s2' ∧
    trace s2' = trace exampleStart ++ t2 ∧
    Forall (λ req, traceurOptions req = v) (loadRequests t1) ∧
    Forall (λ req, traceurOptions req = v) (loadRequests t2) ∧
    loadRequests t1 = loadRequests t2 ∧
    (∀ o, o < nextObject exampleStart →
          objects s1' !! o = objects exampleStart !! o) ∧
    (∀ o, o < nextObject exampleStart →
          objects s2' !! o = objects exampleStart !! o).
Proof.
  split.
  - split_and!; [reflexivity|reflexivity| |simpl; lia|reflexivity|].
    + intros o [= <-]. simpl. lia.
    + intros req. split; reflexivity.
  - apply (option_isolation exampleExternals exampleQuietExternals
             exampleIncludes (Some 0) exampleStart [0; 0]);
      [reflexivity|reflexivity| |simpl; lia|reflexivity|].
    + intros o [= <-]. simpl. lia.
    + intros req. split; reflexivity.
Defined.

(** The loader of the examples changes the options it is handed: the clones
    end up changed, the object of the caller does not. *)
Example option_isolation_example :
  let call := recursiveModuleCompile exampleIncludes (Some 0) exampleStart in
  let s' := run exampleExternals 16 [0; 0] call.2 in
  objects s' !! 0 = Some exampleOptions ∧
  objects s' !! 1 = Some (set_bundle false exampleOptions) ∧
  objects s' !! 2 = Some (set_bundle false exampleOptions) ∧
  map traceurOptions (loadRequests (trace s'))
  = [exampleOptions; exampleOptions].
Proof. vm_compute. by split_and!. Qed.

(** ** The resolution step *)

Lemma resolveIncludes_resolved includes s :
  Forall (λ include, resolvedPath (name include)) includes →
  (resolveIncludes includes s).1 = includes.
Proof.
  unfold resolveIncludes. cbn [fst].
  induction 1 as [|[n ty] rest Hn _ IH]; [done|]. simpl in *.
  rewrite IH. unfold set_name. simpl. by rewrite resolve_resolvedPath.
Qed.

(** C9, as amended. The resolution step leaves the state as it is (it
    reads the working directory and does nothing else), the names it writes
    are in resolved form, and applying it again, in whatever state, to
    entries it has resolved, or to any entries whose names are absolute
    paths in resolved form, changes nothing. *)
Theorem resolution_idempotent includes s :
  Path.isAbsolute (cwd s) = true →
  (resolveIncludes includes s).2 = s ∧
  Forall (λ include, resolvedPath (name include))
         (resolveIncludes includes s).1 ∧
  (∀ s2, (resolveIncludes (resolveIncludes includes s).1 s2).1
         = (resolveIncludes includes s).1) ∧
  (∀ others s2,
     Forall (λ include, resolvedPath (name include)) others →
     (resolveIncludes others s2).1 = others ∧
     (resolveIncludes others s2).2 = s2).
Proof.
  intros Habs.
  assert (Hres : Forall (λ include, resolvedPath (name include))
                        (resolveIncludes includes s).1).
  { unfold resolveIncludes. cbn [fst]. apply Forall_map, Forall_true.
    intros include. cbn. by apply resolve_gives_resolvedPath. }
  split_and!; [done|done| |].
  - intros s2. by apply resolveIncludes_resolved.
  - intros others s2 Ho. split; [by apply resolveIncludes_resolved|done].
Qed.

Lemma resolution_idempotent_witness :
  Path.isAbsolute (cwd exampleStart) = true ∧
  (resolveIncludes exampleIncludes exampleStart).2 = exampleStart ∧
  Forall (λ include, resolvedPath (name include))
         (resolveIncludes exampleIncludes exampleStart).1 ∧
  (∀ s2, (resolveIncludes (resolveIncludes exampleIncludes exampleStart).1 s2).1
         = (resolveIncludes exampleIncludes exampleStart).1) ∧
  (∀ others s2,
     Forall (λ include, resolvedPath (name include)) others →
     (resolveIncludes others s2).1 = others ∧
     (resolveIncludes others s2).2 = s2).
Proof.
  split; [reflexivity|].
  apply (resolution_idempotent exampleIncludes exampleStart). reflexivity.
Defined.

(** C9 as stated fails for an absolute name that is not in resolved form:
    the step rewrites it. *)
Lemma absolute_name_rewritten :
  let include := {| name := "/a/../b.js"; type := "module" |} in
  Path.isAbsolute (name include) = true ∧
  (resolveIncludes [include] exampleStart).1
  = [{| name := "/b.js"; type := "module" |}] ∧
  (resolveIncludes [include] exampleStart).1 ≠ [include].
Proof. vm_compute. by split_and!. Qed.

(** ** The fan-out path *)

Section FanOut.

Variable E : Externals.
Variable compiler : NodeCompiler.
Variable dir : string.            (* the resolved [outputDir] *)
Variable options : option nat.

(** The session of a compile whose [elements] array is [b], in a state
    with the working directory and the options of [s]. *)
Definition sessionAt (s : State) (b : nat) : Session :=
  {| sessElements := b;
     sessOptions := options;
     sessReferrerName := optionsValue options s ≫= referrer;
     sessBasePath := replaceBackslashes (Path.resolve (cwd s) "./" +:+ "/") |}.

(** The handlers on the chain of one entry. *)
Definition fanHandlers (s : State) (b : nat) (input : Entry)
  : list (option Cont * option Cont) :=
  [callF (sessionAt s b) input;
   (Some (KToTree (sessionAt s b) (depTargetOf options s)), None);
   (Some (KWriteEach compiler dir input), None)].

Lemma getPromise_built input s :
  ∃ s', getPromise compiler dir options input s = (nextPromise s + 3, s') ∧
        built (withElements s) s' (fanHandlers s (nextArray s) input).
Proof.
  unfold getPromise. rewrite recursiveModuleCompile_chain.
  destruct (chainThen_built (fanHandlers s (nextArray s) input) (withElements s))
    as (s' & Hc & Hb); [done|].
  exists s'. split; [|done].
  change (fanHandlers s (nextArray s) input)
    with (compileHandlers [input] options s
          ++ [(Some (KWriteEach compiler dir input), None)]) in Hc.
  rewrite chainThen_app in Hc.
  destruct (chainThen (compileHandlers [input] options s) _) as [p s1].
  exact Hc.
Qed.

Lemma sessionAt_ext s1 s b :
  objects s1 = objects s → cwd s1 = cwd s → sessionAt s1 b = sessionAt s b.
Proof.
  intros Ho Hc. unfold sessionAt, optionsValue. by rewrite Ho, Hc.
Qed.

Lemma depTargetOf_ext s1 s :
  objects s1 = objects s → depTargetOf options s1 = depTargetOf options s.
Proof. intros Ho. unfold depTargetOf, optionsValue. by rewrite Ho. Qed.

(** The job that starts the compile of an entry: [b] is its [elements]
    array and [c] the first promise of its chain. *)
Definition startJob (s0 : State) (b c : nat) (input : Entry)
  : Reaction * Outcome :=
  (RThen (Some (KCallF (sessionAt s0 b) input)) None (S c), Fulfilled VUndefined).

(** The chain of an entry as [getPromise] leaves it. *)
Definition chained (s0 : State) (b c : nat) (input : Entry)
    (m : gmap nat Cell) : Prop :=
  m !! (c + 1)
  = Some {| outcome := None;
            reactions :=
              [RThen (Some (KToTree (sessionAt s0 b) (depTargetOf options s0)))
                     None (c + 2)] |} ∧
  m !! (c + 2)
  = Some {| outcome := None;
            reactions :=
              [RThen (Some (KWriteEach compiler dir input)) None (c + 3)] |} ∧
  m !! (c + 3) = Some {| outcome := None; reactions := [] |}.

Lemma mapGetPromise_spec includes : ∀ acc s,
  ∃ s',
    foldl (λ '(acc, st) input,
             let '(p, st') := getPromise compiler dir options input st in
             (acc ++ [p], st'))
          (acc, s) includes
    = (acc ++ map (λ k, nextPromise s + 4 * k + 3) (seq 0 (length includes)),
       s') ∧
    nextPromise s' = nextPromise s + 4 * length includes ∧
    nextArray s' = nextArray s + length includes ∧
    jobs s' =
      jobs s ++ imap (λ k input,
                        startJob s (nextArray s + k) (nextPromise s + 4 * k)
                                 input) includes ∧
    (∀ k input, includes !! k = Some input →
                chained s (nextArray s + k) (nextPromise s + 4 * k) input
                        (promises s')) ∧
    (∀ q, q < nextPromise s → promises s' !! q = promises s !! q) ∧
    (∀ k, k < length includes → arrays s' !! (nextArray s + k) = Some []) ∧
    (∀ b, b < nextArray s → arrays s' !! b = arrays s !! b) ∧
    cwd s' = cwd s ∧ moduleCwd s' = moduleCwd s ∧ objects s' = objects s ∧
    nextObject s' = nextObject s ∧ aggregates s' = aggregates s ∧
    inflight s' = inflight s ∧ trace s' = trace s.
Proof.
  induction includes as [|input rest IH]; intros acc s.
  - exists s. cbn. rewrite ?app_nil_r.
    split_and!; try done; try lia.
  - destruct (getPromise_built input s) as (s1 & Hg & Hb).
    cbn [foldl]. rewrite Hg.
    cbn in Hb. destruct Hb as (Hj1 & (Hc1 & Hc2 & Hc3) & Hn1 & _ & Hq1 & Hw1).
    injection Hw1 as Hcwd1 Hm1 Hob1 Hno1 Har1 Hna1 Hag1 Hin1 Htr1.
    destruct (IH (acc ++ [nextPromise s + 3]) s1)
      as (s' & Hf & Hn & Hna & Hj & Hch & Hq & Ha & Hab & Hcwd & Hm & Hob
          & Hno & Hag & Hin & Htr).
    exists s'. rewrite Hf. rewrite Hn1, Hna1 in *.
    assert (Hsess : ∀ b, sessionAt s1 b = sessionAt s b).
    { intros b. by apply sessionAt_ext. }
    assert (Hdep : depTargetOf options s1 = depTargetOf options s).
    { by apply depTargetOf_ext. }
    split_and!; try congruence.
    + f_equal. rewrite <- app_assoc. f_equal. cbn [length seq map app].
      f_equal; [lia|]. rewrite <- seq_shift, map_map.
      apply map_ext. intros k. lia.
    + cbn [length]. lia.
    + cbn [length]. lia.
    + rewrite Hj, Hj1, <- app_assoc. f_equal. cbn [imap app].
      f_equal.
      * unfold startJob. by rewrite Nat.add_0_r, Nat.mul_0_r, Nat.add_0_r.
      * apply imap_ext. intros k x _. unfold startJob, compose.
        rewrite Hsess.
        replace (S (nextArray s) + k) with (nextArray s + S k) by lia.
        replace (S (S (nextPromise s + 2)) + 4 * k)
          with (nextPromise s + 4 * S k) by lia.
        done.
    + intros [|k] x Hx.
      * injection Hx as <-. unfold chained.
        rewrite Nat.mul_0_r, !Nat.add_0_r.
        rewrite !Hq by lia.
        replace (nextPromise s + 1) with (S (nextPromise s)) by lia.
        replace (nextPromise s + 2) with (S (S (nextPromise s))) by lia.
        replace (nextPromise s + 3) with (S (S (S (nextPromise s)))) by lia.
        done.
      * specialize (Hch k x Hx). unfold chained in *.
        rewrite Hsess, Hdep in Hch.
        replace (nextArray s + S k) with (S (nextArray s) + k) by lia.
        replace (nextPromise s + 4 * S k)
          with (S (S (nextPromise s + 2)) + 4 * k) by lia.
        done.
    + intros q Hlt. rewrite Hq by lia. by apply Hq1.
    + intros [|k] Hk.
      * rewrite Nat.add_0_r, Hab by lia. rewrite Har1. cbn.
        by rewrite lookup_insert_eq.
      * replace (nextArray s + S k) with (S (nextArray s) + k) by lia.
        apply Ha. cbn in Hk. lia.
    + intros b Hb. rewrite Hab by lia. rewrite Har1. cbn.
      by rewrite lookup_insert_ne by lia.
Qed.

(** [Promise.all] over the promises of the entries, none of them settled:
    the aggregate promise subscribes to each. *)
Lemma subscribeAll_spec a agg n : ∀ s,
  (∀ k, k < n →
        promises s !! (a + 4 * k + 3)
        = Some {| outcome := None; reactions := [] |}) →
  let s' :=
    foldl (λ st ip,
             match promises st !! ip.2 with
             | Some {| outcome := Some o |} => settledAt ip.1 agg o st
             | _ => subscribe ip.2 (RAll ip.1 agg) st
             end)
          s (imap (λ i p, (i, p)) (map (λ k, a + 4 * k + 3) (seq 0 n))) in
  (∀ k, k < n →
        promises s' !! (a + 4 * k + 3)
        = Some {| outcome := None; reactions := [RAll k agg] |}) ∧
  (∀ q, (∀ k, k < n → q ≠ a + 4 * k + 3) →
        promises s' !! q = promises s !! q) ∧
  s' = with_promises (promises s') (nextPromise s) s.
Proof.
  induction n as [|n IH]; intros s Hp.
  - cbn. split_and!; [intros; lia|done|by destruct s].
  - rewrite seq_S, map_app, imap_app, foldl_app. cbn [map imap foldl].
    rewrite length_map, length_seq, Nat.add_0_r. cbn [fst snd plus].
    destruct (IH s) as (Hk & Hq & Hw). { intros k ?. apply Hp. lia. }
    set (sn := foldl _ s _) in *. cbv zeta.
    assert (Hn : promises sn !! (a + 4 * n + 3)
                 = Some {| outcome := None; reactions := [] |}).
    { rewrite Hq; [apply Hp; lia|]. intros k ?. lia. }
    rewrite Hn. unfold subscribe. rewrite Hn. cbn.
    split_and!.
    + intros k Hlt. destruct (decide (k = n)) as [->|Hne].
      * by rewrite lookup_insert_eq.
      * rewrite lookup_insert_ne by lia. apply Hk. lia.
    + intros q Hne. rewrite lookup_insert_ne.
      * apply Hq. intros k ?. apply Hne. lia.
      * intros Heq. by apply (Hne n); [lia|].
    + rewrite Hw. reflexivity.
Qed.

Lemma promiseAll_spec a n s :
  0 < n →
  nextPromise s = a + 4 * n →
  (∀ k, k < n →
        promises s !! (a + 4 * k + 3)
        = Some {| outcome := None; reactions := [] |}) →
  ∃ s',
    promiseAll (map (λ k, a + 4 * k + 3) (seq 0 n)) s = (a + 4 * n, s') ∧
    nextPromise s' = S (a + 4 * n) ∧
    (∀ k, k < n →
          promises s' !! (a + 4 * k + 3)
          = Some {| outcome := None; reactions := [RAll k (a + 4 * n)] |}) ∧
    (∀ q, q < a + 4 * n → (∀ k, k < n → q ≠ a + 4 * k + 3) →
          promises s' !! q = promises s !! q) ∧
    promises s' !! (a + 4 * n) = Some {| outcome := None; reactions := [] |} ∧
    aggregates s'
    = <[a + 4 * n := (n, replicate n VUndefined)]> (aggregates s) ∧
    jobs s' = jobs s ∧ inflight s' = inflight s ∧ trace s' = trace s ∧
    cwd s' = cwd s ∧ moduleCwd s' = moduleCwd s ∧ objects s' = objects s ∧
    nextObject s' = nextObject s ∧ arrays s' = arrays s ∧
    nextArray s' = nextArray s.
Proof.
  intros Hpos Hnext Hp. unfold promiseAll, newPromise.
  rewrite length_map, length_seq. rewrite Hnext.
  destruct (decide (n = 0)) as [->|_]; [lia|].
  cbv zeta. cbn [fst snd].
  match goal with
  | |- context [foldl ?f ?s0 ?l] =>
      destruct (subscribeAll_spec a (a + 4 * n) n s0) as (Hk & Hq & Hw)
  end.
  { intros k Hlt. cbn. rewrite lookup_insert_ne by lia. by apply Hp. }
  eexists. split; [reflexivity|].
  cbv zeta in Hk, Hq, Hw.
  split_and!; try (rewrite Hw; reflexivity).
  - exact Hk.
  - intros q Hlt Hne. rewrite Hq by done. cbn.
    by rewrite lookup_insert_ne by lia.
  - rewrite Hq by (intros; lia). cbn. by rewrite lookup_insert_eq.
Qed.

End FanOut.

Section FanOutRun.

Variable E : Externals.
Variable outputDir : string.
Variable includes : list Entry.
Variable options : option nat.
Variable s : State.                 (* the state at the call *)

Definition fanDir : string := Path.resolve (cwd s) outputDir.
Definition fanCompiler : NodeCompiler :=
  {| compilerOptions := optionsValue options s |}.
Definition fanValue : Options := clonedValue E options s.
Definition fanSession (k : nat) : Session :=
  sessionAt options s (nextArray s + k).

(** The promises of the compile of entry [k]: [link k] is the one
    [Promise.resolve()] makes, the next three are the links of [then];
    [loaderPromise k] is the promise of the loader and the next one the
    promise [loadInput] returns; [aggregate] is the promise of
    [Promise.all]. *)
Definition link (k : nat) : nat := nextPromise s + 4 * k.
Definition aggregate : nat := nextPromise s + 4 * length includes.
Definition loaderPromise (k : nat) : nat := aggregate + 1 + 2 * k.

Definition fanRequest (k : nat) (input : Entry) : LoadRequest :=
  requestFor (fanSession k) fanValue input.

Definition fanFlight (k : nat) (input : Entry) : Flight :=
  {| flightPromise := loaderPromise k;
     flightRequest := fanRequest k input;
     flightElements := nextArray s + k;
     flightOptions := nextObject s + k |}.

Definition fanFile (input : Entry) : string := pathJoin E fanDir (name input).

Definition fanTree (k : nat) (input : Entry) : Value :=
  treeResult (depTargetOf options s)
             (contribution E (fanSession k) fanValue input).

(** How the compile of entry [k] ends: with the rejection of its load, or
    the way the write of its tree goes. *)
Definition fanOutcome (k : nat) (input : Entry) : Outcome :=
  match loadOutcome E (fanSession k) fanValue input with
  | Fulfilled _ => writeOutcome E fanCompiler (fanTree k input) (fanFile input)
  | Rejected reason => Rejected reason
  end.

(** The links of entry [k] once [Promise.all] has subscribed. *)
Definition subscribed (k : nat) (input : Entry) (m : gmap nat Cell) : Prop :=
  m !! (link k + 1)
  = Some {| outcome := None;
            reactions :=
              [RThen (Some (KToTree (fanSession k) (depTargetOf options s)))
                     None (link k + 2)] |} ∧
  m !! (link k + 2)
  = Some {| outcome := None;
            reactions :=
              [RThen (Some (KWriteEach fanCompiler fanDir input)) None
                     (link k + 3)] |} ∧
  m !! (link k + 3)
  = Some {| outcome := None; reactions := [RAll k aggregate] |}.

(** The end of the call: every chain is built and its first job queued. *)
Lemma forEach_called :
  0 < length includes →
  jobs s = [] →
  ∃ s0,
    forEachRecursiveModuleCompile outputDir includes options s
      = (aggregate, s0) ∧
    jobs s0 = imap (λ k input, startJob options s (nextArray s + k) (link k) input)
                   includes ∧
    (∀ k input, includes !! k = Some input → subscribed k input (promises s0)) ∧
    promises s0 !! aggregate = Some {| outcome := None; reactions := [] |} ∧
    aggregates s0 !! aggregate
    = Some (length includes, replicate (length includes) VUndefined) ∧
    nextPromise s0 = S aggregate ∧
    (∀ k, k < length includes → arrays s0 !! (nextArray s + k) = Some []) ∧
    objects s0 = objects s ∧ nextObject s0 = nextObject s ∧
    inflight s0 = inflight s ∧
    trace s0 = trace s ++ [EvNewCompiler (optionsValue options s)] ∧
    cwd s0 = cwd s ∧ moduleCwd s0 = moduleCwd s.
Proof.
  intros Hpos Hj.
  unfold forEachRecursiveModuleCompile, newNodeCompiler, mapGetPromise.
  fold fanDir fanCompiler.
  set (s1 := log (EvNewCompiler (optionsValue options s)) s).
  destruct (mapGetPromise_spec fanCompiler fanDir options includes [] s1)
    as (s2 & Hf & Hn & Hna & Hj2 & Hch & Hq & Ha & Hab & Hcwd & Hm & Hob & Hno
        & Hag & Hin & Htr).
  cbv zeta. rewrite Hf. cbn [app].
  change (nextPromise s1) with (nextPromise s) in *.
  change (nextArray s1) with (nextArray s) in *.
  destruct (promiseAll_spec (nextPromise s) (length includes) s2 Hpos Hn)
    as (s0 & Hall & Hn0 & Hk0 & Hq0 & Hagg & Hag0 & Hj0 & Hin0 & Htr0 & Hcwd0
        & Hm0 & Hob0 & Hno0 & Har0 & Hna0).
  { intros k Hlt. destruct (lookup_lt_is_Some_2 includes k Hlt) as [x Hx].
    by destruct (Hch k x Hx) as (_ & _ & ?). }
  exists s0. rewrite Hall. unfold aggregate.
  assert (Hsess : ∀ b, sessionAt options s1 b = sessionAt options s b).
  { intros b. by apply sessionAt_ext. }
  split_and!; try done; try congruence.
  - rewrite Hj0, Hj2. cbn. rewrite Hj. cbn.
    apply imap_ext. intros k x _. unfold startJob. by rewrite Hsess.
  - intros k x Hx. destruct (Hch k x Hx) as (H1 & H2 & H3).
    assert (k < length includes) by (by eapply lookup_lt_Some).
    unfold subscribed, link, fanSession.
    rewrite Hsess in H1.
    replace (depTargetOf options s1) with (depTargetOf options s) in H1
      by (symmetry; by apply depTargetOf_ext).
    split_and!.
    + rewrite Hq0; [done|lia|]. intros k' ?. lia.
    + rewrite Hq0; [done|lia|]. intros k' ?. lia.
    + by apply Hk0.
  - rewrite Hag0. by rewrite lookup_insert_eq.
  - intros k Hlt. rewrite Har0. by apply Ha.
  - by rewrite Hob0, Hob.
  - by rewrite Hno0, Hno.
  - by rewrite Hin0, Hin.
  - by rewrite Htr0, Htr.
  - by rewrite Hcwd0, Hcwd.
  - by rewrite Hm0, Hm.
Qed.

(** The first jobs: every entry's load is started, one after the other,
    and nothing else happens. *)
Lemma starts_run rest : ∀ off st,
  jobs st = imap (λ k input,
                    startJob options s (nextArray s + (off + k))
                             (link (off + k)) input) rest →
  nextPromise st = loaderPromise off →
  nextObject st = nextObject s + off →
  (∀ o, options = Some o →
        o < nextObject s ∧ objects st !! o = objects s !! o) →
  ∃ st',
    drains E st st' ∧
    inflight st' =
      inflight st ++ imap (λ k input, fanFlight (off + k) input) rest ∧
    trace st' =
      trace st
      ++ imap (λ k input, EvLoadStart (fanRequest (off + k) input)) rest ∧
    nextPromise st' = loaderPromise (off + length rest) ∧
    nextObject st' = nextObject s + (off + length rest) ∧
    (∀ k input, rest !! k = Some input →
       promises st' !! loaderPromise (off + k)
       = Some {| outcome := None;
                 reactions :=
                   [RThen (Some (KAfterLoad (fanSession (off + k))
                                   (evaluates fanValue input) (name input)))
                          None (S (loaderPromise (off + k)))] |} ∧
       promises st' !! S (loaderPromise (off + k))
       = Some {| outcome := None;
                 reactions := [RAdopt (S (link (off + k)))] |}) ∧
    (∀ q, q < nextPromise st → promises st' !! q = promises st !! q) ∧
    (∀ o, o < nextObject st → objects st' !! o = objects st !! o) ∧
    arrays st' = arrays st ∧ nextArray st' = nextArray st ∧
    aggregates st' = aggregates st ∧
    cwd st' = cwd st ∧ moduleCwd st' = moduleCwd st.
Proof.
  induction rest as [|input rest IH]; intros off st Hj Hnp Hno Hopt.
  - exists st. cbn. rewrite !app_nil_r, !Nat.add_0_r.
    split_and!; try done. by apply drains_idle.
  - cbn [imap] in Hj. rewrite !Nat.add_0_r in Hj.
    set (js := imap _ rest) in Hj.
    set (sess := sessionAt options s (nextArray s + off)) in *.
    set (st1 := loading sess fanValue input (S (link off)) (with_jobs js st)).
    assert (Hrun : runJob E (startJob options s (nextArray s + off)
                               (link off) input) (with_jobs js st)
                   = st1).
    { unfold startJob, st1. fold sess. rewrite runJob_load. f_equal.
      unfold fanValue. apply clonedValue_ext. intros o Ho. cbn.
      by destruct (Hopt o Ho). }
    destruct (IH (S off) st1)
      as (st' & Hd & Hin & Htr & Hnp' & Hno' & Hcells & Hq & Hob & Har & Hna
          & Hag & Hcwd & Hm).
    { cbn. apply imap_ext. intros k x _. unfold compose.
      by replace (off + S k) with (S off + k) by lia. }
    { cbn. rewrite Hnp. unfold loaderPromise. lia. }
    { cbn. rewrite Hno. lia. }
    { intros o Ho. destruct (Hopt o Ho) as [Hlt Heq]. split; [done|].
      cbn. rewrite lookup_insert_ne by lia. done. }
    exists st'.
    split_and!.
    + eapply drains_job; [exact Hj|]. by rewrite Hrun.
    + rewrite Hin. unfold st1. cbn -[Nat.mul Nat.add link loaderPromise].
      rewrite <- app_assoc. f_equal. cbn [app]. f_equal.
      * rewrite Nat.add_0_r. unfold fanFlight, fanRequest, fanSession.
        fold sess. by rewrite Hnp, Hno.
      * apply imap_ext. intros k x _. unfold compose.
        by replace (off + S k) with (S off + k) by lia.
    + rewrite Htr. unfold st1. cbn -[Nat.mul Nat.add link loaderPromise].
      rewrite <- app_assoc. by f_equal.
    + rewrite Hnp'. cbn [length]. f_equal. lia.
    + rewrite Hno'. cbn [length]. lia.
    + intros [|k] x Hx.
      * injection Hx as <-. rewrite !Nat.add_0_r.
        rewrite !Hq by (cbn; rewrite Hnp; lia).
        cbn. rewrite Hnp. split.
        -- rewrite lookup_insert_ne by lia. by rewrite lookup_insert_eq.
        -- by rewrite lookup_insert_eq.
      * replace (off + S k) with (S off + k) by lia. by apply Hcells.
    + intros q Hlt. rewrite Hq by (cbn; lia). cbn.
      by rewrite !lookup_insert_ne by lia.
    + intros o Hlt. rewrite Hob by (cbn; lia). cbn.
      by rewrite lookup_insert_ne by lia.
    + by rewrite Har.
    + by rewrite Hna.
    + by rewrite Hag.
    + by rewrite Hcwd.
    + by rewrite Hm.
Qed.

(** *** The loads settle, in any order *)

(** Entry [k], in flight: its load is with the loader and its chain waits
    for it. *)
Definition flying (k : nat) (input : Entry) (st : State) : Prop :=
  promises st !! loaderPromise k
  = Some {| outcome := None;
            reactions :=
              [RThen (Some (KAfterLoad (fanSession k)
                              (evaluates fanValue input) (name input)))
                     None (S (loaderPromise k))] |} ∧
  promises st !! S (loaderPromise k)
  = Some {| outcome := None; reactions := [RAdopt (S (link k))] |} ∧
  promises st !! S (link k)
  = Some {| outcome := None;
            reactions :=
              [RThen (Some (KToTree (fanSession k) (depTargetOf options s)))
                     None (link k + 2)] |} ∧
  promises st !! (link k + 2)
  = Some {| outcome := None;
            reactions :=
              [RThen (Some (KWriteEach fanCompiler fanDir input)) None
                     (link k + 3)] |} ∧
  promises st !! (link k + 3)
  = Some {| outcome := None; reactions := [RAll k aggregate] |} ∧
  arrays st !! (nextArray s + k) = Some [].

(** The load of entry [k] settles and its chain runs down to the job that
    tells [Promise.all] how the compile of the entry ended. *)
Lemma entry_completes k input i i' st sched :
  jobs st = [] →
  i' `mod` length (inflight st) = i →
  inflight st !! i = Some (fanFlight k input) →
  flying k input st →
  k < length includes →
  ∃ st5 t,
    leads E (i' :: sched) st sched st5 ∧
    jobs st5 = [(RAll k aggregate, fanOutcome k input)] ∧
    inflight st5 = delete i (inflight st) ∧
    (∀ q, q ≠ loaderPromise k → q ≠ S (loaderPromise k) → q ≠ S (link k) →
          q ≠ link k + 2 → q ≠ link k + 3 →
          promises st5 !! q = promises st !! q) ∧
    (∀ b, b ≠ nextArray s + k → arrays st5 !! b = arrays st !! b) ∧
    aggregates st5 = aggregates st ∧
    trace st5 = trace st ++ t ∧
    EvLoadSettle (fanRequest k input) (load E (fanRequest k input)) ∈ t ∧
    (∀ w, loadOutcome E (fanSession k) fanValue input = Fulfilled w →
          EvWriteTree fanCompiler (fanTree k input) (fanFile input) ∈ t) ∧
    writesAttempted t
    = match loadOutcome E (fanSession k) fanValue input with
      | Fulfilled _ => [(fanTree k input, fanFile input)]
      | Rejected _ => []
      end.
Proof.
  intros Hj Hi' Hi (Hx & Hy & H1 & H2 & H3 & Ha) Hk.
  assert (Hd1 : loaderPromise k ≠ S (loaderPromise k)) by lia.
  assert (Hd2 : S (link k) ≠ loaderPromise k)
    by (unfold loaderPromise, aggregate, link; lia).
  assert (Hd3 : S (link k) ≠ S (loaderPromise k))
    by (unfold loaderPromise, aggregate, link; lia).
  assert (Hd4 : link k + 2 ≠ loaderPromise k)
    by (unfold loaderPromise, aggregate, link; lia).
  assert (Hd5 : link k + 2 ≠ S (loaderPromise k))
    by (unfold loaderPromise, aggregate, link; lia).
  assert (Hd6 : link k + 3 ≠ loaderPromise k)
    by (unfold loaderPromise, aggregate, link; lia).
  assert (Hd7 : link k + 3 ≠ S (loaderPromise k))
    by (unfold loaderPromise, aggregate, link; lia).
  assert (Hd8 : link k + 2 ≠ S (link k)) by lia.
  assert (Hd9 : link k + 3 ≠ S (link k)) by lia.
  assert (Hd10 : link k + 3 ≠ link k + 2) by lia.
  assert (Hstart :
    leads E (i' :: sched) st sched
      (completed E (fanFlight k input) i
         [RThen (Some (KAfterLoad (fanSession k) (evaluates fanValue input)
                         (name input))) None (S (loaderPromise k))] st)).
  { eapply leads_trans; [by apply leads_complete|]. rewrite Hi'.
    erewrite complete_flight; [apply leads_refl|exact Hi|exact Hx]. }
  unfold fanOutcome, fanTree, loadOutcome, contribution, replyFor.
  fold (fanRequest k input).
  destruct (replyOutcome (load E (fanRequest k input))) as [val|reason] eqn:Hr.
  - (* the load is fulfilled *)
    set (elems := replyElements (load E (fanRequest k input))
                  ++ (if evaluates fanValue input
                      then [marker E (fanSession k) input] else [])).
    set (tree := treeResult (depTargetOf options s) elems).
    eexists _, _. split.
    { eapply leads_trans; [exact Hstart|].
      eapply leads_trans; [apply leads_job; cbn; rewrite Hj; reflexivity|].
      unfold replyToOutcome. rewrite Hr.
      erewrite runJob_afterLoad
        by (cbn; by rewrite lookup_insert_ne by done).
      eapply leads_trans.
      { apply leads_job. destruct (evaluates fanValue input); cbn; reflexivity. }
      erewrite runJob_adopt.
      2:{ destruct (evaluates fanValue input); cbn;
            rewrite !lookup_insert_ne by done; exact H1. }
      eapply leads_trans.
      { apply leads_job. destruct (evaluates fanValue input); cbn; reflexivity. }
      erewrite (runJob_toTree E _ _ _ _ _ _ elems).
      2:{ destruct (evaluates fanValue input); cbn;
            rewrite !lookup_insert_ne by done; exact H2. }
      2:{ unfold elems. destruct (evaluates fanValue input); cbn;
            rewrite ?lookup_insert_eq, Ha; cbn; by rewrite ?app_nil_r. }
      eapply leads_trans.
      { apply leads_job. destruct (evaluates fanValue input); cbn; reflexivity. }
      erewrite runJob_writeEach.
      2:{ destruct (evaluates fanValue input); cbn;
            rewrite !lookup_insert_ne by done; exact H3. }
      apply leads_refl. }
    fold (fanFile input).
    destruct (evaluates fanValue input); cbn; rewrite ?Hj; cbn;
      unfold replyToOutcome; rewrite ?Hr; fold tree;
      (split_and!; try done; try (by rewrite <- !app_assoc);
       first [ intros q ? ? ? ? ?; by rewrite !lookup_insert_ne by lia
             | intros b ?; by rewrite !lookup_insert_ne by lia
             | reflexivity
             | set_solver ]).
  - (* the load is rejected *)
    eexists _, _. split.
    { eapply leads_trans; [exact Hstart|].
      eapply leads_trans; [apply leads_job; cbn; rewrite Hj; reflexivity|].
      unfold replyToOutcome. rewrite Hr.
      erewrite runJob_pass_rejected
        by (cbn; by rewrite lookup_insert_ne by done).
      eapply leads_trans; [apply leads_job; cbn; reflexivity|].
      erewrite runJob_adopt
        by (cbn; rewrite !lookup_insert_ne by done; exact H1).
      eapply leads_trans; [apply leads_job; cbn; reflexivity|].
      erewrite runJob_pass_rejected
        by (cbn; rewrite !lookup_insert_ne by done; exact H2).
      eapply leads_trans; [apply leads_job; cbn; reflexivity|].
      erewrite runJob_pass_rejected
        by (cbn; rewrite !lookup_insert_ne by done; exact H3).
      apply leads_refl. }
    cbn; rewrite ?Hj; cbn; unfold replyToOutcome; rewrite ?Hr;
      (split_and!; try done; try (by rewrite <- !app_assoc);
       first [ intros q ? ? ? ? ?; by rewrite !lookup_insert_ne by lia
             | intros b ?; by rewrite !lookup_insert_ne by lia
             | reflexivity
             | set_solver ]).
Qed.

(** *** What [Promise.all] makes of the compiles that are over *)

Definition fulfils (o : Outcome) : bool :=
  match o with Fulfilled _ => true | Rejected _ => false end.

(** The compiles among [D] that succeeded. *)
Fixpoint fulfilledCount (D : list (nat * Entry)) : nat :=
  match D with
  | [] => 0
  | (k, input) :: D' =>
      (if fulfils (fanOutcome k input) then 1 else 0) + fulfilledCount D'
  end.

(** The reason of the first compile of [D] that failed. *)
Fixpoint firstRejection (D : list (nat * Entry)) : option Value :=
  match D with
  | [] => None
  | (k, input) :: D' =>
      match fanOutcome k input with
      | Rejected reason => Some reason
      | Fulfilled _ => firstRejection D'
      end
  end.

(** The promise of [Promise.all] once the compiles of [D] are over, in the
    order of [D]. *)
Definition aggregateCell (D : list (nat * Entry)) : Cell :=
  match firstRejection D with
  | Some reason => {| outcome := Some (Rejected reason); reactions := [] |}
  | None =>
      if decide (length D = length includes)
      then {| outcome :=
                Some (Fulfilled
                        (VArray (replicate (length includes) VUndefined)));
              reactions := [] |}
      else {| outcome := None; reactions := [] |}
  end.

Lemma fanOutcome_fulfilled k input w :
  fanOutcome k input = Fulfilled w → w = VUndefined.
Proof.
  unfold fanOutcome, writeOutcome.
  destruct (loadOutcome _ _ _ _); [|done].
  destruct (writeFailure _ _ _ _); naive_solver.
Qed.

Lemma fulfilledCount_snoc D k input :
  fulfilledCount (D ++ [(k, input)])
  = fulfilledCount D + (if fulfils (fanOutcome k input) then 1 else 0).
Proof.
  induction D as [|[k' input'] D IH]; simpl; [lia|]. rewrite IH. lia.
Qed.

Lemma firstRejection_snoc D k input :
  firstRejection (D ++ [(k, input)])
  = match firstRejection D with
    | Some reason => Some reason
    | None => match fanOutcome k input with
              | Rejected reason => Some reason
              | Fulfilled _ => None
              end
    end.
Proof.
  induction D as [|[k' input'] D IH]; simpl; [done|].
  by destruct (fanOutcome k' input').
Qed.

Lemma fulfilledCount_le D : fulfilledCount D ≤ length D.
Proof.
  induction D as [|[k input] D IH]; simpl; [lia|].
  destruct (fulfils _); lia.
Qed.

Lemma firstRejection_count D :
  firstRejection D = None ↔ fulfilledCount D = length D.
Proof.
  induction D as [|[k input] D IH]; simpl; [done|].
  pose proof (fulfilledCount_le D).
  destruct (fanOutcome k input); simpl.
  - rewrite IH. lia.
  - split; [done|lia].
Qed.

(** The state while loads are in flight: [L] lists the entries whose load
    is with the loader, in the order of the loads in flight, and [D] the
    entries whose compile is over, in the order they ended; [base] is the
    log at the time every load had been started. *)
Record fan (base : list Event) (L D : list (nat * Entry)) (st : State)
    : Prop := {
  fan_jobs : jobs st = [];
  fan_inflight : inflight st = map (λ ki, fanFlight ki.1 ki.2) L;
  fan_flying :
    ∀ k input, (k, input) ∈ L → k < length includes ∧ flying k input st;
  fan_nodup : NoDup (L.*1);
  fan_count : length D + length L = length includes;
  fan_all : D ++ L ≡ₚ imap (λ k input, (k, input)) includes;
  fan_aggregates :
    aggregates st !! aggregate
    = Some (length includes - fulfilledCount D,
            replicate (length includes) VUndefined);
  fan_aggregate : promises st !! aggregate = Some (aggregateCell D);
  fan_done :
    ∃ t, trace st = base ++ t ∧
      ∀ k input, (k, input) ∈ D →
        EvLoadSettle (fanRequest k input) (load E (fanRequest k input)) ∈ t ∧
        (∀ w, loadOutcome E (fanSession k) fanValue input = Fulfilled w →
              EvWriteTree fanCompiler (fanTree k input) (fanFile input) ∈ t)
}.

(** The job that tells [Promise.all] how a compile ended. *)
Lemma aggregate_job (L D : list (nat * Entry)) k input st5 :
  jobs st5 = [(RAll k aggregate, fanOutcome k input)] →
  0 < length L →
  length D + length L = length includes →
  aggregates st5 !! aggregate
  = Some (length includes - fulfilledCount D,
          replicate (length includes) VUndefined) →
  promises st5 !! aggregate = Some (aggregateCell D) →
  ∃ st6 t,
    runJob E (RAll k aggregate, fanOutcome k input) (with_jobs [] st5) = st6 ∧
    jobs st6 = [] ∧
    aggregates st6 !! aggregate
    = Some (length includes - fulfilledCount (D ++ [(k, input)]),
            replicate (length includes) VUndefined) ∧
    promises st6 !! aggregate = Some (aggregateCell (D ++ [(k, input)])) ∧
    (∀ q, q ≠ aggregate → promises st6 !! q = promises st5 !! q) ∧
    inflight st6 = inflight st5 ∧ arrays st6 = arrays st5 ∧
    trace st6 = trace st5 ++ t ∧
    writesAttempted t = [].
Proof.
  intros Hj Hpos Hcount Hags Hagg.
  pose proof (fulfilledCount_le D) as Hle.
  unfold aggregateCell in *.
  rewrite firstRejection_snoc, fulfilledCount_snoc, length_app. cbn [length].
  cbn [runJob].
  destruct (fanOutcome k input) as [w|reason] eqn:Hout.
  - (* the compile succeeded *)
    apply fanOutcome_fulfilled in Hout as ->. cbn [fulfils settledAt].
    cbn [aggregates with_jobs]. rewrite Hags. rewrite insert_replicate.
    destruct (decide (pred (length includes - fulfilledCount D) = 0))
      as [Hlast|Hmore].
    + (* it was the last one and every compile succeeded *)
      assert (Hall : fulfilledCount D = length D) by lia.
      apply firstRejection_count in Hall as Hnone. rewrite Hnone in *.
      rewrite decide_False in Hagg by lia.
      erewrite settle_pending by (cbn; exact Hagg).
      eexists _, _. split; [reflexivity|]. cbn.
      rewrite !lookup_insert_eq. rewrite decide_True by lia.
      split_and!; try done.
      * do 2 f_equal. lia.
      * intros q Hq. by rewrite lookup_insert_ne by done.
    + (* others are still to end, or one failed *)
      eexists _, []. split; [reflexivity|]. cbn.
      rewrite lookup_insert_eq, app_nil_r.
      split_and!; try done.
      * do 2 f_equal. lia.
      * rewrite Hagg. destruct (firstRejection D) as [reason|] eqn:Hrej;
          [done|].
        apply firstRejection_count in Hrej.
        by rewrite !decide_False by lia.
  - (* the compile failed *)
    cbn [fulfils settledAt]. rewrite Nat.add_0_r.
    destruct (firstRejection D) as [reason0|] eqn:Hrej.
    + (* an earlier compile had failed: the promise is settled already *)
      unfold settle. cbn [promises with_jobs]. rewrite Hagg.
      eexists _, []. split; [reflexivity|]. cbn. rewrite app_nil_r.
      by split_and!.
    + (* the first to fail *)
      rewrite decide_False in Hagg by lia.
      erewrite settle_pending by (cbn; exact Hagg).
      eexists _, _. split; [reflexivity|]. cbn.
      rewrite lookup_insert_eq.
      split_and!; try done.
      intros q Hq. by rewrite lookup_insert_ne by done.
Qed.

Lemma delete_fst_ne {A B} (l : list (A * B)) i x y :
  NoDup (l.*1) → l !! i = Some x → y ∈ delete i l → y.1 ≠ x.1.
Proof.
  intros Hnd Hi Hy. rewrite delete_take_drop in Hy.
  rewrite <- (take_drop_middle l i x Hi) in Hnd.
  rewrite fmap_app, fmap_cons in Hnd.
  apply NoDup_app in Hnd as (H1 & H2 & H3).
  apply NoDup_cons in H3 as [H3 H4].
  apply elem_of_app in Hy as [Hy|Hy]; intros Heq.
  - apply (H2 y.1); [apply list_elem_of_fmap; eauto|]. rewrite Heq. left.
  - apply H3. rewrite <- Heq. apply list_elem_of_fmap. eauto.
Qed.

(** What the compile of an entry writes: its tree, to its file, when its
    load succeeds. *)
Definition entryWrites (ki : nat * Entry) : list (Value * string) :=
  match loadOutcome E (fanSession ki.1) fanValue ki.2 with
  | Fulfilled _ => [(fanTree ki.1 ki.2, fanFile ki.2)]
  | Rejected _ => []
  end.

(** One more load settles: the compile of its entry runs to its end and
    [Promise.all] is told, while the other loads stay in flight. *)
Lemma fan_step base L D st i i' k input sched :
  fan base L D st →
  i' `mod` length (inflight st) = i →
  L !! i = Some (k, input) →
  ∃ st' t,
    leads E (i' :: sched) st sched st' ∧
    fan base (delete i L) (D ++ [(k, input)]) st' ∧
    trace st' = trace st ++ t ∧
    writesAttempted t = entryWrites (k, input).
Proof.
  intros [Hj Hin Hfly Hnd Hcount Hperm Hags Hagg (t0 & Htr0 & Hdone)] Hi HL.
  assert (Hel : (k, input) ∈ L) by (by eapply list_elem_of_lookup_2).
  destruct (Hfly k input Hel) as [Hk Hf].
  assert (HLpos : 0 < length L) by (apply lookup_lt_Some in HL; lia).
  destruct (entry_completes k input i i' st sched Hj Hi) as
    (st5 & t & Hlead & Hj5 & Hin5 & Hp5 & Har5 & Hag5 & Htr5 & Hev & Hwr
     & Hws);
    [by rewrite Hin, list_lookup_fmap, HL|done|done|].
  destruct (aggregate_job L D k input st5 Hj5 HLpos Hcount) as
    (st6 & t' & Hrun & Hj6 & Hags6 & Hagg6 & Hp6 & Hin6 & Har6 & Htr6 & Hws').
  { by rewrite Hag5. }
  { rewrite Hp5; [done|unfold loaderPromise, link, aggregate in *; lia..]. }
  exists st6, (t ++ t'). split_and!.
  - eapply leads_trans; [exact Hlead|]. rewrite <- Hrun.
    by apply leads_job.
  - split.
    + done.
    + by rewrite Hin6, Hin5, Hin, list_fmap_delete.
    + intros k' input' Hel'.
      assert (Hne : k' ≠ k).
      { by apply (delete_fst_ne L i (k, input) (k', input')). }
      apply list_elem_of_delete_inv in Hel'.
      destruct (Hfly k' input' Hel') as [Hk' (F1 & F2 & F3 & F4 & F5 & F6)].
      split; [done|]. unfold flying.
      rewrite Har6, Har5 by lia.
      rewrite !Hp6 by (unfold loaderPromise, link, aggregate in *; lia).
      rewrite !Hp5 by (unfold loaderPromise, link, aggregate in *; lia).
      done.
    + rewrite list_fmap_delete. eapply sublist_NoDup; [exact Hnd|apply sublist_delete].
    + rewrite length_app, length_delete by done. cbn. lia.
    + rewrite <- Hperm, <- app_assoc. apply Permutation_app_head. cbn.
      symmetry. by apply delete_Permutation.
    + done.
    + done.
    + exists (t0 ++ t ++ t'). split.
      { by rewrite Htr6, Htr5, Htr0, <- !app_assoc. }
      intros k' input' Hel'.
      apply elem_of_app in Hel' as [Hel'|Hel'].
      * destruct (Hdone k' input' Hel') as [H1 H2]. split.
        -- rewrite !elem_of_app. by left.
        -- intros w Hw. rewrite !elem_of_app. left. by eapply H2.
      * apply list_elem_of_singleton in Hel'. injection Hel' as -> ->. split.
        -- rewrite !elem_of_app. by right; left.
        -- intros w Hw. rewrite !elem_of_app. right; left. by eapply Hwr.
  - by rewrite Htr6, Htr5, app_assoc.
  - unfold writesAttempted in *. rewrite omap_app, Hws, Hws'.
    by rewrite app_nil_r.
Qed.

(** The order in which the compiles end when the loader settles the loads
    in flight, listed by [L], in the order [schedule] picks them. *)
Fixpoint completionOrder (schedule : list nat) (L : list (nat * Entry))
    : list (nat * Entry) :=
  match schedule with
  | [] => []
  | i :: rest =>
      match L !! (i `mod` length L) with
      | Some x => x :: completionOrder rest (delete (i `mod` length L) L)
      | None => completionOrder rest L
      end
  end.

Lemma completionOrder_nil schedule : completionOrder schedule [] = [].
Proof. induction schedule as [|i rest IH]; [done|]. cbn. exact IH. Qed.

(** Every load in flight settles, whatever the order, and every compile
    runs to its end. *)
Lemma fan_runs base schedule : ∀ L D st,
  fan base L D st →
  length L ≤ length schedule →
  ∃ st' t,
    runs E schedule st st' ∧
    fan base [] (D ++ completionOrder schedule L) st' ∧
    trace st' = trace st ++ t ∧
    writesAttempted t = flat_map entryWrites (completionOrder schedule L).
Proof.
  induction schedule as [|i' rest IH]; intros L D st Hfan Hlen.
  - destruct L; [|cbn in Hlen; lia]. exists st, []. cbn.
    rewrite !app_nil_r. split_and!; [|done..].
    apply drains_idle, Hfan.
  - destruct (decide (L = [])) as [->|Hne].
    + exists st, []. rewrite completionOrder_nil, !app_nil_r.
      split_and!; [|done..].
      apply runs_quiescent; [apply Hfan|].
      by rewrite (fan_inflight _ _ _ _ Hfan).
    + assert (HL : length (inflight st) = length L).
      { by rewrite (fan_inflight _ _ _ _ Hfan), length_map. }
      assert (Hpos : 0 < length L) by (destruct L; [done|cbn; lia]).
      assert (Hlt : i' `mod` length L < length L)
        by (apply Nat.mod_upper_bound; lia).
      destruct (lookup_lt_is_Some_2 L _ Hlt) as [[k input] Hx].
      destruct (fan_step base L D st (i' `mod` length L) i' k input rest Hfan)
        as (st1 & t1 & Hlead & Hfan1 & Htr1 & Hws1); [by rewrite HL|done|].
      destruct (IH _ _ _ Hfan1) as (st' & t & Hr & Hfan' & Htr & Hws).
      { rewrite length_delete by done. cbn in Hlen. lia. }
      exists st', (t1 ++ t). split_and!.
      * by apply Hlead.
      * cbn [completionOrder]. rewrite Hx.
        by rewrite <- app_assoc in Hfan'.
      * by rewrite Htr, Htr1, app_assoc.
      * cbn [completionOrder]. rewrite Hx. cbn [flat_map].
        unfold writesAttempted in *. by rewrite omap_app, Hws1, Hws.
Qed.

Lemma imap_pair_fst {A} (l : list A) : ∀ off,
  (imap (λ k x, (off + k, x)) l).*1 = seq off (length l).
Proof.
  induction l as [|x l IH]; intros off; [done|]. cbn.
  rewrite Nat.add_0_r. f_equal. rewrite <- IH. f_equal.
  apply imap_ext. intros k y _. cbn. f_equal. lia.
Qed.

(** The state once the call is over and the queued jobs have run: every
    load is in flight and none has settled. *)
Lemma fan_start :
  0 < length includes →
  jobs s = [] →
  inflight s = [] →
  (∀ o, options = Some o → o < nextObject s) →
  ∃ s0 s1,
    forEachRecursiveModuleCompile outputDir includes options s
      = (aggregate, s0) ∧
    drains E s0 s1 ∧
    fan (trace s1) (imap (λ k input, (k, input)) includes) [] s1 ∧
    trace s1
    = trace s ++ EvNewCompiler (optionsValue options s)
              :: imap (λ k input, EvLoadStart (fanRequest k input)) includes.
Proof.
  intros Hpos Hj Hf Ho.
  destruct (forEach_called Hpos Hj) as
    (s0 & Hcall & Hj0 & Hsub & Hagg0 & Hags0 & Hnp0 & Har0 & Hob0 & Hno0
     & Hin0 & Htr0 & _).
  destruct (starts_run includes 0 s0) as
    (s1 & Hd & Hin1 & Htr1 & _ & _ & Hcells & Hq & _ & Har1 & _ & Hags1 & _).
  { exact Hj0. }
  { rewrite Hnp0. unfold loaderPromise. lia. }
  { rewrite Hno0. lia. }
  { intros o Hopt. split; [by apply Ho|by rewrite Hob0]. }
  exists s0, s1. split_and!; [done|done| |].
  - split.
    + by destruct Hd as (n & _ & ?).
    + rewrite Hin1, Hin0, Hf, fmap_imap. cbn. done.
    + intros k input Hel. apply elem_of_lookup_imap in Hel
        as (k' & input' & [= -> ->] & Hx).
      assert (Hk : k' < length includes) by (by eapply lookup_lt_Some).
      split; [done|].
      destruct (Hcells k' input' Hx) as [C1 C2].
      change (0 + k') with k' in C1, C2.
      destruct (Hsub k' input' Hx) as (C3 & C4 & C5).
      unfold flying. rewrite Har1.
      rewrite <- (Nat.add_1_r (link k')).
      rewrite !(Hq (link k' + _))
        by (rewrite Hnp0; unfold link, aggregate; lia).
      rewrite <- (Nat.add_1_r (link k')) in C2.
      split_and!; [done..|by apply Har0].
    + change (NoDup (imap (λ k x, (0 + k, x)) includes).*1).
      rewrite imap_pair_fst. apply NoDup_seq.
    + by rewrite length_imap.
    + done.
    + rewrite Hags1, Hags0. cbn. by rewrite Nat.sub_0_r.
    + rewrite Hq by (rewrite Hnp0; lia). rewrite Hagg0.
      unfold aggregateCell. cbn. by rewrite decide_False by lia.
    + exists []. split; [by rewrite app_nil_r|].
      intros k input Hel. by apply elem_of_nil in Hel.
  - rewrite Htr1, Htr0. by rewrite <- app_assoc.
Qed.

Lemma drains_runs schedule s0 s1 s' :
  drains E s0 s1 → runs E schedule s1 s' → runs E schedule s0 s'.
Proof.
  intros (n & Hd & Hq) Hr. destruct schedule as [|i rest]; cbn in *.
  - destruct Hr as (m & Hm & Hq'). rewrite drain_idle in Hm by done.
    subst s'. by exists n.
  - destruct Hr as (s1' & (m & Hm & Hq') & Hr).
    rewrite drain_idle in Hm by done. subst s1'.
    exists s1. split; [by exists n|done].
Qed.

(** C7, as amended. For every call of the fan-out compile on at least one
    entry, made when no job is queued and no load is in flight: the compiles
    are initiated concurrently, that is, once the jobs the call queued have
    run, the load of every entry is in flight and none has settled; a
    failure cancels nothing: whatever the order in which the loader settles
    the loads, every entry's load settles and the tree of every entry
    whose load succeeded is written to its own file; and the caller is
    given one promise for the whole request, the one of [Promise.all]: it is
    fulfilled once every compile has succeeded and is otherwise rejected
    with the reason of the first compile to fail, the outcomes of the
    other entries not being reported. *)
Theorem fan_out_settles_one_promise schedule :
  0 < length includes →
  jobs s = [] →
  inflight s = [] →
  (∀ o, options = Some o → o < nextObject s) →
  length includes ≤ length schedule →
  let order :=
    completionOrder schedule (imap (λ k input, (k, input)) includes) in
  ∃ s0 s1 s' t,
    forEachRecursiveModuleCompile outputDir includes options s
      = (aggregate, s0) ∧
    drains E s0 s1 ∧
    inflight s1 = imap fanFlight includes ∧
    trace s1
    = trace s ++ EvNewCompiler (optionsValue options s)
              :: imap (λ k input, EvLoadStart (fanRequest k input)) includes ∧
    ends E schedule s0 s' ∧
    trace s' = trace s1 ++ t ∧
    order ≡ₚ imap (λ k input, (k, input)) includes ∧
    (∀ k input, includes !! k = Some input →
       EvLoadSettle (fanRequest k input) (load E (fanRequest k input)) ∈ t ∧
       (∀ w, loadOutcome E (fanSession k) fanValue input = Fulfilled w →
             EvWriteTree fanCompiler (fanTree k input) (fanFile input) ∈ t)) ∧
    promises s' !! aggregate
    = Some {| outcome :=
                Some match firstRejection order with
                     | Some reason => Rejected reason
                     | None =>
                         Fulfilled
                           (VArray (replicate (length includes) VUndefined))
                     end;
              reactions := [] |}.
Proof.
  intros Hpos Hj Hf Ho Hlen order.
  destruct (fan_start Hpos Hj Hf Ho) as (s0 & s1 & Hcall & Hd & Hfan & Htr).
  destruct (fan_runs (trace s1) schedule _ _ _ Hfan)
    as (s' & t & Hr & Hfan' & _).
  { by rewrite length_imap. }
  cbn [app] in Hfan'. fold order in Hfan'.
  destruct Hfan' as [Hj' Hin' _ _ Hcount Hperm _ Hagg (t' & Htr' & Hdone)].
  rewrite app_nil_r in Hperm. cbn [length] in Hcount.
  exists s0, s1, s', t'. split_and!; try done.
  - rewrite (fan_inflight _ _ _ _ Hfan), fmap_imap. done.
  - apply runs_ends; [|done]. by eapply drains_runs.
  - intros k input Hx. apply Hdone. rewrite Hperm.
    apply elem_of_lookup_imap. eauto.
  - rewrite Hagg. unfold aggregateCell.
    destruct (firstRejection order); [done|].
    by rewrite decide_True by lia.
Qed.

End FanOutRun.

Lemma fan_out_settles_one_promise_witness :
  (0 < length exampleFailing ∧
   jobs exampleStart = [] ∧ inflight exampleStart = [] ∧
   (∀ o, Some 0 = Some o → o < nextObject exampleStart) ∧
   length exampleFailing ≤ length [2; 0; 0]) ∧
  let E := exampleExternals in
  let order :=
    completionOrder [2; 0; 0]
      (imap (λ k input, (k, input)) exampleFailing) in
  ∃ s0 s1 s' t,
    forEachRecursiveModuleCompile "out" exampleFailing (Some 0) exampleStart
      = (aggregate exampleFailing exampleStart, s0) ∧
    drains E s0 s1 ∧
    inflight s1
    = imap (fanFlight E exampleFailing (Some 0) exampleStart) exampleFailing ∧
    trace s1
    = trace exampleStart
      ++ EvNewCompiler (optionsValue (Some 0) exampleStart)
         :: imap (λ k input,
                    EvLoadStart (fanRequest E (Some 0) exampleStart k input))
                 exampleFailing ∧
    ends E [2; 0; 0] s0 s' ∧
    trace s' = trace s1 ++ t ∧
    order ≡ₚ imap (λ k input, (k, input)) exampleFailing ∧
    (∀ k input, exampleFailing !! k = Some input →
       EvLoadSettle (fanRequest E (Some 0) exampleStart k input)
                    (load E (fanRequest E (Some 0) exampleStart k input)) ∈ t ∧
       (∀ w, loadOutcome E (fanSession (Some 0) exampleStart k)
                         (fanValue E (Some 0) exampleStart) input
             = Fulfilled w →
             EvWriteTree (fanCompiler (Some 0) exampleStart)
                         (fanTree E (Some 0) exampleStart k input)
                         (fanFile E "out" exampleStart input) ∈ t)) ∧
    promises s' !! aggregate exampleFailing exampleStart
    = Some {| outcome :=
                Some match firstRejection E "out" (Some 0) exampleStart order
                     with
                     | Some reason => Rejected reason
                     | None =>
                         Fulfilled
                           (VArray
                              (replicate (length exampleFailing) VUndefined))
                     end;
              reactions := [] |}.
Proof.
  split.
  - split_and!; [simpl; lia|reflexivity|reflexivity| |simpl; lia].
    intros o [= <-]. simpl. lia.
  - apply (fan_out_settles_one_promise exampleExternals "out" exampleFailing
             (Some 0) exampleStart [2; 0; 0]);
      [simpl; lia|reflexivity|reflexivity| |simpl; lia].
    intros o [= <-]. simpl. lia.
Defined.

(** C7 as stated fails: the caller is given one promise for the whole
    request. When the first entry fails, the promise is rejected with the
    reason of that entry whether the second entry fails, for its own
    reason, or succeeds and is written: nothing is reported for the second
    entry. *)
Lemma fan_out_reports_first_failure_only :
  let E := exampleExternals in
  let lost := {| name := "lost.js"; type := "module" |} in
  let gone := {| name := "gone.js"; type := "module" |} in
  let x := {| name := "x.js"; type := "module" |} in
  let callA :=
    forEachRecursiveModuleCompile "out" [lost; gone] (Some 0) exampleStart in
  let callB :=
    forEachRecursiveModuleCompile "out" [lost; x] (Some 0) exampleStart in
  let endA := run E 16 [0; 0] callA.2 in
  let endB := run E 16 [0; 0] callB.2 in
  jobs endA = [] ∧ inflight endA = [] ∧
  jobs endB = [] ∧ inflight endB = [] ∧
  fanOutcome E "out" (Some 0) exampleStart 1 gone
  = Rejected (VError "gone.js: not found") ∧
  fanOutcome E "out" (Some 0) exampleStart 1 x = Fulfilled VUndefined ∧
  writesAttempted (trace endA) = [] ∧
  writesAttempted (trace endB)
  = [(VTree [Compiled "x.js"; EvaluateModule "x.js"], "/w/out/x.js")] ∧
  callA.1 = callB.1 ∧
  promises endA !! callA.1
  = Some {| outcome := Some (Rejected (VError "lost.js: not found"));
            reactions := [] |} ∧
  promises endB !! callB.1 = promises endA !! callA.1.
Proof. vm_compute. by split_and!. Qed.

(** * Further properties of the code *)

(** ** The single-file path: how the returned promise settles *)

Section SingleFileOutcomes.

Variable E : Externals.

Lemma loadRequests_app t1 t2 :
  loadRequests (t1 ++ t2) = loadRequests t1 ++ loadRequests t2.
Proof. apply omap_app. Qed.

Lemma writesAttempted_app t1 t2 :
  writesAttempted (t1 ++ t2) = writesAttempted t1 ++ writesAttempted t2.
Proof. apply omap_app. Qed.

(** X1. [function(err) { revertCwd(); throw err; }]: when the load of entry
    [i] is the first to fail, the promise the single-file path returns is
    rejected with the reason of that load; the entries after [i] are never
    handed to the loader, [writeTreeToFile] is not called, and the working
    directory is the one captured at module load. *)
Theorem single_file_load_failure outputFile includes o v0 s schedule i reason :
  objects s !! o = Some v0 →
  o < nextObject s →
  jobs s = [] →
  inflight s = [] →
  length includes ≤ length schedule →
  let file := Path.resolve (cwd s) outputFile in
  let dir := dirname E file in
  let v := set_bundle (bool_decide (1 < length includes)) v0 in
  let items := rewrittenIncludes E dir includes s in
  let sess := sessionOf (Some o) (prepared dir o v s) in
  firstFailure E sess v items i reason →
  ∃ r s7 s' t,
    recursiveModuleCompileToSingleFile E outputFile includes (Some o) s
      = (Returned r, items, s7) ∧
    ends E schedule s7 s' ∧
    trace s' = trace s ++ t ∧
    promises s' !! r
    = Some {| outcome := Some (Rejected reason); reactions := [] |} ∧
    loadRequests t = map (requestFor sess v) (take (S i) items) ∧
    writesAttempted t = [] ∧
    cwd s' = moduleCwd s.
Proof.
  intros Ho Hlt Hj Hf Hs file dir v items sess Hfail.
  destruct (singleFile_run E outputFile includes o v0 s schedule)
    as (s7 & s' & Heq & Hr & Hj' & Hf' & Htr & Hp & Hc & _); try done.
  fold file dir v items sess in Heq, Htr, Hp.
  destruct (firstFailure_outcome E sess v items i reason Hfail)
    as [Hout Hst].
  rewrite Hout in Htr, Hp. cbn [singleFileEnd fst snd] in Htr, Hp.
  eexists _, s7, s', _. split_and!; [exact Heq|by apply runs_ends|exact Htr|..].
  - exact Hp.
  - rewrite !loadRequests_app, loadsTrace_requests, Hst. cbn.
    by rewrite app_nil_r.
  - by rewrite !writesAttempted_app, loadsTrace_no_write.
  - exact Hc.
Qed.

(** X2. When every load succeeds, [writeTreeToFile] is called exactly once,
    after the loads, with the merged tree and the output file resolved
    against the working directory of the call. The returned promise is
    fulfilled with [undefined] when the write returns and rejected with the
    error the write throws otherwise; in both cases the working directory
    has been put back. *)
Theorem single_file_success outputFile includes o v0 s schedule :
  objects s !! o = Some v0 →
  o < nextObject s →
  jobs s = [] →
  inflight s = [] →
  length includes ≤ length schedule →
  let file := Path.resolve (cwd s) outputFile in
  let dir := dirname E file in
  let v := set_bundle (bool_decide (1 < length includes)) v0 in
  let items := rewrittenIncludes E dir includes s in
  let sess := sessionOf (Some o) (prepared dir o v s) in
  let compiler := {| compilerOptions := Some v |} in
  let tree :=
    treeResult (depTarget v) (flat_map (contribution E sess v) items) in
  Forall (λ item, ∃ w, replyOutcome (replyFor E sess v item) = inl w) items →
  ∃ r s7 s' t,
    recursiveModuleCompileToSingleFile E outputFile includes (Some o) s
      = (Returned r, items, s7) ∧
    ends E schedule s7 s' ∧
    trace s' = trace s ++ t ∧
    loadRequests t = map (requestFor sess v) items ∧
    writesAttempted t = [(tree, file)] ∧
    promises s' !! r
    = Some {| outcome :=
                Some match writeFailure E compiler tree file with
                     | Some err => Rejected err
                     | None => Fulfilled VUndefined
                     end;
              reactions := [] |} ∧
    cwd s' = moduleCwd s.
Proof.
  intros Ho Hlt Hj Hf Hs file dir v items sess compiler tree Hall.
  destruct (singleFile_run E outputFile includes o v0 s schedule)
    as (s7 & s' & Heq & Hr & Hj' & Hf' & Htr & Hp & Hc & _); try done.
  fold file dir v items sess compiler in Heq, Htr, Hp.
  destruct (all_loaded E sess v items Hall) as [Hout Hst].
  unfold loadsElements in Htr, Hp. rewrite Hout, Hst in Htr, Hp.
  fold tree in Htr, Hp. cbn [singleFileEnd fst snd] in Htr, Hp.
  fold tree in Htr, Hp.
  eexists _, s7, s', _. split_and!; [exact Heq|by apply runs_ends|exact Htr|..].
  - rewrite !loadRequests_app, loadsTrace_requests, Hst. cbn.
    by rewrite app_nil_r.
  - by rewrite !writesAttempted_app, loadsTrace_no_write.
  - exact Hp.
  - exact Hc.
Qed.

(** X3. What the call has done when it returns, before any job runs: the
    compiler is constructed, the output directory (the directory of the
    resolved output file) is created and entered, in that order, and the
    process stays there while the compile runs; no load has been started and
    the returned promise is pending. The entries of the caller have been
    renamed: each name, resolved against the working directory of the call,
    is made relative to the output directory. *)
Theorem single_file_call_effects outputFile includes o v0 s :
  objects s !! o = Some v0 →
  let dir := dirname E (Path.resolve (cwd s) outputFile) in
  let v := set_bundle (bool_decide (1 < length includes)) v0 in
  ∃ r s7 j,
    recursiveModuleCompileToSingleFile E outputFile includes (Some o) s
      = (Returned r,
         map (λ include,
                set_name
                  (normalizePath E
                     (relative E dir dir
                        (Path.resolve (cwd s) (name include))))
                  include)
             includes,
         s7) ∧
    cwd s7 = dir ∧
    trace s7 = trace s ++ [EvNewCompiler (Some v); EvMkdir dir; EvChdir dir] ∧
    inflight s7 = inflight s ∧
    jobs s7 = jobs s ++ [j] ∧
    promises s7 !! r = Some {| outcome := None; reactions := [] |}.
Proof.
  intros Ho dir v.
  rewrite (singleFile_chain E outputFile includes o v0 s Ho).
  fold dir v.
  set (items := rewrittenIncludes E dir includes s).
  set (s4 := prepared dir o v s).
  destruct (chainThen_built
              (singleFileHandlers items o v (Path.resolve (cwd s) outputFile) s4)
              (withElements s4)) as (s7 & Hc & Hb).
  { unfold singleFileHandlers. by destruct items. }
  rewrite Hc. cbn [fst snd].
  pose proof (built_world _ _ _ Hb) as (Hcwd & _ & _ & _ & Hin & Htr).
  destruct (singleFileHandlers items o v _ s4) as [|[f g] ks] eqn:Hhs.
  { unfold singleFileHandlers in Hhs. by destruct items. }
  destruct Hb as (Hjobs & Hpipe & _).
  eexists _, s7, _. split_and!.
  - f_equal. f_equal. unfold items, rewrittenIncludes, resolveIncludes.
    cbn [fst]. rewrite map_map. apply map_ext. by intros [n ty].
  - by rewrite Hcwd.
  - rewrite Htr. cbn. by rewrite <- !app_assoc.
  - by rewrite Hin.
  - exact Hjobs.
  - apply pipeline_last in Hpipe. cbn [length].
    replace (nextPromise (withElements s4) + S (length ks))
      with (S (nextPromise (withElements s4)) + length ks) by lia.
    exact Hpipe.
Qed.


(** X5. With no entry at all the single-file path still constructs the
    compiler, with [bundle] false, calls the loader for nothing and writes
    the tree of no element (or [null] under [depTarget]) to the output file. *)
Theorem single_file_no_entries outputFile o v0 s schedule :
  objects s !! o = Some v0 →
  o < nextObject s →
  jobs s = [] →
  inflight s = [] →
  ∃ r s7 s' t,
    recursiveModuleCompileToSingleFile E outputFile [] (Some o) s
      = (Returned r, [], s7) ∧
    ends E schedule s7 s' ∧
    trace s' = trace s ++ t ∧
    compilersBuilt t = [Some (set_bundle false v0)] ∧
    loadRequests t = [] ∧
    writesAttempted t
    = [(treeResult (depTarget v0) [], Path.resolve (cwd s) outputFile)] ∧
    objects s' !! o = Some (set_bundle false v0).
Proof.
  intros Ho Hlt Hj Hf.
  destruct (singleFile_run E outputFile [] o v0 s schedule)
    as (s7 & s' & Heq & Hr & Hj' & Hf' & Htr & Hp & Hc & _ & Hobj & _);
    [done..|cbn; lia|].
  cbn in Heq, Htr, Hobj.
  eexists _, s7, s', _.
  split_and!; [exact Heq|by apply runs_ends|exact Htr|done..].
Qed.

End SingleFileOutcomes.

(** ** [recursiveModuleCompile]: edge cases and what it leaves alone *)

Section CompileEdges.

Variable E : Externals.

(** X8. The call itself loads nothing: [Promise.resolve().then(...)] defers
    even the first [loadInput] to a job. When [recursiveModuleCompile]
    returns, its promise is pending, one job has been queued, the fresh
    [elements] array is empty, and the log, the loads in flight, the working
    directory and the option objects are as they were. *)
Theorem compile_call_defers_loads items options s :
  ∃ p s1 j,
    recursiveModuleCompile items options s = (p, s1) ∧
    promises s1 !! p = Some {| outcome := None; reactions := [] |} ∧
    jobs s1 = jobs s ++ [j] ∧
    trace s1 = trace s ∧
    inflight s1 = inflight s ∧
    arrays s1 !! nextArray s = Some [] ∧
    cwd s1 = cwd s ∧
    objects s1 = objects s.
Proof.
  rewrite recursiveModuleCompile_chain.
  destruct (chainThen_built (compileHandlers items options s) (withElements s))
    as (s1 & Hc & Hb).
  { unfold compileHandlers. by destruct items. }
  rewrite Hc.
  pose proof (built_world _ _ _ Hb) as (Hcwd & _ & Hobj & Harr & Hin & Htr).
  destruct (compileHandlers items options s) as [|[f g] ks] eqn:Hhs.
  { unfold compileHandlers in Hhs. by destruct items. }
  destruct Hb as (Hjobs & Hpipe & _).
  eexists _, s1, _. split_and!; [done| |exact Hjobs|done..| |done|done].
  - apply pipeline_last in Hpipe. cbn [length].
    replace (nextPromise (withElements s) + S (length ks))
      with (S (nextPromise (withElements s)) + length ks) by lia.
    exact Hpipe.
  - rewrite Harr. cbn. by rewrite lookup_insert_eq.
Qed.

(** X9. An empty list: no load is started and the promise is fulfilled by
    the first job, with the tree of no element, or with [null] when
    [depTarget] is set. *)
Theorem compile_no_entries options s schedule :
  jobs s = [] →
  inflight s = [] →
  let result := treeResult (depTargetOf options s) [] in
  ∃ p s1 s',
    recursiveModuleCompile [] options s = (p, s1) ∧
    ends E schedule s1 s' ∧
    trace s' = trace s ++ [EvSettle p (Fulfilled result)] ∧
    promises s' !! p
    = Some {| outcome := Some (Fulfilled result); reactions := [] |}.
Proof.
  intros Hj Hf result.
  rewrite recursiveModuleCompile_chain.
  destruct (chainThen_built (compileHandlers [] options s) (withElements s))
    as (s1 & Hc & Hb); [done|].
  rewrite Hc.
  pose proof (built_world _ _ _ Hb) as (_ & _ & _ & Harr & Hin & Htr).
  cbn in Hb. destruct Hb as (Hjobs & Hpipe & _).
  rewrite Hj in Hjobs. cbn in Hjobs.
  destruct (compile_tail E (sessionOf options s) (depTargetOf options s)
              (S (nextPromise s)) (Fulfilled VUndefined) [] s1 schedule)
    as (s' & Hr & Hj' & Hf' & Htr' & Hp' & _).
  { split; [exact Hjobs|exact Hpipe]. }
  { by rewrite Hin. }
  { rewrite Harr. cbn. by rewrite lookup_insert_eq. }
  cbn in Htr', Hp'. fold result in Htr', Hp'.
  exists (S (nextPromise s)), s1, s'. split_and!.
  - f_equal. cbn. lia.
  - by apply runs_ends.
  - by rewrite Htr', Htr.
  - rewrite Hp'. by rewrite lookup_insert_eq.
Qed.

(** X10. [options && options.depTarget]: without an options object the
    compile works with the defaults. Every load is handed a fresh default
    option set and no referrer, and the promise is never fulfilled with
    [null]: it is fulfilled with the tree of the elements, or rejected by a
    load. *)
Theorem compile_without_options items s schedule :
  jobs s = [] →
  inflight s = [] →
  length items ≤ length schedule →
  ∃ p s1 s' t elems out,
    recursiveModuleCompile items None s = (p, s1) ∧
    ends E schedule s1 s' ∧
    trace s' = trace s ++ t ∧
    Forall (λ req, traceurOptions req = defaultOptions E ∧
                   referrerName req = None)
           (loadRequests t) ∧
    arrays s' !! nextArray s = Some elems ∧
    promises s' !! p = Some {| outcome := Some out; reactions := [] |} ∧
    (out = Fulfilled (VTree elems) ∨ ∃ reason, out = Rejected reason).
Proof.
  intros Hj Hf Hs.
  destruct (compile_run E items None s schedule Hj Hf)
    as (s1 & s' & Heq & Hr & Hj' & Hf' & Htr & Hp & Ha & _); [done..|].
  eexists _, s1, s', _, _, _.
  split_and!; [exact Heq|by apply runs_ends|exact Htr| |exact Ha|exact Hp|].
  - rewrite loadRequests_app, loadsTrace_requests. cbn. rewrite app_nil_r.
    apply Forall_map, Forall_true. by intros item.
  - unfold depTargetOf. cbn.
    destruct (loadsOutcome _ _ _ _); cbn; eauto.
Qed.

Lemma contribution_plain sess v item :
  evaluates v item = false →
  contribution E sess v item = replyElements (replyFor E sess v item).
Proof.
  intros H. unfold contribution. rewrite H.
  destruct (replyOutcome _); by rewrite app_nil_r.
Qed.

Lemma flat_map_Forall_ext {A B} (f g : A → list B) l :
  Forall (λ x, f x = g x) l → flat_map f l = flat_map g l.
Proof. induction 1 as [|x l Hx _ IH]; [done|]. cbn. by rewrite Hx, IH. Qed.

(** X11. [appendEvaluateModule] is called for nothing but a module whose
    options say [modules: 'register']: when the option has another value, or
    when every entry is a script, the compile adds no element of its own,
    and the array holds exactly what the loader appended for the entries it
    was handed, in their order. *)
Theorem no_marker_without_register items options s schedule :
  jobs s = [] →
  inflight s = [] →
  (∀ o, options = Some o → o < nextObject s) →
  length items ≤ length schedule →
  let sess := sessionOf options s in
  let v := clonedValue E options s in
  modules v ≠ Some "register" ∨ Forall (λ item, type item = "script") items →
  ∃ p s1 s',
    recursiveModuleCompile items options s = (p, s1) ∧
    ends E schedule s1 s' ∧
    arrays s' !! nextArray s
    = Some (flat_map (λ item, replyElements (replyFor E sess v item))
                     (started E sess v items)).
Proof.
  intros Hj Hf Ho Hs sess v Hplain.
  destruct (compile_run E items options s schedule Hj Hf Ho Hs)
    as (s1 & s' & Heq & Hr & Hj' & Hf' & _ & _ & Ha & _).
  fold sess v in Ha.
  eexists _, s1, s'. split_and!; [exact Heq|by apply runs_ends|].
  rewrite Ha. f_equal. unfold loadsElements.
  apply flat_map_Forall_ext.
  destruct (started_prefix E sess v items) as [rest Hrest].
  destruct Hplain as [Hmod|Hscripts].
  - apply Forall_true. intros item. apply contribution_plain.
    unfold evaluates. destruct (bool_decide (type item = "script")); [done|].
    by apply bool_decide_eq_false_2.
  - rewrite Hrest in Hscripts. apply Forall_app in Hscripts as [Hscripts _].
    eapply Forall_impl; [exact Hscripts|]. intros item Hty. cbn beta in Hty.
    apply contribution_plain. unfold evaluates.
    by rewrite bool_decide_eq_true_2.
Qed.

(** [basePath.replace(/\\/g, '/')] *)
Fixpoint hasBackslash (p : string) : bool :=
  match p with
  | EmptyString => false
  | String c rest => bool_decide (c = "\"%char) || hasBackslash rest
  end.

Lemma replaceBackslashes_clean p : hasBackslash (replaceBackslashes p) = false.
Proof.
  induction p as [|c p IH]; [done|]. cbn. rewrite IH, orb_false_r.
  destruct (bool_decide (c = "\"%char)) eqn:Hc; [done|exact Hc].
Qed.

Lemma replaceBackslashes_app p q :
  replaceBackslashes (p +:+ q) = replaceBackslashes p +:+ replaceBackslashes q.
Proof. induction p as [|c p IH]; [done|]. simpl. rewrite IH. reflexivity. Qed.

Lemma replaceBackslashes_plain p :
  hasBackslash p = false → replaceBackslashes p = p.
Proof.
  induction p as [|c p IH]; [done|]. cbn. intros [H1 H2]%orb_false_elim.
  rewrite IH by done. by rewrite H1.
Qed.

(** X12. The base path every load of a compile is handed is the working
    directory at the call, resolved, with a slash appended and every
    backslash turned into a slash: it holds no backslash and ends in a
    slash, and it is the resolved directory itself followed by a slash when
    that one holds no backslash. *)
Theorem loader_base_path items options s schedule :
  jobs s = [] →
  inflight s = [] →
  (∀ o, options = Some o → o < nextObject s) →
  length items ≤ length schedule →
  let here := Path.resolve (cwd s) "./" in
  ∃ p s1 s' t,
    recursiveModuleCompile items options s = (p, s1) ∧
    ends E schedule s1 s' ∧
    trace s' = trace s ++ t ∧
    Forall (λ req,
              hasBackslash (loaderBasePath req) = false ∧
              loaderBasePath req = replaceBackslashes here +:+ "/" ∧
              (hasBackslash here = false →
               loaderBasePath req = here +:+ "/"))
           (loadRequests t).
Proof.
  intros Hj Hf Ho Hs here.
  destruct (compile_run E items options s schedule Hj Hf Ho Hs)
    as (s1 & s' & Heq & Hr & Hj' & Hf' & Htr & _).
  eexists _, s1, s', _.
  split_and!; [exact Heq|by apply runs_ends|exact Htr|].
  rewrite loadRequests_app, loadsTrace_requests. cbn. rewrite app_nil_r.
  apply Forall_map, Forall_true. intros item. cbn. fold here.
  split_and!.
  - apply replaceBackslashes_clean.
  - by rewrite replaceBackslashes_app.
  - intros Hplain. rewrite replaceBackslashes_app.
    by rewrite replaceBackslashes_plain.
Qed.

End CompileEdges.

(** ** The fan-out path: how the promise of [Promise.all] settles *)

Section FanOutOutcomes.

Variable E : Externals.
Variable outputDir : string.
Variable includes : list Entry.
Variable options : option nat.
Variable s : State.

Lemma firstRejection_none D :
  firstRejection E outputDir options s D = None ↔
  Forall (λ ki, fulfils (fanOutcome E outputDir options s ki.1 ki.2) = true) D.
Proof.
  induction D as [|[k input] D IH]; cbn; [by split; [constructor|]|].
  rewrite Forall_cons. cbn.
  destruct (fanOutcome E outputDir options s k input); cbn.
  - rewrite IH. by split; [|intros [_ ?]].
  - by split; [|intros [? _]].
Qed.

Lemma firstRejection_some D reason :
  firstRejection E outputDir options s D = Some reason →
  ∃ k input, (k, input) ∈ D ∧
    fanOutcome E outputDir options s k input = Rejected reason.
Proof.
  induction D as [|[k input] D IH]; cbn; [done|].
  destruct (fanOutcome E outputDir options s k input) as [w|r] eqn:Hout.
  - intros (k' & input' & Hel & H)%IH. exists k', input'.
    split; [by right|done].
  - intros [= ->]. exists k, input. split; [left|done].
Qed.

(** The whole of a fan-out compile: the call, the run, and the state of
    [Promise.all] at the end. *)
Lemma fan_out_run schedule :
  0 < length includes →
  jobs s = [] →
  inflight s = [] →
  (∀ o, options = Some o → o < nextObject s) →
  length includes ≤ length schedule →
  ∃ s0 s' order,
    forEachRecursiveModuleCompile outputDir includes options s
      = (aggregate includes s, s0) ∧
    ends E schedule s0 s' ∧
    order ≡ₚ imap (λ k input, (k, input)) includes ∧
    promises s' !! aggregate includes s
    = Some (aggregateCell E outputDir includes options s order).
Proof.
  intros Hpos Hj Hf Ho Hlen.
  destruct (fan_start E outputDir includes options s Hpos Hj Hf Ho)
    as (s0 & s1 & Hcall & Hd & Hfan & Htr).
  destruct (fan_runs E outputDir includes options s (trace s1) schedule
              _ _ _ Hfan) as (s' & t & Hr & Hfan' & _).
  { by rewrite length_imap. }
  cbn [app] in Hfan'.
  destruct Hfan' as [Hj' Hin' _ _ Hcount Hperm _ Hagg _].
  rewrite app_nil_r in Hperm.
  eexists s0, s', _. split_and!; [exact Hcall| |exact Hperm|exact Hagg].
  apply runs_ends; [|done]. by eapply drains_runs.
Qed.

(** X15. The promise the fan-out path returns is fulfilled, with an array of
    [undefined], one per entry, exactly when every compile succeeds: the
    load is fulfilled and the write does not throw. Otherwise it is
    rejected, and the reason is the one of an entry that failed. *)
Theorem fan_out_outcome schedule :
  0 < length includes →
  jobs s = [] →
  inflight s = [] →
  (∀ o, options = Some o → o < nextObject s) →
  length includes ≤ length schedule →
  ∃ s0 s' out,
    forEachRecursiveModuleCompile outputDir includes options s
      = (aggregate includes s, s0) ∧
    ends E schedule s0 s' ∧
    promises s' !! aggregate includes s
    = Some {| outcome := Some out; reactions := [] |} ∧
    ((∀ k input, includes !! k = Some input →
        fanOutcome E outputDir options s k input = Fulfilled VUndefined) →
     out = Fulfilled (VArray (replicate (length includes) VUndefined))) ∧
    (∀ w, out = Fulfilled w →
       ∀ k input, includes !! k = Some input →
         fanOutcome E outputDir options s k input = Fulfilled VUndefined) ∧
    (∀ reason, out = Rejected reason →
       ∃ k input, includes !! k = Some input ∧
         fanOutcome E outputDir options s k input = Rejected reason).
Proof.
  intros Hpos Hj Hf Ho Hlen.
  destruct (fan_out_run schedule Hpos Hj Hf Ho Hlen)
    as (s0 & s' & order & Hcall & Hends & Hperm & Hagg).
  assert (Hlen' : length order = length includes).
  { by rewrite Hperm, length_imap. }
  assert (Hel : ∀ k input, (k, input) ∈ order ↔ includes !! k = Some input).
  { intros k input. rewrite Hperm, elem_of_lookup_imap. split.
    - by intros (k' & input' & [= -> ->] & ?).
    - intros ?. by exists k, input. }
  unfold aggregateCell in Hagg.
  destruct (firstRejection E outputDir options s order) as [reason|] eqn:Hrej.
  - apply firstRejection_some in Hrej as (k & input & Hin & Hout).
    apply Hel in Hin.
    exists s0, s', (Rejected reason). split_and!; [done..| | |].
    + intros Hall. rewrite (Hall k input Hin) in Hout. done.
    + done.
    + intros ? [= <-]. eauto.
  - rewrite decide_True in Hagg by done.
    apply firstRejection_none in Hrej.
    eexists s0, s', _. split_and!; [done..| | |done].
    + done.
    + intros w _ k input Hin. apply Hel in Hin.
      rewrite Forall_forall in Hrej. specialize (Hrej _ Hin). cbn in Hrej.
      destruct (fanOutcome E outputDir options s k input) as [w'|] eqn:Hout;
        [|done].
      by apply fanOutcome_fulfilled in Hout as ->.
Qed.

End FanOutOutcomes.

(** X16. [Promise.all([])]: with no entry the fan-out path constructs the
    compiler and returns a promise that is fulfilled already, with the empty
    array; nothing is queued and no load is started. *)
Theorem fan_out_no_entries outputDir options s :
  ∃ s',
    forEachRecursiveModuleCompile outputDir [] options s
      = (nextPromise s, s') ∧
    promises s' !! nextPromise s
    = Some {| outcome := Some (Fulfilled (VArray [])); reactions := [] |} ∧
    jobs s' = jobs s ∧
    inflight s' = inflight s ∧
    trace s'
    = trace s ++ [EvNewCompiler (optionsValue options s);
                  EvSettle (nextPromise s) (Fulfilled (VArray []))] ∧
    cwd s' = cwd s.
Proof.
  unfold forEachRecursiveModuleCompile, newNodeCompiler, mapGetPromise,
    promiseAll, newPromise, settle.
  cbn. rewrite lookup_insert_eq. cbn. rewrite decide_True by done.
  eexists. split_and!; [done|cbn..].
  - by rewrite lookup_insert_eq.
  - by rewrite app_nil_r.
  - done.
  - by rewrite <- app_assoc.
  - done.
Qed.

(** ** What the compiles never do to the working directory *)

(** The handlers that call [revertCwd]. *)
Definition reverting (k : option Cont) : bool :=
  match k with
  | Some KRevertCwd | Some KRevertThrow => true
  | _ => false
  end.

Definition reverts (r : Reaction) : bool :=
  match r with
  | RThen f g _ => reverting f || reverting g
  | _ => false
  end.

(** No handler that calls [revertCwd] is registered on a promise or queued
    as a job: no single-file compile is under way. *)
Definition revertFree (s : State) : Prop :=
  map_Forall (λ _ c, Forall (λ r, reverts r = false) (reactions c))
             (promises s) ∧
  Forall (λ j, reverts j.1 = false) (jobs s).

Definition isDirectoryEvent (e : Event) : bool :=
  match e with
  | EvMkdir _ | EvChdir _ => true
  | _ => false
  end.

(** The directories created and entered, oldest first. *)
Definition directoryEvents (t : list Event) : list Event :=
  filter (λ e, isDirectoryEvent e = true) t.

(** [calm s s']: from [s] to [s'] the working directory is not changed, no
    directory is created, and no handler that calls [revertCwd] appears. *)
Definition calm (s s' : State) : Prop :=
  cwd s' = cwd s ∧ moduleCwd s' = moduleCwd s ∧
  directoryEvents (trace s') = directoryEvents (trace s) ∧
  (revertFree s → revertFree s').

Section Calm.

Variable E : Externals.

Lemma calm_refl s : calm s s.
Proof. by split_and!. Qed.

Lemma calm_trans s1 s2 s3 : calm s1 s2 → calm s2 s3 → calm s1 s3.
Proof.
  intros (H1 & H2 & H3 & H4) (K1 & K2 & K3 & K4).
  split_and!; [congruence..|auto].
Qed.

Lemma directoryEvents_snoc t e :
  isDirectoryEvent e = false → directoryEvents (t ++ [e]) = directoryEvents t.
Proof.
  intros He. unfold directoryEvents. rewrite filter_app.
  rewrite filter_cons_False by (by rewrite He). by rewrite filter_nil, app_nil_r.
Qed.

Lemma calm_log e s : isDirectoryEvent e = false → calm s (log e s).
Proof.
  intros He. split_and!; [done|done| |done].
  by apply directoryEvents_snoc.
Qed.

Lemma calm_cell p c n s :
  Forall (λ r, reverts r = false) (reactions c) →
  calm s (with_promises (<[p := c]> (promises s)) n s).
Proof.
  intros Hc. split_and!; [done..|]. intros [Hm Hj]. split; [|done]. cbn.
  by apply map_Forall_insert_2.
Qed.

Lemma calm_queue js s :
  Forall (λ j, reverts j.1 = false) js → calm s (with_jobs (jobs s ++ js) s).
Proof.
  intros Hjs. split_and!; [done..|]. intros [Hm Hj]. split; [done|]. cbn.
  by apply Forall_app.
Qed.

Lemma calm_arrays m n s : calm s (with_arrays m n s).
Proof. by split_and!. Qed.

Lemma calm_objects m n s : calm s (with_objects m n s).
Proof. by split_and!. Qed.

Lemma calm_aggregates m s : calm s (with_aggregates m s).
Proof. by split_and!. Qed.

Lemma calm_inflight fs s : calm s (with_inflight fs s).
Proof. by split_and!. Qed.

Lemma calm_newPromise o s : calm s (newPromise o s).2.
Proof. apply calm_cell. constructor. Qed.

Lemma calm_settle p o s : calm s (settle p o s).
Proof.
  unfold settle.
  destruct (promises s !! p) as [[[o'|] rs]|] eqn:Hp; try apply calm_refl.
  split_and!; [done|done|by apply directoryEvents_snoc|].
  intros [Hm Hj]. split; cbn.
  - apply map_Forall_insert_2; [constructor|done].
  - apply Forall_app. split; [done|]. apply Forall_map.
    specialize (Hm p _ Hp). cbn in Hm.
    eapply Forall_impl; [exact Hm|done].
Qed.

Lemma calm_subscribe p r s : reverts r = false → calm s (subscribe p r s).
Proof.
  intros Hr. unfold subscribe.
  destruct (promises s !! p) as [[[o'|] rs]|] eqn:Hp; try apply calm_refl.
  - apply calm_queue. by repeat constructor.
  - split_and!; [done..|]. intros [Hm Hj]. split; [|done]. cbn.
    apply map_Forall_insert_2; [|done]. cbn.
    apply Forall_app. split; [exact (Hm p _ Hp)|by repeat constructor].
Qed.

Lemma calm_then p f g s :
  reverting f = false → reverting g = false → calm s (then_ p f g s).2.
Proof.
  intros Hf Hg. unfold then_.
  pose proof (calm_newPromise None s) as H1.
  destruct (newPromise None s) as [q s1]. cbn [snd] in *.
  eapply calm_trans; [exact H1|]. apply calm_subscribe. cbn.
  by rewrite Hf, Hg.
Qed.

Lemma calm_resolvePromise q c s : calm s (resolvePromise q c s).
Proof.
  destruct c as [v|y|r]; cbn; try apply calm_settle.
  destruct (promises s !! y) as [[[o'|] rs]|]; try apply calm_refl.
  - apply calm_settle.
  - by apply calm_subscribe.
Qed.

Lemma calm_settledAt index agg o s : calm s (settledAt index agg o s).
Proof.
  destruct o as [v|r]; cbn; [|apply calm_settle].
  destruct (aggregates s !! agg) as [[remaining result]|]; [|apply calm_refl].
  case_decide; [|apply calm_aggregates].
  eapply calm_trans; [apply calm_aggregates|apply calm_settle].
Qed.

Lemma calm_foldl {A} (f : State → A → State) l :
  (∀ st x, calm st (f st x)) → ∀ s, calm s (foldl f s l).
Proof.
  intros Hf. induction l as [|x l IH]; intros s; [apply calm_refl|].
  cbn. eapply calm_trans; [apply Hf|apply IH].
Qed.

Lemma calm_promiseAll ps s : calm s (promiseAll ps s).2.
Proof.
  unfold promiseAll.
  pose proof (calm_newPromise None s) as H1.
  destruct (newPromise None s) as [agg s1]. cbn [snd] in *.
  eapply calm_trans; [exact H1|].
  eapply calm_trans; [apply calm_aggregates|].
  eapply calm_trans; [|apply calm_foldl].
  - case_decide; [apply calm_settle|apply calm_refl].
  - intros st [i p]. cbn.
    destruct (promises st !! p) as [[[o'|] rs]|];
      first [apply calm_settledAt|by apply calm_subscribe].
Qed.

Lemma calm_loadInput sess input s : calm s (loadInput E sess input s).2.
Proof.
  unfold loadInput, newOptions, callLoader.
  set (s1 := with_objects _ _ s).
  destruct (if bool_decide (type input = "script") then _ else _)
    as [loadFunction doEvaluateModule].
  pose proof (calm_newPromise None s1) as H1.
  destruct (newPromise None s1) as [x s2]. cbn [snd] in H1.
  set (s3 := log _ _).
  pose proof (calm_then x (Some (KAfterLoad sess doEvaluateModule (name input)))
                None s3 eq_refl eq_refl) as H3.
  destruct (then_ x _ None s3) as [y s4]. cbn [snd] in *.
  eapply calm_trans; [apply calm_objects|].
  eapply calm_trans; [exact H1|].
  eapply calm_trans; [|exact H3].
  eapply calm_trans; [apply calm_inflight|by apply calm_log].
Qed.

Lemma calm_writeTreeToFile compiler tree file s :
  calm s (writeTreeToFile E compiler tree file s).2.
Proof.
  unfold writeTreeToFile. destruct (writeFailure E compiler tree file);
    by apply calm_log.
Qed.

Lemma calm_invoke k arg s :
  reverting (Some k) = false → calm s (invoke E k arg s).2.
Proof.
  destruct k as [sess item|sess b n|sess dep|compiler file|compiler dir input| |];
    cbn; try done; intros _.
  - apply calm_loadInput.
  - destruct b; [apply calm_arrays|apply calm_refl].
  - destruct (truthy dep); apply calm_refl.
  - pose proof (calm_writeTreeToFile compiler arg file s) as H.
    destruct (writeTreeToFile _ _ _ _ _) as [[v|p|r] s1]; exact H.
  - pose proof (calm_writeTreeToFile compiler arg
                  (pathJoin E dir (name input)) s) as H.
    destruct (writeTreeToFile _ _ _ _ _) as [[v|p|r] s1]; exact H.
Qed.

Lemma calm_runJob j s : reverts j.1 = false → calm s (runJob E j s).
Proof.
  destruct j as [[f g q|q|index agg] o]; cbn.
  - intros [Hf Hg]%orb_false_elim.
    destruct o as [v|r].
    + destruct f as [k|]; [|apply calm_settle].
      pose proof (calm_invoke k v s Hf) as H.
      destruct (invoke E k v s) as [c s1].
      eapply calm_trans; [exact H|apply calm_resolvePromise].
    + destruct g as [k|]; [|apply calm_settle].
      pose proof (calm_invoke k r s Hg) as H.
      destruct (invoke E k r s) as [c s1].
      eapply calm_trans; [exact H|apply calm_resolvePromise].
  - intros _. apply calm_settle.
  - intros _. apply calm_settledAt.
Qed.

Lemma calm_drain fuel : ∀ s, revertFree s → calm s (drain E fuel s).
Proof.
  induction fuel as [|fuel IH]; intros s Hs; [apply calm_refl|].
  cbn. destruct (jobs s) as [|j js] eqn:Hj; [apply calm_refl|].
  destruct Hs as [Hm Hjs]. rewrite Hj in Hjs.
  apply Forall_cons in Hjs as [Hhead Htail].
  assert (H0 : revertFree (with_jobs js s)) by (by split).
  pose proof (calm_runJob j (with_jobs js s) Hhead) as H1.
  eapply calm_trans; [|apply IH, H1, H0].
  eapply calm_trans; [|exact H1].
  by split_and!.
Qed.

Lemma calm_complete i s : calm s (complete E i s).
Proof.
  unfold complete. destruct (inflight s !! i) as [fl|]; [|apply calm_refl].
  eapply calm_trans; [|apply calm_settle].
  eapply calm_trans; [|by apply calm_log].
  eapply calm_trans; [|apply calm_arrays].
  eapply calm_trans; [|apply calm_objects].
  apply calm_inflight.
Qed.

Lemma calm_run fuel schedule : ∀ s,
  revertFree s → calm s (run E fuel schedule s).
Proof.
  induction schedule as [|i rest IH]; intros s Hs; cbn.
  - by apply calm_drain.
  - pose proof (calm_drain fuel s Hs) as H1.
    pose proof (calm_complete (i `mod` length (inflight (drain E fuel s)))
                  (drain E fuel s)) as H2.
    eapply calm_trans; [exact H1|].
    eapply calm_trans; [exact H2|].
    apply IH, H2, H1, Hs.
Qed.

Lemma calm_chainThen hs : ∀ start,
  Forall (λ h, reverting h.1 = false ∧ reverting h.2 = false) hs →
  calm start.2 (chainThen hs start).2.
Proof.
  induction hs as [|[f g] hs IH]; intros [p s] Hhs; [apply calm_refl|].
  apply Forall_cons in Hhs as [[Hf Hg] Hhs]. cbn in Hf, Hg.
  unfold chainThen. cbn [foldl].
  pose proof (calm_then p f g s Hf Hg) as H1.
  eapply calm_trans; [exact H1|]. by apply IH.
Qed.

Lemma calm_recursiveModuleCompile items options s :
  calm s (recursiveModuleCompile items options s).2.
Proof.
  rewrite recursiveModuleCompile_chain.
  eapply calm_trans; [|apply calm_chainThen].
  - eapply calm_trans; [apply calm_arrays|].
    apply (calm_newPromise (Some (Fulfilled VUndefined))).
  - unfold compileHandlers. apply Forall_app. split.
    + apply Forall_map, Forall_true. by intros item.
    + by repeat constructor.
Qed.

Lemma calm_getPromise compiler dir options input s :
  calm s (getPromise compiler dir options input s).2.
Proof.
  unfold getPromise.
  pose proof (calm_recursiveModuleCompile [input] options s) as H1.
  destruct (recursiveModuleCompile [input] options s) as [p s1].
  eapply calm_trans; [exact H1|]. by apply calm_then.
Qed.

Lemma calm_mapGetPromise compiler dir options includes : ∀ acc s,
  calm s (foldl (λ '(acc, st) input,
                   let '(p, st') :=
                     getPromise compiler dir options input st in
                   (acc ++ [p], st'))
                (acc, s) includes).2.
Proof.
  induction includes as [|input rest IH]; intros acc s; [apply calm_refl|].
  cbn [foldl].
  pose proof (calm_getPromise compiler dir options input s) as H1.
  destruct (getPromise compiler dir options input s) as [p s1].
  eapply calm_trans; [exact H1|apply IH].
Qed.

Lemma calm_forEach outputDir includes options s :
  calm s (forEachRecursiveModuleCompile outputDir includes options s).2.
Proof.
  unfold forEachRecursiveModuleCompile, newNodeCompiler, mapGetPromise.
  cbv zeta.
  pose proof (calm_mapGetPromise
                {| compilerOptions := optionsValue options s |}
                (Path.resolve (cwd s) outputDir) options includes []
                (log (EvNewCompiler (optionsValue options s)) s)) as H1.
  destruct (foldl _ _ includes) as [ps s2].
  apply (calm_trans _ (log (EvNewCompiler (optionsValue options s)) s));
    [by apply calm_log|].
  eapply calm_trans; [exact H1|apply calm_promiseAll].
Qed.

(** X18. The fan-out path never changes the working directory and creates no
    directory: started when no single-file compile is under way, at no point
    of its run, however far the run goes and in whatever order the loads
    settle, is the working directory another than at the call, and no
    [mkdir] or [chdir] is logged. *)
Theorem fan_out_stays_put outputDir includes options s fuel schedule :
  revertFree s →
  let s0 := (forEachRecursiveModuleCompile outputDir includes options s).2 in
  let s' := run E fuel schedule s0 in
  cwd s0 = cwd s ∧
  cwd s' = cwd s ∧
  directoryEvents (trace s') = directoryEvents (trace s).
Proof.
  intros Hs s0 s'.
  pose proof (calm_forEach outputDir includes options s) as H0.
  fold s0 in H0.
  assert (H1 : calm s0 s') by (apply calm_run, H0, Hs).
  destruct (calm_trans _ _ _ H0 H1) as (? & _ & ? & _).
  by destruct H0 as (? & _).
Qed.

(** X13. [recursiveModuleCompile] by itself never changes the working
    directory either: only the single-file path around it does. *)
Theorem compile_stays_put items options s fuel schedule :
  revertFree s →
  let s1 := (recursiveModuleCompile items options s).2 in
  let s' := run E fuel schedule s1 in
  cwd s1 = cwd s ∧
  cwd s' = cwd s ∧
  directoryEvents (trace s') = directoryEvents (trace s).
Proof.
  intros Hs s1 s'.
  pose proof (calm_recursiveModuleCompile items options s) as H0.
  fold s1 in H0.
  assert (H1 : calm s1 s') by (apply calm_run, H0, Hs).
  destruct (calm_trans _ _ _ H0 H1) as (? & _ & ? & _).
  by destruct H0 as (? & _).
Qed.

End Calm.

(** ** What the compiles never do to the option objects of the caller *)

(** [same s s']: the option objects and the loads in flight are as they
    were. *)
Definition same (s s' : State) : Prop :=
  objects s' = objects s ∧ nextObject s' = nextObject s ∧
  inflight s' = inflight s.

(** The loads in flight were handed clones numbered [n] or above, and so
    will the next ones be. *)
Definition clonesAbove (n : nat) (s : State) : Prop :=
  n ≤ nextObject s ∧ Forall (λ fl, n ≤ flightOptions fl) (inflight s).

(** [aloof n s s']: from [s] to [s'] no option object below [n] is
    changed. *)
Definition aloof (n : nat) (s s' : State) : Prop :=
  clonesAbove n s →
  clonesAbove n s' ∧ ∀ o, o < n → objects s' !! o = objects s !! o.

Section Aloof.

Variable E : Externals.

Lemma same_refl s : same s s.
Proof. done. Qed.

Lemma same_trans s1 s2 s3 : same s1 s2 → same s2 s3 → same s1 s3.
Proof. intros (H1 & H2 & H3) (K1 & K2 & K3). split_and!; congruence. Qed.

Lemma same_newPromise o s : same s (newPromise o s).2.
Proof. done. Qed.

Lemma same_settle p o s : same s (settle p o s).
Proof. unfold settle. by destruct (promises s !! p) as [[[o'|] rs]|]. Qed.

Lemma same_subscribe p r s : same s (subscribe p r s).
Proof. unfold subscribe. by destruct (promises s !! p) as [[[o'|] rs]|]. Qed.

Lemma same_then p f g s : same s (then_ p f g s).2.
Proof. unfold then_. cbn. apply (same_subscribe p _ (newPromise None s).2). Qed.

Lemma same_resolvePromise q c s : same s (resolvePromise q c s).
Proof.
  destruct c as [v|y|r]; cbn; try apply same_settle.
  destruct (promises s !! y) as [[[o'|] rs]|]; try done.
  - apply same_settle.
  - apply same_subscribe.
Qed.

Lemma same_settledAt index agg o s : same s (settledAt index agg o s).
Proof.
  destruct o as [v|r]; cbn; [|apply same_settle].
  destruct (aggregates s !! agg) as [[remaining result]|]; [|done].
  case_decide; [|done].
  apply (same_settle agg _ (with_aggregates _ s)).
Qed.

Lemma same_foldl {A} (f : State → A → State) l :
  (∀ st x, same st (f st x)) → ∀ s, same s (foldl f s l).
Proof.
  intros Hf. induction l as [|x l IH]; intros s; [done|].
  cbn. eapply same_trans; [apply Hf|apply IH].
Qed.

Lemma same_promiseAll ps s : same s (promiseAll ps s).2.
Proof.
  unfold promiseAll. cbn.
  eapply same_trans; [|apply same_foldl].
  - case_decide; [|done].
    apply (same_settle _ _ (with_aggregates _ (newPromise None s).2)).
  - intros st [i p]. cbn.
    destruct (promises st !! p) as [[[o'|] rs]|];
      first [apply same_settledAt|apply same_subscribe].
Qed.

Lemma same_chainThen hs : ∀ start, same start.2 (chainThen hs start).2.
Proof.
  induction hs as [|[f g] hs IH]; intros [p s]; [done|].
  unfold chainThen. cbn [foldl].
  eapply same_trans; [apply same_then|]. apply IH.
Qed.

Lemma same_recursiveModuleCompile items options s :
  same s (recursiveModuleCompile items options s).2.
Proof.
  rewrite recursiveModuleCompile_chain.
  eapply same_trans; [|apply same_chainThen]. done.
Qed.

Lemma same_getPromise compiler dir options input s :
  same s (getPromise compiler dir options input s).2.
Proof.
  unfold getPromise.
  pose proof (same_recursiveModuleCompile [input] options s) as H1.
  destruct (recursiveModuleCompile [input] options s) as [p s1].
  eapply same_trans; [exact H1|apply same_then].
Qed.

Lemma same_mapGetPromise compiler dir options includes : ∀ acc s,
  same s (foldl (λ '(acc, st) input,
                   let '(p, st') :=
                     getPromise compiler dir options input st in
                   (acc ++ [p], st'))
                (acc, s) includes).2.
Proof.
  induction includes as [|input rest IH]; intros acc s; [done|].
  cbn [foldl].
  pose proof (same_getPromise compiler dir options input s) as H1.
  destruct (getPromise compiler dir options input s) as [p s1].
  eapply same_trans; [exact H1|apply IH].
Qed.

Lemma same_forEach outputDir includes options s :
  same s (forEachRecursiveModuleCompile outputDir includes options s).2.
Proof.
  unfold forEachRecursiveModuleCompile, newNodeCompiler, mapGetPromise.
  cbv zeta.
  pose proof (same_mapGetPromise
                {| compilerOptions := optionsValue options s |}
                (Path.resolve (cwd s) outputDir) options includes []
                (log (EvNewCompiler (optionsValue options s)) s)) as H1.
  destruct (foldl _ _ includes) as [ps s2].
  eapply same_trans; [exact H1|apply same_promiseAll].
Qed.

Lemma aloof_refl n s : aloof n s s.
Proof. by intros H. Qed.

Lemma aloof_trans n s1 s2 s3 : aloof n s1 s2 → aloof n s2 s3 → aloof n s1 s3.
Proof.
  intros H1 H2 Hc. destruct (H1 Hc) as [Hc2 Ho2].
  destruct (H2 Hc2) as [Hc3 Ho3]. split; [done|].
  intros o Hlt. by rewrite Ho3, Ho2.
Qed.

Lemma aloof_same n s s' : same s s' → aloof n s s'.
Proof.
  intros (Ho & Hn & Hf) [H1 H2]. split.
  - split; [by rewrite Hn|by rewrite Hf].
  - intros o _. by rewrite Ho.
Qed.

(** [loadInput] makes its clone above every object there is, and the
    loader is handed that clone. *)
Lemma aloof_loadInput n sess input s : aloof n s (loadInput E sess input s).2.
Proof.
  intros [Hn Hfl]. unfold loadInput, newOptions, callLoader.
  set (s1 := with_objects _ _ s).
  destruct (if bool_decide (type input = "script") then _ else _)
    as [loadFunction doEvaluateModule].
  unfold newPromise. cbv zeta.
  set (s3 := log _ _).
  match goal with
  | |- context [then_ ?x ?f ?g s3] =>
      pose proof (same_then x f g s3) as (Ho & Hno & Hin);
      destruct (then_ x f g s3) as [y s4]
  end.
  cbn in Ho, Hno, Hin. cbn [snd]. split.
  - split; [rewrite Hno; lia|]. rewrite Hin. apply Forall_app. split; [done|].
    by repeat constructor.
  - intros o Hlt. rewrite Ho. by rewrite lookup_insert_ne by lia.
Qed.

Lemma aloof_invoke n k arg s : aloof n s (invoke E k arg s).2.
Proof.
  destruct k as [sess item|sess b nm|sess dep|compiler file|compiler dir input| |];
    cbn.
  - apply aloof_loadInput.
  - destruct b; by apply aloof_same.
  - destruct (truthy dep); apply aloof_refl.
  - unfold writeTreeToFile. destruct (writeFailure E compiler arg file);
      by apply aloof_same.
  - unfold writeTreeToFile.
    destruct (writeFailure E compiler arg (pathJoin E dir (name input)));
      by apply aloof_same.
  - by apply aloof_same.
  - by apply aloof_same.
Qed.

Lemma aloof_runJob n j s : aloof n s (runJob E j s).
Proof.
  destruct j as [[f g q|q|index agg] o]; cbn.
  - destruct o as [v|r].
    + destruct f as [k|]; [|apply aloof_same, same_settle].
      pose proof (aloof_invoke n k v s) as H.
      destruct (invoke E k v s) as [c s1].
      eapply aloof_trans; [exact H|apply aloof_same, same_resolvePromise].
    + destruct g as [k|]; [|apply aloof_same, same_settle].
      pose proof (aloof_invoke n k r s) as H.
      destruct (invoke E k r s) as [c s1].
      eapply aloof_trans; [exact H|apply aloof_same, same_resolvePromise].
  - apply aloof_same, same_settle.
  - apply aloof_same, same_settledAt.
Qed.

Lemma aloof_drain n fuel : ∀ s, aloof n s (drain E fuel s).
Proof.
  induction fuel as [|fuel IH]; intros s; [apply aloof_refl|].
  cbn. destruct (jobs s) as [|j js] eqn:Hj; [apply aloof_refl|].
  eapply aloof_trans; [|apply IH].
  eapply aloof_trans; [|apply aloof_runJob]. by apply aloof_same.
Qed.

(** The loader changes the clone it was handed and nothing else. *)
Lemma aloof_complete n i s : aloof n s (complete E i s).
Proof.
  intros [Hn Hfl]. unfold complete.
  destruct (inflight s !! i) as [fl|] eqn:Hi; [|done].
  cbv zeta.
  match goal with
  | |- context [settle ?p ?o ?st] =>
      pose proof (same_settle p o st) as (Ho & Hno & Hin);
      set (s5 := settle p o st) in *
  end.
  clearbody s5. cbn in Ho, Hno, Hin.
  assert (Hfl' : n ≤ flightOptions fl).
  { rewrite Forall_forall in Hfl. apply Hfl.
    by eapply list_elem_of_lookup_2. }
  split.
  - split; [by rewrite Hno|]. rewrite Hin.
    by apply Forall_delete.
  - intros o Hlt. rewrite Ho. by rewrite lookup_insert_ne by lia.
Qed.

Lemma aloof_run n fuel schedule : ∀ s, aloof n s (run E fuel schedule s).
Proof.
  induction schedule as [|i rest IH]; intros s; cbn.
  - apply aloof_drain.
  - eapply aloof_trans; [apply aloof_drain|].
    eapply aloof_trans; [apply aloof_complete|apply IH].
Qed.

(** X19. The fan-out path never changes an option object of the caller: at
    no point of its run does an object that existed at the call hold another
    value than at the call. The loader works on the clones, and unlike the
    single-file path the function assigns nothing to [options]. *)
Theorem fan_out_keeps_options outputDir includes options s fuel schedule :
  inflight s = [] →
  let s0 := (forEachRecursiveModuleCompile outputDir includes options s).2 in
  let s' := run E fuel schedule s0 in
  ∀ o, o < nextObject s →
    objects s0 !! o = objects s !! o ∧ objects s' !! o = objects s !! o.
Proof.
  intros Hf s0 s' o Hlt.
  pose proof (same_forEach outputDir includes options s) as (Ho & Hn & Hin).
  fold s0 in Ho, Hn, Hin.
  destruct (aloof_run (nextObject s) fuel schedule s0) as [_ Hobj].
  { split; [by rewrite Hn|]. rewrite Hin, Hf. constructor. }
  fold s' in Hobj. split; [by rewrite Ho|]. by rewrite Hobj, Ho.
Qed.

(** X14. Neither does [recursiveModuleCompile]: every load is handed a
    clone, and what the loader does to it stays in the clone. *)
Theorem compile_keeps_options items options s fuel schedule :
  inflight s = [] →
  let s1 := (recursiveModuleCompile items options s).2 in
  let s' := run E fuel schedule s1 in
  ∀ o, o < nextObject s →
    objects s1 !! o = objects s !! o ∧ objects s' !! o = objects s !! o.
Proof.
  intros Hf s1 s' o Hlt.
  pose proof (same_recursiveModuleCompile items options s) as (Ho & Hn & Hin).
  fold s1 in Ho, Hn, Hin.
  destruct (aloof_run (nextObject s) fuel schedule s1) as [_ Hobj].
  { split; [by rewrite Hn|]. rewrite Hin, Hf. constructor. }
  fold s' in Hobj. split; [by rewrite Ho|]. by rewrite Hobj, Ho.
Qed.

End Aloof.

(** ** The single-file path works in the output directory *)

Section SingleFileDirectory.

Variable E : Externals.

Lemma loadsTrace_no_directory sess v p x items :
  directoryEvents (loadsTrace E sess v p x items) = [].
Proof.
  revert p x. induction items as [|item rest IH]; intros p x; [done|].
  cbn [loadsTrace]. unfold directoryEvents in *. rewrite filter_app.
  replace (filter _ (loadTrace E sess v p x item)) with (@nil Event) by done.
  destruct (loadOutcome E sess v item); [apply IH|].
  cbn [app]. induction (seq (S p) (length rest)) as [|q qs IHq]; [done|].
  cbn [map]. by rewrite filter_cons_False by done.
Qed.

Lemma loadEvents_app t1 t2 : loadEvents (t1 ++ t2) = loadEvents t1 ++ loadEvents t2.
Proof. apply filter_app. Qed.

Lemma directoryEvents_app t1 t2 :
  directoryEvents (t1 ++ t2) = directoryEvents t1 ++ directoryEvents t2.
Proof. apply filter_app. Qed.

(** X6. From the [chdir] into the output directory to the [chdir] back the
    working directory is not changed again: every load is started and
    settled and the tree is written in between, while the process is in the
    output directory, and after the [chdir] back nothing happens but the
    settlement of the returned promise. *)
Theorem single_file_works_in_output_directory
    outputFile includes o v0 s schedule :
  objects s !! o = Some v0 →
  o < nextObject s →
  jobs s = [] →
  inflight s = [] →
  length includes ≤ length schedule →
  let dir := dirname E (Path.resolve (cwd s) outputFile) in
  let v := set_bundle (bool_decide (1 < length includes)) v0 in
  ∃ r items s7 s' inside out,
    recursiveModuleCompileToSingleFile E outputFile includes (Some o) s
      = (Returned r, items, s7) ∧
    ends E schedule s7 s' ∧
    trace s'
    = trace s ++ [EvNewCompiler (Some v); EvMkdir dir; EvChdir dir]
      ++ inside ++ [EvChdir (moduleCwd s); EvSettle r out] ∧
    directoryEvents inside = [] ∧
    loadEvents inside = loadEvents (drop (length (trace s)) (trace s')) ∧
    writesAttempted inside
    = writesAttempted (drop (length (trace s)) (trace s')).
Proof.
  intros Ho Hlt Hj Hf Hs dir v.
  destruct (singleFile_run E outputFile includes o v0 s schedule)
    as (s7 & s' & Heq & Hr & Hj' & Hf' & Htr & _); try done.
  fold dir v in Heq, Htr.
  set (items := rewrittenIncludes E dir includes s) in *.
  set (sess := sessionOf (Some o) (prepared dir o v s)) in *.
  set (lt := loadsTrace E sess v _ _ items) in *.
  set (p := S (nextPromise s) + length includes) in *.
  set (elems := loadsElements E sess v items) in *.
  set (file := Path.resolve (cwd s) outputFile) in *.
  set (compiler := {| compilerOptions := Some v |}) in *.
  assert (Hlt0 : directoryEvents lt = []) by apply loadsTrace_no_directory.
  assert (Hfin : ∃ pre out,
            (singleFileEnd E (depTarget v) compiler file (moduleCwd s) p elems
               (loadsOutcome E sess v items)).1
            = pre ++ [EvChdir (moduleCwd s); EvSettle (S (S p)) out] ∧
            directoryEvents pre = []).
  { destruct (loadsOutcome E sess v items) as [w|reason]; cbn.
    - exists [EvSettle p (Fulfilled (treeResult (depTarget v) elems));
              EvWriteTree compiler (treeResult (depTarget v) elems) file;
              EvSettle (S p)
                (writeOutcome E compiler (treeResult (depTarget v) elems)
                   file)].
      eexists. split; [reflexivity|done].
    - exists [EvSettle p (Rejected reason); EvSettle (S p) (Rejected reason)].
      eexists. split; [reflexivity|done]. }
  destruct Hfin as (pre & out & Hfin & Hpre).
  rewrite Hfin in Htr.
  exists (S (S p)), items, s7, s', (lt ++ pre), out.
  split_and!; [exact Heq|by apply runs_ends| | | |].
  - rewrite Htr. by rewrite <- !app_assoc.
  - by rewrite directoryEvents_app, Hlt0, Hpre.
  - rewrite Htr, drop_app_length. rewrite !loadEvents_app. cbn.
    by rewrite app_nil_r.
  - rewrite Htr, drop_app_length. rewrite !writesAttempted_app. cbn.
    by rewrite app_nil_r.
Qed.

End SingleFileDirectory.

(** ** The further properties on the examples *)

(** The options and the session of a single-file compile of several
    entries started in [exampleStart] with the output file [bundle.js]. *)
Definition exampleBundleOptions : Options := set_bundle true exampleOptions.

Definition exampleBundleSession : Session :=
  sessionOf (Some 0) (prepared "/w" 0 exampleBundleOptions exampleStart).

Lemma single_file_load_failure_witness :
  (objects exampleStart !! 0 = Some exampleOptions ∧
   0 < nextObject exampleStart ∧
   jobs exampleStart = [] ∧ inflight exampleStart = [] ∧
   length exampleFailing ≤ length [0; 0; 0] ∧
   firstFailure exampleExternals exampleBundleSession exampleBundleOptions
     (rewrittenIncludes exampleExternals "/w" exampleFailing exampleStart)
     1 (VError "lost.js: not found")) ∧
  let items :=
    rewrittenIncludes exampleExternals "/w" exampleFailing exampleStart in
  ∃ r s7 s' t,
    recursiveModuleCompileToSingleFile exampleExternals "bundle.js"
      exampleFailing (Some 0) exampleStart
      = (Returned r, items, s7) ∧
    ends exampleExternals [0; 0; 0] s7 s' ∧
    trace s' = trace exampleStart ++ t ∧
    promises s' !! r
    = Some {| outcome := Some (Rejected (VError "lost.js: not found"));
              reactions := [] |} ∧
    loadRequests t
    = map (requestFor exampleBundleSession exampleBundleOptions)
          (take 2 items) ∧
    writesAttempted t = [] ∧
    cwd s' = moduleCwd exampleStart.
Proof.
  assert (Hfail :
    firstFailure exampleExternals exampleBundleSession exampleBundleOptions
      (rewrittenIncludes exampleExternals "/w" exampleFailing exampleStart)
      1 (VError "lost.js: not found")).
  { split.
    - eexists. split; reflexivity.
    - intros [|j] item Hlt Hit; [|lia]. injection Hit as <-.
      eexists. reflexivity. }
  split.
  - split_and!; [reflexivity|simpl; lia|reflexivity|reflexivity|simpl; lia|].
    exact Hfail.
  - apply (single_file_load_failure exampleExternals "bundle.js"
             exampleFailing 0 exampleOptions exampleStart [0; 0; 0] 1
             (VError "lost.js: not found"));
      [reflexivity|simpl; lia|reflexivity|reflexivity|simpl; lia|exact Hfail].
Defined.

Lemma single_file_success_witness :
  (objects exampleStart !! 0 = Some exampleOptions ∧
   0 < nextObject exampleStart ∧
   jobs exampleStart = [] ∧ inflight exampleStart = [] ∧
   length exampleIncludes ≤ length [0; 0] ∧
   Forall (λ item,
             ∃ w, replyOutcome
                    (replyFor exampleExternals exampleBundleSession
                       exampleBundleOptions item) = inl w)
          (rewrittenIncludes exampleExternals "/w" exampleIncludes
             exampleStart)) ∧
  let items :=
    rewrittenIncludes exampleExternals "/w" exampleIncludes exampleStart in
  let compiler := {| compilerOptions := Some exampleBundleOptions |} in
  let tree :=
    treeResult (depTarget exampleBundleOptions)
      (flat_map (contribution exampleExternals exampleBundleSession
                   exampleBundleOptions) items) in
  ∃ r s7 s' t,
    recursiveModuleCompileToSingleFile exampleExternals "bundle.js"
      exampleIncludes (Some 0) exampleStart
      = (Returned r, items, s7) ∧
    ends exampleExternals [0; 0] s7 s' ∧
    trace s' = trace exampleStart ++ t ∧
    loadRequests t
    = map (requestFor exampleBundleSession exampleBundleOptions) items ∧
    writesAttempted t = [(tree, "/w/bundle.js")] ∧
    promises s' !! r
    = Some {| outcome :=
                Some match writeFailure exampleExternals compiler tree
                             "/w/bundle.js" with
                     | Some err => Rejected err
                     | None => Fulfilled VUndefined
                     end;
              reactions := [] |} ∧
    cwd s' = moduleCwd exampleStart.
Proof.
  assert (Hall :
    Forall (λ item,
              ∃ w, replyOutcome
                     (replyFor exampleExternals exampleBundleSession
                        exampleBundleOptions item) = inl w)
           (rewrittenIncludes exampleExternals "/w" exampleIncludes
              exampleStart)).
  { repeat constructor; eexists; reflexivity. }
  split.
  - split_and!; [reflexivity|simpl; lia|reflexivity|reflexivity|simpl; lia|].
    exact Hall.
  - apply (single_file_success exampleExternals "bundle.js" exampleIncludes 0
             exampleOptions exampleStart [0; 0]);
      [reflexivity|simpl; lia|reflexivity|reflexivity|simpl; lia|exact Hall].
Defined.

Lemma single_file_call_effects_witness :
  objects exampleStart !! 0 = Some exampleOptions ∧
  ∃ r s7 j,
    recursiveModuleCompileToSingleFile exampleExternals "out/bundle.js"
      exampleIncludes (Some 0) exampleStart
      = (Returned r,
         map (λ include,
                set_name
                  (normalizePath exampleExternals
                     (relative exampleExternals "/w/out" "/w/out"
                        (Path.resolve (cwd exampleStart) (name include))))
                  include)
             exampleIncludes,
         s7) ∧
    cwd s7 = "/w/out" ∧
    trace s7
    = trace exampleStart
      ++ [EvNewCompiler (Some (set_bundle true exampleOptions));
          EvMkdir "/w/out"; EvChdir "/w/out"] ∧
    inflight s7 = inflight exampleStart ∧
    jobs s7 = jobs exampleStart ++ [j] ∧
    promises s7 !! r = Some {| outcome := None; reactions := [] |}.
Proof.
  split; [reflexivity|].
  apply (single_file_call_effects exampleExternals "out/bundle.js"
           exampleIncludes 0 exampleOptions exampleStart).
  reflexivity.
Defined.

Lemma single_file_no_entries_witness :
  (objects exampleStart !! 0 = Some exampleOptions ∧
   0 < nextObject exampleStart ∧
   jobs exampleStart = [] ∧ inflight exampleStart = []) ∧
  ∃ r s7 s' t,
    recursiveModuleCompileToSingleFile exampleExternals "out/bundle.js" []
      (Some 0) exampleStart
      = (Returned r, [], s7) ∧
    ends exampleExternals [] s7 s' ∧
    trace s' = trace exampleStart ++ t ∧
    compilersBuilt t = [Some (set_bundle false exampleOptions)] ∧
    loadRequests t = [] ∧
    writesAttempted t
    = [(treeResult (depTarget exampleOptions) [],
        Path.resolve (cwd exampleStart) "out/bundle.js")] ∧
    objects s' !! 0 = Some (set_bundle false exampleOptions).
Proof.
  split.
  - split_and!; [reflexivity|simpl; lia|reflexivity|reflexivity].
  - apply (single_file_no_entries exampleExternals "out/bundle.js" 0
             exampleOptions exampleStart []);
      [reflexivity|simpl; lia|reflexivity|reflexivity].
Defined.

Lemma single_file_works_in_output_directory_witness :
  (objects exampleStart !! 0 = Some exampleOptions ∧
   0 < nextObject exampleStart ∧
   jobs exampleStart = [] ∧ inflight exampleStart = [] ∧
   length exampleIncludes ≤ length [0; 0]) ∧
  ∃ r items s7 s' inside out,
    recursiveModuleCompileToSingleFile exampleExternals "out/bundle.js"
      exampleIncludes (Some 0) exampleStart
      = (Returned r, items, s7) ∧
    ends exampleExternals [0; 0] s7 s' ∧
    trace s'
    = trace exampleStart
      ++ [EvNewCompiler (Some (set_bundle true exampleOptions));
          EvMkdir "/w/out"; EvChdir "/w/out"]
      ++ inside ++ [EvChdir (moduleCwd exampleStart); EvSettle r out] ∧
    directoryEvents inside = [] ∧
    loadEvents inside
    = loadEvents (drop (length (trace exampleStart)) (trace s')) ∧
    writesAttempted inside
    = writesAttempted (drop (length (trace exampleStart)) (trace s')).
Proof.
  split.
  - split_and!; [reflexivity|simpl; lia|reflexivity|reflexivity|simpl; lia].
  - apply (single_file_works_in_output_directory exampleExternals
             "out/bundle.js" exampleIncludes 0 exampleOptions exampleStart
             [0; 0]);
      [reflexivity|simpl; lia|reflexivity|reflexivity|simpl; lia].
Defined.

Lemma compile_no_entries_witness :
  (jobs exampleStart = [] ∧ inflight exampleStart = []) ∧
  let result := treeResult (depTargetOf (Some 0) exampleStart) [] in
  ∃ p s1 s',
    recursiveModuleCompile [] (Some 0) exampleStart = (p, s1) ∧
    ends exampleExternals [] s1 s' ∧
    trace s' = trace exampleStart ++ [EvSettle p (Fulfilled result)] ∧
    promises s' !! p
    = Some {| outcome := Some (Fulfilled result); reactions := [] |}.
Proof.
  split.
  - split; reflexivity.
  - apply (compile_no_entries exampleExternals (Some 0) exampleStart []);
      reflexivity.
Defined.

Lemma compile_without_options_witness :
  (jobs exampleStart = [] ∧ inflight exampleStart = [] ∧
   length exampleIncludes ≤ length [0; 0]) ∧
  ∃ p s1 s' t elems out,
    recursiveModuleCompile exampleIncludes None exampleStart = (p, s1) ∧
    ends exampleExternals [0; 0] s1 s' ∧
    trace s' = trace exampleStart ++ t ∧
    Forall (λ req, traceurOptions req = defaultOptions exampleExternals ∧
                   referrerName req = None)
           (loadRequests t) ∧
    arrays s' !! nextArray exampleStart = Some elems ∧
    promises s' !! p = Some {| outcome := Some out; reactions := [] |} ∧
    (out = Fulfilled (VTree elems) ∨ ∃ reason, out = Rejected reason).
Proof.
  split.
  - split_and!; [reflexivity|reflexivity|simpl; lia].
  - apply (compile_without_options exampleExternals exampleIncludes
             exampleStart [0; 0]);
      [reflexivity|reflexivity|simpl; lia].
Defined.

(** Options that do not ask for registered modules. *)
Definition exampleInlineOptions : Options :=
  {| bundle := None; depTarget := None; referrer := None;
     modules := Some "inline"; passThrough := [] |}.

Lemma no_marker_without_register_witness :
  (jobs (exampleState "/w" "/w" exampleInlineOptions) = [] ∧
   inflight (exampleState "/w" "/w" exampleInlineOptions) = [] ∧
   (∀ o, Some 0 = Some o →
         o < nextObject (exampleState "/w" "/w" exampleInlineOptions)) ∧
   length exampleIncludes ≤ length [0; 0] ∧
   (modules (clonedValue exampleExternals (Some 0)
               (exampleState "/w" "/w" exampleInlineOptions))
    ≠ Some "register" ∨
    Forall (λ item, type item = "script") exampleIncludes)) ∧
  let s := exampleState "/w" "/w" exampleInlineOptions in
  let sess := sessionOf (Some 0) s in
  let v := clonedValue exampleExternals (Some 0) s in
  ∃ p s1 s',
    recursiveModuleCompile exampleIncludes (Some 0) s = (p, s1) ∧
    ends exampleExternals [0; 0] s1 s' ∧
    arrays s' !! nextArray s
    = Some (flat_map
              (λ item, replyElements (replyFor exampleExternals sess v item))
              (started exampleExternals sess v exampleIncludes)).
Proof.
  split.
  - split_and!; [reflexivity|reflexivity| |simpl; lia|].
    + intros o [= <-]. simpl. lia.
    + left. vm_compute. discriminate.
  - apply (no_marker_without_register exampleExternals exampleIncludes
             (Some 0) (exampleState "/w" "/w" exampleInlineOptions) [0; 0]);
      [reflexivity|reflexivity| |simpl; lia|].
    + intros o [= <-]. simpl. lia.
    + left. vm_compute. discriminate.
Defined.

Lemma loader_base_path_witness :
  (jobs exampleStart = [] ∧ inflight exampleStart = [] ∧
   (∀ o, Some 0 = Some o → o < nextObject exampleStart) ∧
   length exampleIncludes ≤ length [0; 0]) ∧
  let here := Path.resolve (cwd exampleStart) "./" in
  ∃ p s1 s' t,
    recursiveModuleCompile exampleIncludes (Some 0) exampleStart = (p, s1) ∧
    ends exampleExternals [0; 0] s1 s' ∧
    trace s' = trace exampleStart ++ t ∧
    Forall (λ req,
              hasBackslash (loaderBasePath req) = false ∧
              loaderBasePath req = replaceBackslashes here +:+ "/" ∧
              (hasBackslash here = false →
               loaderBasePath req = here +:+ "/"))
           (loadRequests t).
Proof.
  split.
  - split_and!; [reflexivity|reflexivity| |simpl; lia].
    intros o [= <-]. simpl. lia.
  - apply (loader_base_path exampleExternals exampleIncludes (Some 0)
             exampleStart [0; 0]);
      [reflexivity|reflexivity| |simpl; lia].
    intros o [= <-]. simpl. lia.
Defined.

Lemma fan_out_outcome_witness :
  (0 < length exampleFailing ∧
   jobs exampleStart = [] ∧ inflight exampleStart = [] ∧
   (∀ o, Some 0 = Some o → o < nextObject exampleStart) ∧
   length exampleFailing ≤ length [2; 0; 0]) ∧
  let E := exampleExternals in
  ∃ s0 s' out,
    forEachRecursiveModuleCompile "out" exampleFailing (Some 0) exampleStart
      = (aggregate exampleFailing exampleStart, s0) ∧
    ends E [2; 0; 0] s0 s' ∧
    promises s' !! aggregate exampleFailing exampleStart
    = Some {| outcome := Some out; reactions := [] |} ∧
    ((∀ k input, exampleFailing !! k = Some input →
        fanOutcome E "out" (Some 0) exampleStart k input
        = Fulfilled VUndefined) →
     out = Fulfilled (VArray (replicate (length exampleFailing) VUndefined))) ∧
    (∀ w, out = Fulfilled w →
       ∀ k input, exampleFailing !! k = Some input →
         fanOutcome E "out" (Some 0) exampleStart k input
         = Fulfilled VUndefined) ∧
    (∀ reason, out = Rejected reason →
       ∃ k input, exampleFailing !! k = Some input ∧
         fanOutcome E "out" (Some 0) exampleStart k input = Rejected reason).
Proof.
  split.
  - split_and!; [simpl; lia|reflexivity|reflexivity| |simpl; lia].
    intros o [= <-]. simpl. lia.
  - apply (fan_out_outcome exampleExternals "out" exampleFailing (Some 0)
             exampleStart [2; 0; 0]);
      [simpl; lia|reflexivity|reflexivity| |simpl; lia].
    intros o [= <-]. simpl. lia.
Defined.

Lemma fan_out_stays_put_witness :
  revertFree exampleStart ∧
  let s0 :=
    (forEachRecursiveModuleCompile "out" exampleFailing (Some 0)
       exampleStart).2 in
  let s' := run exampleExternals 16 [2; 0; 0] s0 in
  cwd s0 = cwd exampleStart ∧
  cwd s' = cwd exampleStart ∧
  directoryEvents (trace s') = directoryEvents (trace exampleStart).
Proof.
  split.
  - split; [apply map_Forall_empty|constructor].
  - apply (fan_out_stays_put exampleExternals "out" exampleFailing (Some 0)
             exampleStart 16 [2; 0; 0]).
    split; [apply map_Forall_empty|constructor].
Defined.

Lemma compile_stays_put_witness :
  revertFree exampleStart ∧
  let s1 := (recursiveModuleCompile exampleIncludes (Some 0) exampleStart).2 in
  let s' := run exampleExternals 16 [0; 0] s1 in
  cwd s1 = cwd exampleStart ∧
  cwd s' = cwd exampleStart ∧
  directoryEvents (trace s') = directoryEvents (trace exampleStart).
Proof.
  split.
  - split; [apply map_Forall_empty|constructor].
  - apply (compile_stays_put exampleExternals exampleIncludes (Some 0)
             exampleStart 16 [0; 0]).
    split; [apply map_Forall_empty|constructor].
Defined.

Lemma fan_out_keeps_options_witness :
  inflight exampleStart = [] ∧
  let s0 :=
    (forEachRecursiveModuleCompile "out" exampleFailing (Some 0)
       exampleStart).2 in
  let s' := run exampleExternals 16 [2; 0; 0] s0 in
  ∀ o, o < nextObject exampleStart →
    objects s0 !! o = objects exampleStart !! o ∧
    objects s' !! o = objects exampleStart !! o.
Proof.
  split; [reflexivity|].
  apply (fan_out_keeps_options exampleExternals "out" exampleFailing (Some 0)
           exampleStart 16 [2; 0; 0]).
  reflexivity.
Defined.

Lemma compile_keeps_options_witness :
  inflight exampleStart = [] ∧
  let s1 := (recursiveModuleCompile exampleIncludes (Some 0) exampleStart).2 in
  let s' := run exampleExternals 16 [0; 0] s1 in
  ∀ o, o < nextObject exampleStart →
    objects s1 !! o = objects exampleStart !! o ∧
    objects s' !! o = objects exampleStart !! o.
Proof.
  split; [reflexivity|].
  apply (compile_keeps_options exampleExternals exampleIncludes (Some 0)
           exampleStart 16 [0; 0]).
  reflexivity.
Defined.

(** ** The fan-out path: what is written *)

Section FanOutWrites.

Variable E : Externals.
Variable outputDir : string.
Variable includes : list Entry.
Variable options : option nat.
Variable s : State.

Lemma writesAttempted_starts (f : nat → Entry → LoadRequest) l :
  writesAttempted (imap (λ k input, EvLoadStart (f k input)) l) = [].
Proof.
  revert f. induction l as [|x l IH]; intros f; [done|].
  cbn. apply (IH (λ k, f (S k))).
Qed.

(** X17. The files the fan-out path writes are those of the entries whose
    load succeeds, one write each, with the tree of the entry alone and in
    the order the compiles end; for an entry whose load fails nothing is
    written, and a failure of one entry prevents no write of another. *)
Theorem fan_out_writes schedule :
  0 < length includes →
  jobs s = [] →
  inflight s = [] →
  (∀ o, options = Some o → o < nextObject s) →
  length includes ≤ length schedule →
  let order :=
    completionOrder schedule (imap (λ k input, (k, input)) includes) in
  ∃ s0 s' t,
    forEachRecursiveModuleCompile outputDir includes options s
      = (aggregate includes s, s0) ∧
    ends E schedule s0 s' ∧
    trace s' = trace s ++ t ∧
    order ≡ₚ imap (λ k input, (k, input)) includes ∧
    writesAttempted t
    = flat_map
        (λ ki,
           match loadOutcome E (fanSession options s ki.1)
                   (fanValue E options s) ki.2 with
           | Fulfilled _ =>
               [(fanTree E options s ki.1 ki.2,
                 pathJoin E (Path.resolve (cwd s) outputDir) (name ki.2))]
           | Rejected _ => []
           end)
        order.
Proof.
  intros Hpos Hj Hf Ho Hlen order.
  destruct (fan_start E outputDir includes options s Hpos Hj Hf Ho)
    as (s0 & s1 & Hcall & Hd & Hfan & Htr).
  destruct (fan_runs E outputDir includes options s (trace s1) schedule
              _ _ _ Hfan) as (s' & t & Hr & Hfan' & Htr' & Hws).
  { by rewrite length_imap. }
  cbn [app] in Hfan'. fold order in Hfan', Hws.
  destruct Hfan' as [Hj' Hin' _ _ _ Hperm _ _ _].
  rewrite app_nil_r in Hperm.
  eexists s0, s', _. split_and!; [exact Hcall| | |exact Hperm|].
  - apply runs_ends; [|done]. by eapply drains_runs.
  - rewrite Htr', Htr. by rewrite <- app_assoc.
  - rewrite writesAttempted_app. cbn [app].
    change (writesAttempted (EvNewCompiler ?c :: ?l))
      with (writesAttempted l).
    by rewrite writesAttempted_starts, Hws.
Qed.

End FanOutWrites.

Lemma fan_out_writes_witness :
  (0 < length exampleFailing ∧
   jobs exampleStart = [] ∧ inflight exampleStart = [] ∧
   (∀ o, Some 0 = Some o → o < nextObject exampleStart) ∧
   length exampleFailing ≤ length [2; 0; 0]) ∧
  let E := exampleExternals in
  let order :=
    completionOrder [2; 0; 0]
      (imap (λ k input, (k, input)) exampleFailing) in
  ∃ s0 s' t,
    forEachRecursiveModuleCompile "out" exampleFailing (Some 0) exampleStart
      = (aggregate exampleFailing exampleStart, s0) ∧
    ends E [2; 0; 0] s0 s' ∧
    trace s' = trace exampleStart ++ t ∧
    order ≡ₚ imap (λ k input, (k, input)) exampleFailing ∧
    writesAttempted t
    = flat_map
        (λ ki,
           match loadOutcome E (fanSession (Some 0) exampleStart ki.1)
                   (fanValue E (Some 0) exampleStart) ki.2 with
           | Fulfilled _ =>
               [(fanTree E (Some 0) exampleStart ki.1 ki.2,
                 pathJoin E (Path.resolve (cwd exampleStart) "out")
                   (name ki.2))]
           | Rejected _ => []
           end)
        order.
Proof.
  split.
  - split_and!; [simpl; lia|reflexivity|reflexivity| |simpl; lia].
    intros o [= <-]. simpl. lia.
  - apply (fan_out_writes exampleExternals "out" exampleFailing (Some 0)
             exampleStart [2; 0; 0]);
      [simpl; lia|reflexivity|reflexivity| |simpl; lia].
    intros o [= <-]. simpl. lia.
Defined.

(** ** The single-file path: what the loader is asked *)

Section SingleFileRequests.

Variable E : Externals.

(** X7. "Make includes relative to output dir so that sourcemap paths are
    correct": every request the loader receives from a single-file compile
    names an entry of the caller by its path relative to the output
    directory, the name having been resolved against the working directory
    of the call, and carries the output directory, not the directory of the
    caller, as base path. *)
Theorem single_file_requests outputFile includes o v0 s schedule :
  objects s !! o = Some v0 →
  o < nextObject s →
  jobs s = [] →
  inflight s = [] →
  length includes ≤ length schedule →
  let dir := dirname E (Path.resolve (cwd s) outputFile) in
  ∃ r items s7 s' t,
    recursiveModuleCompileToSingleFile E outputFile includes (Some o) s
      = (Returned r, items, s7) ∧
    ends E schedule s7 s' ∧
    trace s' = trace s ++ t ∧
    Forall (λ req,
              loaderBasePath req
              = replaceBackslashes (Path.resolve dir "./") +:+ "/" ∧
              ∃ include,
                include ∈ includes ∧
                loadName req
                = normalizePath E
                    (relative E dir dir
                       (Path.resolve (cwd s) (name include))))
           (loadRequests t).
Proof.
  intros Ho Hlt Hj Hf Hs dir.
  destruct (singleFile_summary E outputFile includes o v0 s schedule)
    as (s7 & s' & t & fin & Heq & Hr & Hj' & Hf' & _ & Htr & _ & Hreq & _);
    try done.
  fold dir in Heq, Hreq.
  eexists _, _, s7, s', _.
  split_and!; [exact Heq|by apply runs_ends|exact Htr|].
  rewrite loadRequests_app, Hreq. cbn [loadRequests omap app].
  rewrite app_nil_r. apply Forall_map.
  match goal with
  | |- Forall _ (started E ?sess ?v ?items) =>
      destruct (started_prefix E sess v items) as [rest Hrest];
      assert (Hall : Forall (λ item,
                 ∃ include, include ∈ includes ∧
                   name item
                   = normalizePath E
                       (relative E dir dir
                          (Path.resolve (cwd s) (name include)))) items)
  end.
  { unfold rewrittenIncludes, resolveIncludes. cbn [fst].
    rewrite map_map. apply Forall_map, Forall_forall.
    intros include Hin. exists include. by split. }
  rewrite Hrest in Hall. apply Forall_app in Hall as [Hall _].
  eapply Forall_impl; [exact Hall|]. intros item Hitem. split.
  - cbn. by rewrite replaceBackslashes_app.
  - exact Hitem.
Qed.

End SingleFileRequests.

Lemma single_file_requests_witness :
  (objects exampleStart !! 0 = Some exampleOptions ∧
   0 < nextObject exampleStart ∧
   jobs exampleStart = [] ∧ inflight exampleStart = [] ∧
   length exampleIncludes ≤ length [0; 0]) ∧
  let E := exampleExternals in
  let dir := dirname E (Path.resolve (cwd exampleStart) "out/bundle.js") in
  ∃ r items s7 s' t,
    recursiveModuleCompileToSingleFile E "out/bundle.js" exampleIncludes
      (Some 0) exampleStart
      = (Returned r, items, s7) ∧
    ends E [0; 0] s7 s' ∧
    trace s' = trace exampleStart ++ t ∧
    Forall (λ req,
              loaderBasePath req
              = replaceBackslashes (Path.resolve dir "./") +:+ "/" ∧
              ∃ include,
                include ∈ exampleIncludes ∧
                loadName req
                = normalizePath E
                    (relative E dir dir
                       (Path.resolve (cwd exampleStart) (name include))))
           (loadRequests t).
Proof.
  split.
  - split_and!; [reflexivity|simpl; lia|reflexivity|reflexivity|simpl; lia].
  - apply (single_file_requests exampleExternals "out/bundle.js"
             exampleIncludes 0 exampleOptions exampleStart [0; 0]);
      [reflexivity|simpl; lia|reflexivity|reflexivity|simpl; lia].
Defined.

(** ** Schedules: what does not depend on them, and what waits for them *)

Section Schedules.

Variable E : Externals.

(** X20. The loads of one compile are never in flight together, so the order
    in which the loader is asked to settle its loads cannot matter: two runs
    of the same [recursiveModuleCompile] call along any two schedules log
    the same events, settle the promise the same way and leave the same
    elements. *)
Theorem compile_schedule_independent items options s schedule1 schedule2 :
  jobs s = [] →
  inflight s = [] →
  (∀ o, options = Some o → o < nextObject s) →
  length items ≤ length schedule1 →
  length items ≤ length schedule2 →
  ∃ p s1 s1' s2' out,
    recursiveModuleCompile items options s = (p, s1) ∧
    ends E schedule1 s1 s1' ∧
    ends E schedule2 s1 s2' ∧
    trace s1' = trace s2' ∧
    promises s1' !! p = Some {| outcome := Some out; reactions := [] |} ∧
    promises s2' !! p = Some {| outcome := Some out; reactions := [] |} ∧
    arrays s1' !! nextArray s = arrays s2' !! nextArray s.
Proof.
  intros Hj Hf Ho Hs1 Hs2.
  destruct (compile_run E items options s schedule1 Hj Hf Ho Hs1)
    as (s1 & s1' & Heq1 & Hr1 & _ & Hf1 & Htr1 & Hp1 & Ha1 & _).
  destruct (compile_run E items options s schedule2 Hj Hf Ho Hs2)
    as (s2 & s2' & Heq2 & Hr2 & _ & Hf2 & Htr2 & Hp2 & Ha2 & _).
  rewrite Heq1 in Heq2. injection Heq2 as <-.
  eexists _, s1, s1', s2', _.
  split_and!; [exact Heq1|by apply runs_ends|by apply runs_ends|..].
  - by rewrite Htr1, Htr2.
  - exact Hp1.
  - exact Hp2.
  - by rewrite Ha1, Ha2.
Qed.

(** X21. The same holds of the single-file path: the tree written, the way
    the returned promise settles and the whole log are the same along any
    two schedules. *)
Theorem single_file_schedule_independent
    outputFile includes o v0 s schedule1 schedule2 :
  objects s !! o = Some v0 →
  o < nextObject s →
  jobs s = [] →
  inflight s = [] →
  length includes ≤ length schedule1 →
  length includes ≤ length schedule2 →
  ∃ r items s7 s1' s2' out,
    recursiveModuleCompileToSingleFile E outputFile includes (Some o) s
      = (Returned r, items, s7) ∧
    ends E schedule1 s7 s1' ∧
    ends E schedule2 s7 s2' ∧
    trace s1' = trace s2' ∧
    writesAttempted (trace s1') = writesAttempted (trace s2') ∧
    promises s1' !! r = Some {| outcome := Some out; reactions := [] |} ∧
    promises s2' !! r = Some {| outcome := Some out; reactions := [] |}.
Proof.
  intros Ho Hlt Hj Hf Hs1 Hs2.
  destruct (singleFile_run E outputFile includes o v0 s schedule1)
    as (s7 & s1' & Heq1 & Hr1 & _ & Hf1 & Htr1 & Hp1 & _); try done.
  destruct (singleFile_run E outputFile includes o v0 s schedule2)
    as (s7' & s2' & Heq2 & Hr2 & _ & Hf2 & Htr2 & Hp2 & _); try done.
  rewrite Heq1 in Heq2. injection Heq2 as <-.
  eexists _, _, s7, s1', s2', _.
  split_and!; [exact Heq1|by apply runs_ends|by apply runs_ends|..].
  - by rewrite Htr1, Htr2.
  - by rewrite Htr1, Htr2.
  - exact Hp1.
  - exact Hp2.
Qed.

(** X22. The working directory is put back by a handler of the promise chain
    and by nothing else: as long as the loader has not settled the first
    load, the jobs run out with the process in the output directory, one
    load in flight and the returned promise pending. *)
Theorem single_file_waits_in_output_directory outputFile includes o v0 s :
  objects s !! o = Some v0 →
  jobs s = [] →
  inflight s = [] →
  includes ≠ [] →
  let dir := dirname E (Path.resolve (cwd s) outputFile) in
  ∃ r items s7 s',
    recursiveModuleCompileToSingleFile E outputFile includes (Some o) s
      = (Returned r, items, s7) ∧
    (∃ n, ∀ fuel, n ≤ fuel → run E fuel [] s7 = s') ∧
    jobs s' = [] ∧
    length (inflight s') = 1 ∧
    cwd s' = dir ∧
    promises s' !! r = Some {| outcome := None; reactions := [] |}.
Proof.
  intros Ho Hj Hf Hne dir.
  rewrite (singleFile_chain E outputFile includes o v0 s Ho). fold dir.
  set (v := set_bundle (bool_decide (1 < length includes)) v0).
  set (items := rewrittenIncludes E dir includes s).
  set (s4 := prepared dir o v s).
  set (file := Path.resolve (cwd s) outputFile).
  destruct (chainThen_built (singleFileHandlers items o v file s4)
              (withElements s4)) as (s7 & Hc & Hb).
  { unfold singleFileHandlers. by destruct items. }
  pose proof (built_world _ _ _ Hb) as (Hcwd & _ & _ & _ & Hin & _).
  assert (Hitems : ∃ item rest, items = item :: rest).
  { unfold items, rewrittenIncludes, resolveIncludes. cbn [fst].
    destruct includes as [|x l]; [done|]. cbn. eauto. }
  destruct Hitems as (item & rest & Hitems).
  set (sess := sessionOf (Some o) s4) in *.
  set (a := nextPromise (withElements s4)) in *.
  set (ks := map (callF sess) rest
             ++ [(Some (KToTree sess (depTarget v)), None);
                 (Some (KWriteSingle {| compilerOptions := Some v |} file),
                  None);
                 (Some KRevertCwd, Some KRevertThrow)]).
  assert (Hhs : singleFileHandlers items o v file s4
                = (Some (KCallF sess item), None) :: ks).
  { unfold singleFileHandlers. by rewrite Hitems. }
  assert (Hks : length ks = length rest + 3).
  { unfold ks. rewrite length_app, length_map. done. }
  rewrite Hhs in Hb, Hc. clearbody ks.
  destruct Hb as (Hjobs & Hpipe & Hnext & _). fold a in Hjobs, Hpipe, Hnext.
  change (jobs (withElements s4)) with (jobs s) in Hjobs.
  rewrite Hj in Hjobs. cbn [app] in Hjobs.
  set (s' := loading sess (clonedValue E (sessOptions sess) (with_jobs [] s7))
               item (S a) (with_jobs [] s7)).
  exists (a + length ((Some (KCallF sess item), None) :: ks)), items, s7, s'.
  split_and!.
  - by rewrite Hhs, Hc.
  - exists 1. intros fuel Hfuel. cbn [run].
    apply (drain_more E 1); [|done|done].
    cbn [drain]. rewrite Hjobs. cbn [drain]. by rewrite runJob_load.
  - done.
  - unfold s'. cbn. rewrite Hin. cbn. by rewrite Hf.
  - unfold s'. cbn. by rewrite Hcwd.
  - apply pipeline_last in Hpipe.
    unfold s', loading.
    cbn [promises log with_inflight with_promises with_objects with_jobs
         nextPromise length].
    rewrite Hnext, !lookup_insert_ne by lia.
    rewrite <- Hpipe. f_equal. lia.
Qed.

End Schedules.

Lemma compile_schedule_independent_witness :
  (jobs exampleStart = [] ∧ inflight exampleStart = [] ∧
   (∀ o, Some 0 = Some o → o < nextObject exampleStart) ∧
   length exampleIncludes ≤ length [0; 0] ∧
   length exampleIncludes ≤ length [1; 5; 2]) ∧
  ∃ p s1 s1' s2' out,
    recursiveModuleCompile exampleIncludes (Some 0) exampleStart = (p, s1) ∧
    ends exampleExternals [0; 0] s1 s1' ∧
    ends exampleExternals [1; 5; 2] s1 s2' ∧
    trace s1' = trace s2' ∧
    promises s1' !! p = Some {| outcome := Some out; reactions := [] |} ∧
    promises s2' !! p = Some {| outcome := Some out; reactions := [] |} ∧
    arrays s1' !! nextArray exampleStart
    = arrays s2' !! nextArray exampleStart.
Proof.
  split.
  - split_and!; [reflexivity|reflexivity| |simpl; lia|simpl; lia].
    intros o [= <-]. simpl. lia.
  - apply (compile_schedule_independent exampleExternals exampleIncludes
             (Some 0) exampleStart [0; 0] [1; 5; 2]);
      [reflexivity|reflexivity| |simpl; lia|simpl; lia].
    intros o [= <-]. simpl. lia.
Defined.

Lemma single_file_schedule_independent_witness :
  (objects exampleStart !! 0 = Some exampleOptions ∧
   0 < nextObject exampleStart ∧
   jobs exampleStart = [] ∧ inflight exampleStart = [] ∧
   length exampleIncludes ≤ length [0; 0] ∧
   length exampleIncludes ≤ length [1; 5; 2]) ∧
  ∃ r items s7 s1' s2' out,
    recursiveModuleCompileToSingleFile exampleExternals "out/bundle.js"
      exampleIncludes (Some 0) exampleStart
      = (Returned r, items, s7) ∧
    ends exampleExternals [0; 0] s7 s1' ∧
    ends exampleExternals [1; 5; 2] s7 s2' ∧
    trace s1' = trace s2' ∧
    writesAttempted (trace s1') = writesAttempted (trace s2') ∧
    promises s1' !! r = Some {| outcome := Some out; reactions := [] |} ∧
    promises s2' !! r = Some {| outcome := Some out; reactions := [] |}.
Proof.
  split.
  - split_and!;
      [reflexivity|simpl; lia|reflexivity|reflexivity|simpl; lia|simpl; lia].
  - apply (single_file_schedule_independent exampleExternals "out/bundle.js"
             exampleIncludes 0 exampleOptions exampleStart [0; 0] [1; 5; 2]);
      [reflexivity|simpl; lia|reflexivity|reflexivity|simpl; lia|simpl; lia].
Defined.

Lemma single_file_waits_in_output_directory_witness :
  (objects exampleStart !! 0 = Some exampleOptions ∧
   jobs exampleStart = [] ∧ inflight exampleStart = [] ∧
   exampleIncludes ≠ []) ∧
  ∃ r items s7 s',
    recursiveModuleCompileToSingleFile exampleExternals "out/bundle.js"
      exampleIncludes (Some 0) exampleStart
      = (Returned r, items, s7) ∧
    (∃ n, ∀ fuel, n ≤ fuel → run exampleExternals fuel [] s7 = s') ∧
    jobs s' = [] ∧
    length (inflight s') = 1 ∧
    cwd s' = "/w/out" ∧
    promises s' !! r = Some {| outcome := None; reactions := [] |}.
Proof.
  split.
  - split_and!; [reflexivity|reflexivity|reflexivity|discriminate].
  - apply (single_file_waits_in_output_directory exampleExternals
             "out/bundle.js" exampleIncludes 0 exampleOptions exampleStart);
      [reflexivity|reflexivity|reflexivity|discriminate].
Defined.
